(** * SubSync: a shallow embedding of the sync pipeline's pure core

    The development follows the JavaScript sources of the repository:
    the subscription parser with its wire-format decoders, the node
    deduplicator, the node tester's verdict, the name-driven node
    analyzer, the group manager, the per-group URI list writer and the
    reader of the files it writes.

    JavaScript values are embedded as a small universe [jsval]:
    [undefined], [null], booleans, numbers, strings and plain objects
    whose properties are such values -- what [JSON.parse] returns for a
    document without arrays, and what the decoders build.  Strings are
    byte strings holding the UTF-8 encoding of the JavaScript string;
    numbers are exact integers (ports, latencies and epoch milliseconds
    are integral and far below 2^53) together with [NaN]; exceptions are
    an explicit [result] type.  The universe holds no function, so a
    property of an object is never callable: converting an object that
    has a [toString] property of its own to a string or a number throws
    a TypeError, as it does in the language. *)

From Stdlib Require Import Bool List String Ascii ZArith Lia.
From Stdlib Require Import DecimalString DecimalPos Permutation NArith.
Import ListNotations.

Local Open Scope string_scope.
Local Open Scope Z_scope.

(** ** JavaScript values and the primitives the sources rely on *)

Module JS.

#[warnings="-register-all"]
Inductive jsval : Type :=
| JUndef
| JNull
| JBool (b : bool)
| JNum (z : Z)
| JNaN
| JStr (s : string)
| JObj (props : list (string * jsval)).

(** What can be thrown: a TypeError or a URIError of the platform (their
    messages are the platform's and are not modelled), [new Error(msg)],
    and the error in which [SubscriptionParser.parse] wraps the first
    failure when every parser has failed, whose message is
    ['Failed to parse subscription data: '] followed by the message of
    that first failure. *)
Inductive exn : Type :=
| TypeError
| URIError
| Error (msg : string)
| ParseFailure (first : exn).

Inductive result (A : Type) : Type :=
| Ok (a : A)
| Throw (e : exn).

Arguments Ok {A} a.
Arguments Throw {A} e.

Definition bind {A B} (r : result A) (k : A -> result B) : result B :=
  match r with
  | Ok a => k a
  | Throw e => Throw e
  end.

Notation "x <- r ;; k" := (bind r (fun x => k))
  (at level 61, r at next level, right associativity).

(** Monadic left fold: a [for ... of] loop whose body may throw. *)
Fixpoint foldM {A B} (f : A -> B -> result A) (l : list B) (a : A)
  : result A :=
  match l with
  | [] => Ok a
  | b :: l' => a' <- f a b ;; foldM f l' a'
  end.

(** [array.map(f)] with a callback that may throw. *)
Fixpoint mapM {A B} (f : A -> result B) (l : list A) : result (list B) :=
  match l with
  | [] => Ok []
  | a :: l' => b <- f a ;; bs <- mapM f l' ;; Ok (b :: bs)
  end.

(** ToBoolean. *)
Definition truthy (v : jsval) : bool :=
  match v with
  | JUndef | JNull | JNaN => false
  | JBool b => b
  | JNum z => negb (z =? 0)
  | JStr s => negb (String.eqb s "")
  | JObj _ => true
  end.

(** [a || b] on values. *)
Definition or_else (a b : jsval) : jsval := if truthy a then a else b.

Definition string_of_Z (z : Z) : string :=
  NilZero.string_of_int (Z.to_int z).

(** ToString of a primitive value.  For an object this is the text
    that [Object.prototype.toString] gives, which is its conversion
    whenever it has one (see [to_string]).  An integer is written with
    all its digits, as the language does below 10^21. *)
Definition to_str (v : jsval) : string :=
  match v with
  | JUndef => "undefined"
  | JNull => "null"
  | JBool true => "true"
  | JBool false => "false"
  | JNum z => string_of_Z z
  | JNaN => "NaN"
  | JStr s => s
  | JObj _ => "[object Object]"
  end.

(** Own-property lookup in an object literal; a missing property reads
    as [undefined].  Inherited properties are outside the model. *)
Fixpoint assoc (k : string) (ps : list (string * jsval)) : jsval :=
  match ps with
  | [] => JUndef
  | (k', v) :: ps' => if String.eqb k k' then v else assoc k ps'
  end.

(** The object has a property [k] of its own. *)
Definition has_own (k : string) (ps : list (string * jsval)) : bool :=
  existsb (fun kv => String.eqb k (fst kv)) ps.

(** ToPrimitive, with either hint.  An object is asked for its
    [toString] and its [valueOf] (in the order of the hint) and the
    first callable one that returns a primitive decides.  A property of
    the object itself is never callable here, and the inherited
    [valueOf] returns the object: so an object with a [toString] of its
    own cannot be converted, and any other is converted by the inherited
    [toString]. *)
Definition convertible (v : jsval) : bool :=
  match v with
  | JObj ps => negb (has_own "toString" ps)
  | _ => true
  end.

Definition to_primitive (v : jsval) : result jsval :=
  match v with
  | JObj ps =>
      if has_own "toString" ps then Throw TypeError
      else Ok (JStr "[object Object]")
  | _ => Ok v
  end.

(** ToString, as performed by a template literal. *)
Definition to_string (v : jsval) : result string :=
  p <- to_primitive v ;; Ok (to_str p).

(** [v.k]: throws on [undefined] and [null].  Here and in [opt_member]
    the key is looked up among the properties of the object itself,
    which is what the language does for the keys that the sources read
    ([server], [port], [extra], ...); what a string answers to [length]
    or to an index, and what objects inherit ([toString],
    [constructor], ...), is outside the model. *)
Definition member (v : jsval) (k : string) : result jsval :=
  match v with
  | JUndef | JNull => Throw TypeError
  | JObj ps => Ok (assoc k ps)
  | _ => Ok JUndef
  end.

(** [v?.[k]]: short-circuits to [undefined] on [undefined] and [null]. *)
Definition opt_member (v : jsval) (k : string) : jsval :=
  match v with
  | JObj ps => assoc k ps
  | _ => JUndef
  end.

(** [s.split(c)] for a one-character separator. *)
Fixpoint split_char (c : ascii) (s : string) : list string :=
  match s with
  | EmptyString => [EmptyString]
  | String a s' =>
      if Ascii.eqb a c then EmptyString :: split_char c s'
      else match split_char c s' with
           | [] => [String a EmptyString]
           | w :: ws => String a w :: ws
           end
  end.

(** Decimal numerals: [Some n] when the string is a non-empty run of
    digits. *)
Definition digit_of (a : ascii) : option Z :=
  let n := Z.of_nat (nat_of_ascii a) in
  if (48 <=? n) && (n <=? 57) then Some (n - 48) else None.

Fixpoint digits_acc (s : string) (acc : Z) : option Z :=
  match s with
  | EmptyString => Some acc
  | String a s' =>
      match digit_of a with
      | Some d => digits_acc s' (10 * acc + d)
      | None => None
      end
  end.

Definition decimal (s : string) : option Z :=
  match s with
  | EmptyString => None
  | _ => digits_acc s 0
  end.


(** *** Strings *)

Definition code (a : ascii) : N := N_of_ascii a.

(** [s.includes(sub)]. *)
Fixpoint includes (sub s : string) : bool :=
  prefix sub s ||
  match s with
  | EmptyString => false
  | String _ s' => includes sub s'
  end.

(** [s.startsWith(p)]. *)
Definition startsWith (p s : string) : bool := prefix p s.

(** The white space and line terminators of the language, as they
    appear in UTF-8: [all_white s] holds when [s.trim()] is empty. *)
Definition ascii_white (a : ascii) : bool :=
  let n := code a in
  ((9 <=? n) && (n <=? 13) || (n =? 32))%N.

Fixpoint all_white (s : string) : bool :=
  match s with
  | EmptyString => true
  | String a r =>
      if ascii_white a then all_white r
      else
        match r with
        | String b r1 =>
            if ((code a =? 194) && (code b =? 160))%N then all_white r1
            else
              match r1 with
              | String c r2 =>
                  let x := code a in
                  let y := code b in
                  let z := code c in
                  if ((x =? 225) && (y =? 154) && (z =? 128)
                      || (x =? 226) && (y =? 128)
                         && ((128 <=? z) && (z <=? 138)
                             || (z =? 168) || (z =? 169) || (z =? 175))
                      || (x =? 226) && (y =? 129) && (z =? 159)
                      || (x =? 227) && (y =? 128) && (z =? 128)
                      || (x =? 239) && (y =? 187) && (z =? 191))%N
                  then all_white r2
                  else false
              | EmptyString => false
              end
        | EmptyString => false
        end
  end.

(** One leading white-space character removed, if there is one. *)
Definition skip_white1 (s : string) : option string :=
  match s with
  | String a r =>
      if ascii_white a then Some r
      else
        match r with
        | String b r1 =>
            if all_white (String a (String b EmptyString)) then Some r1
            else
              match r1 with
              | String c r2 =>
                  if all_white (String a (String b (String c EmptyString)))
                  then Some r2 else None
              | EmptyString => None
              end
        | EmptyString => None
        end
  | EmptyString => None
  end.

Fixpoint skip_white (fuel : nat) (s : string) : string :=
  match fuel with
  | O => s
  | S fuel' =>
      match skip_white1 s with
      | Some r => skip_white fuel' r
      | None => s
      end
  end.

Definition hex_upper : string := "0123456789ABCDEF".
Definition hex_lower : string := "0123456789abcdef".

Definition hex_digit (alphabet : string) (n : N) : string :=
  match String.get (N.to_nat n) alphabet with
  | Some c => String c EmptyString
  | None => EmptyString
  end.

Definition hex_byte (alphabet : string) (a : ascii) : string :=
  hex_digit alphabet (code a / 16) ++ hex_digit alphabet (code a mod 16).

(** *** parseInt *)

Definition hex_value (a : ascii) : option Z :=
  let n := Z.of_N (code a) in
  if (48 <=? n) && (n <=? 57) then Some (n - 48)
  else if (97 <=? n) && (n <=? 102) then Some (n - 87)
  else if (65 <=? n) && (n <=? 70) then Some (n - 55)
  else None.

(** The longest prefix of digits in the radix, read as a number;
    [None] when there is no digit. *)
Fixpoint digits_prefix (radix : Z) (s : string) (acc : option Z)
  : option Z :=
  match s with
  | EmptyString => acc
  | String a s' =>
      match hex_value a with
      | Some d =>
          if d <? radix then
            digits_prefix radix s'
              (Some (radix * match acc with Some n => n | None => 0 end + d))
          else acc
      | None => acc
      end
  end.

(** [parseInt(s)] on a string: leading white space, an optional sign,
    an optional [0x] prefix, then digits. [None] is [NaN].  The digits
    are read exactly; the language rounds to a double what lies beyond
    2^53, which is outside the integer model. *)
Definition parseInt_string (s : string) : option Z :=
  let s := skip_white (String.length s) s in
  let '(sign, s) :=
    match s with
    | String "-" r => (-1, r)
    | String "+" r => (1, r)
    | _ => (1, s)
    end in
  let '(radix, s) :=
    match s with
    | String "0" (String "x" r) => (16, r)
    | String "0" (String "X" r) => (16, r)
    | _ => (10, s)
    end in
  option_map (Z.mul sign) (digits_prefix radix s None).

Definition of_number (n : option Z) : jsval :=
  match n with
  | Some z => JNum z
  | None => JNaN
  end.

(** [parseInt(s)] for a string [s]. *)
Definition parseInt_text (s : string) : jsval :=
  of_number (parseInt_string s).

(** [parseInt(v)]: the argument is first converted to a string. *)
Definition parseInt (v : jsval) : result jsval :=
  s <- to_string v ;; Ok (parseInt_text s).

(** *** ToNumber and the relational operator *)

(** [s.trim()]. *)
Fixpoint trim_end (s : string) : string :=
  match s with
  | EmptyString => EmptyString
  | String a r => if all_white s then EmptyString else String a (trim_end r)
  end.

Definition trim (s : string) : string :=
  trim_end (skip_white (String.length s) s).

(** All of the string read as digits in the radix. *)
Definition digits_all (radix : Z) (s : string) : option Z :=
  let fix go (s : string) (acc : Z) : option Z :=
    match s with
    | EmptyString => Some acc
    | String a s' =>
        match hex_value a with
        | Some d => if d <? radix then go s' (radix * acc + d) else None
        | None => None
        end
    end in
  match s with
  | EmptyString => None
  | _ => go s 0
  end.

(** ToNumber of a primitive value, within the integer model; [None] is
    [NaN].  A string is trimmed and read as a signed decimal integer or
    as a prefixed hexadecimal, octal or binary one; the empty string is
    zero.  Numerals with a fraction or an exponent are outside the
    model. *)
Definition to_number (v : jsval) : option Z :=
  match v with
  | JUndef | JNaN | JObj _ => None
  | JNull => Some 0
  | JBool b => Some (if b then 1 else 0)
  | JNum z => Some z
  | JStr s =>
      match trim s with
      | EmptyString => Some 0
      | String "-" r => option_map Z.opp (decimal r)
      | String "+" r => decimal r
      | String "0" (String x r) as t =>
          if Ascii.eqb x "x" || Ascii.eqb x "X" then digits_all 16 r
          else if Ascii.eqb x "o" || Ascii.eqb x "O" then digits_all 8 r
          else if Ascii.eqb x "b" || Ascii.eqb x "B" then digits_all 2 r
          else decimal t
      | t => decimal t
      end
  end.

(** Lexicographic order on strings, byte by byte. *)
Fixpoint string_ltb (s t : string) : bool :=
  match s, t with
  | _, EmptyString => false
  | EmptyString, String _ _ => true
  | String a s', String b t' =>
      if (code a <? code b)%N then true
      else if (code b <? code a)%N then false
      else string_ltb s' t'
  end.

(** [a < b] on primitive values: two strings compare lexicographically,
    anything else numerically, and a comparison involving [NaN] is
    false. *)
Definition lt_primitive (a b : jsval) : bool :=
  match a, b with
  | JStr s, JStr t => string_ltb s t
  | x, y =>
      match to_number x, to_number y with
      | Some m, Some n => m <? n
      | _, _ => false
      end
  end.

(** [a < b]: both operands are first made primitive, the left one
    first. *)
Definition lt (a b : jsval) : result bool :=
  pa <- to_primitive a ;;
  pb <- to_primitive b ;;
  Ok (lt_primitive pa pb).

(** *** encodeURIComponent *)

Definition uri_unreserved (a : ascii) : bool :=
  let n := code a in
  ((48 <=? n) && (n <=? 57) || (65 <=? n) && (n <=? 90)
   || (97 <=? n) && (n <=? 122)
   || (n =? 45) || (n =? 95) || (n =? 46) || (n =? 33)
   || (n =? 126) || (n =? 42) || (n =? 39) || (n =? 40) || (n =? 41))%N.

Fixpoint percent_encode (keep : ascii -> bool) (s : string) : string :=
  match s with
  | EmptyString => EmptyString
  | String a s' =>
      (if keep a then String a EmptyString else "%" ++ hex_byte hex_upper a)
      ++ percent_encode keep s'
  end.

Definition encodeURIComponent (s : string) : string :=
  percent_encode uri_unreserved s.

(** *** Base64 of a byte string ([Buffer.from(s).toString('base64')]) *)

Definition b64_alphabet : string :=
  "ABCDEFGHIJKLMNOPQRSTUVWXYZabcdefghijklmnopqrstuvwxyz0123456789+/".

Definition b64_digit (n : N) : string :=
  match String.get (N.to_nat n) b64_alphabet with
  | Some c => String c EmptyString
  | None => EmptyString
  end.

Fixpoint base64_encode (s : string) : string :=
  match s with
  | EmptyString => EmptyString
  | String a EmptyString =>
      let x := code a in
      (b64_digit (x / 4) ++ b64_digit ((x mod 4) * 16) ++ "==")%N
  | String a (String b EmptyString) =>
      let x := code a in
      let y := code b in
      (b64_digit (x / 4) ++ b64_digit ((x mod 4) * 16 + y / 16)
       ++ b64_digit ((y mod 16) * 4) ++ "=")%N
  | String a (String b (String c r)) =>
      let x := code a in
      let y := code b in
      let z := code c in
      (b64_digit (x / 4) ++ b64_digit ((x mod 4) * 16 + y / 16)
       ++ b64_digit ((y mod 16) * 4 + z / 64) ++ b64_digit (z mod 64)
       ++ base64_encode r)%N
  end.

(** *** JSON.stringify *)

Definition dquote : string := String (ascii_of_nat 34) EmptyString.

Definition json_escape_char (a : ascii) : string :=
  let n := code a in
  if (n =? 34)%N then "\" ++ dquote
  else if (n =? 92)%N then "\\"
  else if (n =? 8)%N then "\b"
  else if (n =? 9)%N then "\t"
  else if (n =? 10)%N then "\n"
  else if (n =? 12)%N then "\f"
  else if (n =? 13)%N then "\r"
  else if (n <? 32)%N then "\u00" ++ hex_byte hex_lower a
  else String a EmptyString.

Fixpoint json_escape (s : string) : string :=
  match s with
  | EmptyString => EmptyString
  | String a s' => json_escape_char a ++ json_escape s'
  end.

Definition json_quote (s : string) : string :=
  dquote ++ json_escape s ++ dquote.

(** [None] stands for the [undefined] that [JSON.stringify] returns for
    [undefined]; such properties are left out of an object. *)
Fixpoint json_stringify (v : jsval) : option string :=
  match v with
  | JUndef => None
  | JNull | JNaN => Some "null"
  | JBool _ | JNum _ => Some (to_str v)
  | JStr s => Some (json_quote s)
  | JObj ps =>
      let fix members (ps : list (string * jsval)) : list string :=
        match ps with
        | [] => []
        | (k, x) :: ps' =>
            match json_stringify x with
            | Some sx => (json_quote k ++ ":" ++ sx) :: members ps'
            | None => members ps'
            end
        end in
      Some ("{" ++ String.concat "," (members ps) ++ "}")
  end.

(** [a && b] on values. *)
Definition and_then (a b : jsval) : jsval := if truthy a then b else a.

(** [typeof v === 'string']. *)
Definition is_string (v : jsval) : bool :=
  match v with
  | JStr _ => true
  | _ => false
  end.

(** [a === b] against a string literal. *)
Definition is_str (v : jsval) (s : string) : bool :=
  match v with
  | JStr t => String.eqb t s
  | _ => false
  end.


(** *** decodeURIComponent *)

Definition in_range (lo hi : N) (a : ascii) : bool :=
  ((lo <=? code a) && (code a <=? hi))%N.

(** A [%XX] escape at the head of the string. *)
Definition escape_here (s : string) : option (ascii * string) :=
  match s with
  | String "%" (String h (String l r)) =>
      match hex_value h, hex_value l with
      | Some x, Some y => Some (ascii_of_N (Z.to_N (16 * x + y)), r)
      | _, _ => None
      end
  | _ => None
  end.

(** [decodeURIComponent]: every [%] must start an escape, and the
    escaped bytes must spell well-formed UTF-8; otherwise a URIError.
    The recursion consumes at least one character per round. *)
Fixpoint decodeURIComponent_fuel (fuel : nat) (s : string)
  : result string :=
  match fuel with
  | O => Ok EmptyString
  | S fuel' =>
      match s with
      | EmptyString => Ok EmptyString
      | String "%" _ =>
          match escape_here s with
          | None => Throw URIError
          | Some (b0, r0) =>
              let continue (bytes r : string) :=
                rest <- decodeURIComponent_fuel fuel' r ;;
                Ok (bytes ++ rest) in
              let one := String b0 EmptyString in
              if (code b0 <? 128)%N then continue one r0
              else
                match escape_here r0 with
                | None => Throw URIError
                | Some (b1, r1) =>
                    let two := String b0 (String b1 EmptyString) in
                    if in_range 194 223 b0 then
                      if in_range 128 191 b1 then continue two r1
                      else Throw URIError
                    else
                      match escape_here r1 with
                      | None => Throw URIError
                      | Some (b2, r2) =>
                          let three := two ++ String b2 EmptyString in
                          let lead3 :=
                            (code b0 =? 224)%N && in_range 160 191 b1
                            || (in_range 225 236 b0 || in_range 238 239 b0)
                               && in_range 128 191 b1
                            || (code b0 =? 237)%N && in_range 128 159 b1 in
                          if in_range 224 239 b0 then
                            if lead3 && in_range 128 191 b2
                            then continue three r2
                            else Throw URIError
                          else
                            match escape_here r2 with
                            | None => Throw URIError
                            | Some (b3, r3) =>
                                let four := three ++ String b3 EmptyString in
                                let lead4 :=
                                  (code b0 =? 240)%N && in_range 144 191 b1
                                  || in_range 241 243 b0
                                     && in_range 128 191 b1
                                  || (code b0 =? 244)%N
                                     && in_range 128 143 b1 in
                                if lead4 && in_range 128 191 b2
                                   && in_range 128 191 b3
                                then continue four r3
                                else Throw URIError
                            end
                      end
                end
          end
      | String a r =>
          rest <- decodeURIComponent_fuel fuel' r ;;
          Ok (String a rest)
      end
  end.

Definition decodeURIComponent (s : string) : result string :=
  decodeURIComponent_fuel (String.length s) s.

End JS.

Import JS.

(** [{...props, key: value}]: the property is overwritten in place when
    present and appended otherwise. *)
Module NodeExtra.

Fixpoint set (k : string) (v : jsval) (ps : list (string * jsval))
  : list (string * jsval) :=
  match ps with
  | [] => [(k, v)]
  | (k', v') :: ps' =>
      if String.eqb k k' then (k', v) :: ps'
      else (k', v') :: set k v ps'
  end.

End NodeExtra.

(** ** The platform's URL parser

    [new URL(input)] without a base, after the URL standard, for inputs of
    the shapes the decoders meet: [scheme://userinfo@host:port/path?query#fragment]
    and its abbreviations.  The record keeps the properties the decoders
    read.  Outside the model: [file:] URLs; for the special schemes the
    normalisation of numeric IPv4 forms and of internationalised or
    percent-escaped domain names; the validation and compression of IPv6
    literals, which are kept as written between their brackets. *)

Module URL.

Record url : Type := mkURL {
  protocol : string;
  username : string;
  password : string;
  hostname : string;
  port : string;
  search : string;
  hash : string
}.

Fixpoint break (stop : ascii -> bool) (s : string) : string * string :=
  match s with
  | EmptyString => (EmptyString, EmptyString)
  | String a r =>
      if stop a then (EmptyString, s)
      else let '(x, y) := break stop r in (String a x, y)
  end.

Fixpoint drop_while (p : ascii -> bool) (s : string) : string :=
  match s with
  | EmptyString => EmptyString
  | String a r => if p a then drop_while p r else s
  end.

Fixpoint keep (p : ascii -> bool) (s : string) : string :=
  match s with
  | EmptyString => EmptyString
  | String a r => if p a then String a (keep p r) else keep p r
  end.

Fixpoint rev_onto (s acc : string) : string :=
  match s with
  | EmptyString => acc
  | String a r => rev_onto r (String a acc)
  end.

Definition rev (s : string) : string := rev_onto s EmptyString.

Definition is_char (c : ascii) (a : ascii) : bool := Ascii.eqb a c.

Definition one_of (set : string) (a : ascii) : bool :=
  includes (String a EmptyString) set.

Definition is_alpha (a : ascii) : bool :=
  in_range 65 90 a || in_range 97 122 a.

Definition is_digit (a : ascii) : bool := in_range 48 57 a.

Definition ascii_lower (a : ascii) : ascii :=
  if in_range 65 90 a then ascii_of_N (code a + 32) else a.

Fixpoint lowercase (s : string) : string :=
  match s with
  | EmptyString => EmptyString
  | String a r => String (ascii_lower a) (lowercase r)
  end.

(** Leading and trailing C0 controls and spaces are stripped, tabs and
    newlines removed throughout. *)
Definition c0_or_space (a : ascii) : bool := (code a <=? 32)%N.
Definition tab_or_newline (a : ascii) : bool :=
  ((code a =? 9) || (code a =? 10) || (code a =? 13))%N.

Definition clean (s : string) : string :=
  keep (fun a => negb (tab_or_newline a))
       (rev (drop_while c0_or_space (rev (drop_while c0_or_space s)))).

(** The percent-encode sets. *)
Definition c0_control_set (a : ascii) : bool :=
  ((code a <? 32) || (126 <? code a))%N.
Definition fragment_set (a : ascii) : bool :=
  c0_control_set a || one_of (" <>`" ++ dquote) a.
Definition query_set (a : ascii) : bool :=
  c0_control_set a || one_of (" #<>" ++ dquote) a.
Definition special_query_set (a : ascii) : bool :=
  query_set a || is_char "'" a.
Definition path_set (a : ascii) : bool :=
  query_set a || one_of "?^`{}" a.
Definition userinfo_set (a : ascii) : bool :=
  path_set a || one_of "/:;=@[\]|" a.

Definition encode (set : ascii -> bool) (s : string) : string :=
  percent_encode (fun a => negb (set a)) s.

Definition special (scheme : string) : bool :=
  existsb (String.eqb scheme) ["http"; "https"; "ws"; "wss"; "ftp"].

Definition default_port (scheme : string) : option Z :=
  if String.eqb scheme "http" then Some 80
  else if String.eqb scheme "https" then Some 443
  else if String.eqb scheme "ws" then Some 80
  else if String.eqb scheme "wss" then Some 443
  else if String.eqb scheme "ftp" then Some 21
  else None.

(** The scheme: a letter, then letters, digits, [+], [-] or [.], up to
    the first colon. *)
Definition scheme_char (a : ascii) : bool :=
  is_alpha a || is_digit a || one_of "+-." a.

Definition parse_scheme (s : string) : option (string * string) :=
  match s with
  | String a _ =>
      if is_alpha a then
        match break (fun c => negb (scheme_char c)) s with
        | (scheme, String ":" rest) => Some (lowercase scheme, rest)
        | _ => None
        end
      else None
  | EmptyString => None
  end.

(** The last [@] of the authority separates the credentials from the
    host. *)
Fixpoint split_last_at (s : string) : option (string * string) :=
  match s with
  | EmptyString => None
  | String a r =>
      match split_last_at r with
      | Some (x, y) => Some (String a x, y)
      | None => if is_char "@" a then Some (EmptyString, r) else None
      end
  end.

(** The first colon outside brackets separates host and port. *)
Fixpoint split_host_port (inside : bool) (s : string)
  : string * option string :=
  match s with
  | EmptyString => (EmptyString, None)
  | String a r =>
      if is_char ":" a && negb inside then (EmptyString, Some r)
      else
        let inside' :=
          if is_char "[" a then true else if is_char "]" a then false else inside in
        let '(h, p) := split_host_port inside' r in (String a h, p)
  end.

Fixpoint all_chars (p : ascii -> bool) (s : string) : bool :=
  match s with
  | EmptyString => true
  | String a r => p a && all_chars p r
  end.

Definition forbidden_host (a : ascii) : bool :=
  (code a =? 0)%N || tab_or_newline a || one_of " #/:<>?@[\]^|" a.

Definition forbidden_domain (a : ascii) : bool :=
  forbidden_host a || (code a <? 32)%N || is_char "%" a || (code a =? 127)%N.

Definition parse_host (is_special : bool) (h : string) : option string :=
  match h with
  | String "[" _ =>
      match rev h with
      | String "]" _ => Some h
      | _ => None
      end
  | _ =>
      if is_special then
        if String.eqb h "" then None
        else if all_chars (fun a => negb (forbidden_domain a)) h
        then Some (lowercase h) else None
      else
        if all_chars (fun a => negb (forbidden_host a)) h
        then Some (encode c0_control_set h) else None
  end.

Definition parse_port (scheme : string) (p : string) : option string :=
  if all_chars is_digit p then
    match p with
    | EmptyString => Some EmptyString
    | _ =>
        match digits_acc p 0 with
        | Some n =>
            if 65535 <? n then None
            else
              match default_port scheme with
              | Some d => if n =? d then Some EmptyString
                          else Some (string_of_Z n)
              | None => Some (string_of_Z n)
              end
        | None => None
        end
    end
  else None.

(** Query and fragment of what follows the authority or the path. *)
Definition query_and_fragment (is_special : bool) (tail : string)
  : string * string :=
  let '(_, after_path) := break (one_of "?#") tail in
  let '(query, after_query) :=
    match after_path with
    | String "?" r => break (is_char "#") r
    | _ => (EmptyString, after_path)
    end in
  let fragment :=
    match after_query with
    | String "#" r => r
    | _ => EmptyString
    end in
  let query :=
    encode (if is_special then special_query_set else query_set) query in
  let fragment := encode fragment_set fragment in
  (if String.eqb query "" then "" else "?" ++ query,
   if String.eqb fragment "" then "" else "#" ++ fragment).

Definition parse (input : string) : option url :=
  match parse_scheme (clean input) with
  | None => None
  | Some (scheme, rest) =>
      let is_special := special scheme in
      let authority_here :=
        if is_special then Some (drop_while (one_of "/\") rest)
        else
          match rest with
          | String "/" (String "/" r) => Some r
          | _ => None
          end in
      match authority_here with
      | None =>
          let '(search, hash) := query_and_fragment is_special rest in
          Some (mkURL (scheme ++ ":") "" "" "" "" search hash)
      | Some r =>
          let '(authority, tail) :=
            break (fun a => one_of "/?#" a || is_special && is_char "\" a) r in
          let '(credentials, hostport, at_sign) :=
            match split_last_at authority with
            | Some (c, h) => (c, h, true)
            | None => (EmptyString, authority, false)
            end in
          if at_sign && String.eqb hostport "" then None
          else
            let '(user, pass) := break (is_char ":") credentials in
            let pass :=
              match pass with
              | String _ p => p
              | EmptyString => EmptyString
              end in
            let '(h, p) := split_host_port false hostport in
            let host :=
              match p with
              | Some _ =>
                  if String.eqb h "" then None else parse_host is_special h
              | None => parse_host is_special h
              end in
            match host with
            | None => None
            | Some host =>
                match parse_port scheme
                        (match p with Some p => p | None => "" end) with
                | None => None
                | Some port =>
                    let '(search, hash) :=
                      query_and_fragment is_special tail in
                    Some (mkURL (scheme ++ ":")
                                (encode userinfo_set user)
                                (encode userinfo_set pass)
                                host port search hash)
                end
            end
      end
  end.

(** [new URL(input)] throws a TypeError when parsing fails. *)
Definition new_URL (input : string) : result url :=
  match parse input with
  | Some u => Ok u
  | None => Throw TypeError
  end.

(** *** url.searchParams.get *)

Fixpoint percent_decode_fuel (fuel : nat) (s : string) : string :=
  match fuel with
  | O => EmptyString
  | S fuel' =>
      match s with
      | EmptyString => EmptyString
      | String a r =>
          match escape_here s with
          | Some (b, r') => String b (percent_decode_fuel fuel' r')
          | None => String a (percent_decode_fuel fuel' r)
          end
      end
  end.

Definition percent_decode (s : string) : string :=
  percent_decode_fuel (String.length s) s.

Fixpoint plus_to_space (s : string) : string :=
  match s with
  | EmptyString => EmptyString
  | String a r => String (if is_char "+" a then " "%char else a) (plus_to_space r)
  end.

(** The name-value pairs of a query string.  Escaped bytes are taken to
    spell well-formed UTF-8. *)
Definition form_pairs (query : string) : list (string * string) :=
  map (fun piece =>
         let '(name, value) := break (is_char "=") piece in
         let value :=
           match value with
           | String _ v => v
           | EmptyString => EmptyString
           end in
         (percent_decode (plus_to_space name),
          percent_decode (plus_to_space value)))
      (filter (fun piece => negb (String.eqb piece ""))
              (split_char "&" query)).

Definition searchParams_get (u : url) (name : string) : jsval :=
  let query :=
    match search u with
    | String "?" q => q
    | _ => EmptyString
    end in
  match find (fun nv => String.eqb (fst nv) name) (form_pairs query) with
  | Some (_, v) => JStr v
  | None => JNull
  end.

End URL.

(** ** The wire-format decoders of the plain-text parser *)

Module PlainTextParser.

Import URL.

(** The decoders of the base64-bodied formats ([vmess://], [ss://],
    [ssr://]) sit on the platform's base64 and JSON readers; they are
    taken as given.  [None] is the [null] a decoder returns when it
    cannot read its line. *)
Record decoders : Type := mkDecoders {
  parseVmess : string -> option jsval;
  parseShadowsocks : string -> option jsval;
  parseShadowsocksR : string -> option jsval
}.

(** [try { ... } catch (error) { return null; }]. *)
Definition or_null (r : result jsval) : option jsval :=
  match r with
  | Ok v => Some v
  | Throw _ => None
  end.

(** [s.substring(1)]. *)
Definition substring1 (s : string) : string :=
  match s with
  | String _ r => r
  | EmptyString => EmptyString
  end.

(** [a || b] on strings. *)
Definition str_or (a b : string) : string :=
  if String.eqb a "" then b else a.

Definition parseTrojan (uri : string) : option jsval :=
  or_null (
    url <- new_URL uri ;;
    name <- decodeURIComponent (str_or (substring1 (hash url)) "") ;;
    let server := hostname url in
    let port := str_or (port url) "443" in
    let password := username url in
    let sni :=
      or_else (or_else (searchParams_get url "sni")
                       (searchParams_get url "peer"))
              (JStr "") in
    let allowInsecure :=
      is_str (searchParams_get url "allowInsecure") "1"
      || is_str (searchParams_get url "tls-verification") "false" in
    Ok (JObj [
      ("type", JStr "trojan");
      ("name", JStr name);
      ("server", JStr server);
      ("port", parseInt_text port);
      ("protocol", JStr "trojan");
      ("settings", JObj [("password", JStr password);
                         ("sni", sni);
                         ("allowInsecure", JBool allowInsecure)]);
      ("extra", JObj [("raw", JStr uri)])
    ])).

Definition parseHttp (uri : string) : option jsval :=
  or_null (
    url <- new_URL uri ;;
    name <- decodeURIComponent (str_or (substring1 (hash url)) "") ;;
    let https := String.eqb (protocol url) "https:" in
    let server := hostname url in
    let port := str_or (port url) (if https then "443" else "80") in
    Ok (JObj [
      ("type", JStr (if https then "https" else "http"));
      ("name", JStr name);
      ("server", JStr server);
      ("port", parseInt_text port);
      ("protocol", JStr (if https then "https" else "http"));
      ("settings", JObj [("username", JStr (username url));
                         ("password", JStr (password url));
                         ("tls", JBool https)]);
      ("extra", JObj [("raw", JStr uri)])
    ])).

(** [/[A-Za-z0-9+/=]{20,}/]: a run of twenty or more such characters. *)
Definition base64_char (a : ascii) : bool :=
  is_alpha a || is_digit a || one_of "+/=" a.

Fixpoint has_run (n : nat) (p : ascii -> bool) (s : string) (seen : nat)
  : bool :=
  Nat.leb n seen ||
  match s with
  | EmptyString => false
  | String a r => has_run n p r (if p a then S seen else O)
  end.

Definition socks_prefix (uri : string) : bool :=
  startsWith "socks://" uri || startsWith "socks5://" uri
  || startsWith "sock://" uri.

Definition parseSocks (uri : string) : option jsval :=
  or_null (
    if negb (socks_prefix uri) then
      Throw (Error "Invalid SOCKS protocol prefix (must start with sock://, socks:// or socks5://)")
    else if includes "dW5kZWZpbmVk" uri || has_run 20 base64_char uri 0 then
      Throw (Error "Invalid SOCKS URL - appears to contain encoded data")
    else
      url <- new_URL uri ;;
      if String.eqb (hostname url) "" || String.eqb (port url) "" then
        Throw (Error "Missing server or port in SOCKS URL")
      else
        name <- decodeURIComponent (str_or (substring1 (hash url)) "") ;;
        let server := hostname url in
        let port := str_or (port url) "1080" in
        Ok (JObj [
          ("type", JStr "socks");
          ("name", JStr name);
          ("server", JStr server);
          ("port", parseInt_text port);
          ("protocol", JStr "socks");
          ("settings", JObj [("username", JStr (username url));
                             ("password", JStr (password url))]);
          ("extra", JObj [("raw", JStr uri)])
        ])).

Definition parseLine (d : decoders) (line : string) : option jsval :=
  if startsWith "vmess://" line then parseVmess d line
  else if startsWith "ss://" line then parseShadowsocks d line
  else if startsWith "ssr://" line then parseShadowsocksR d line
  else if startsWith "trojan://" line then parseTrojan line
  else if startsWith "http://" line || startsWith "https://" line
  then parseHttp line
  else if socks_prefix line then parseSocks line
  else None.

(** [raw.split(/[\r\n]+/).filter(line => line.trim())]: the pieces
    between carriage returns and line feeds that are not blank.  (A run
    of separators yields no piece; cutting at every separator and
    dropping the empty pieces with the blank ones is the same.) *)
Fixpoint split_where (sep : ascii -> bool) (s : string) : list string :=
  match s with
  | EmptyString => [EmptyString]
  | String a s' =>
      if sep a then EmptyString :: split_where sep s'
      else match split_where sep s' with
           | [] => [String a EmptyString]
           | w :: ws => String a w :: ws
           end
  end.

Definition lines_of (raw : string) : list string :=
  filter (fun line => negb (all_white line))
         (split_where (fun a => ((code a =? 13) || (code a =? 10))%N) raw).

Fixpoint keep_some {A} (l : list (option A)) : list A :=
  match l with
  | [] => []
  | Some a :: l' => a :: keep_some l'
  | None :: l' => keep_some l'
  end.

(** [parse]: a node is pushed for every line that a decoder reads. *)
Definition parse (d : decoders) (raw : string) : list jsval :=
  keep_some (map (parseLine d) (lines_of raw)).

End PlainTextParser.

(** ** The URL-shaped decoders of the base64-envelope parser *)

Module Base64Parser.

Import URL.

Definition or_null := PlainTextParser.or_null.
Definition substring1 := PlainTextParser.substring1.
Definition str_or := PlainTextParser.str_or.

(** [url.port || 443]: the port string of the URL, or the number. *)
Definition port_or_443 (u : url) : jsval :=
  if String.eqb (port u) "" then JNum 443 else JStr (port u).

Fixpoint drop (n : nat) (s : string) : string :=
  match n, s with
  | O, _ => s
  | S n', String _ r => drop n' r
  | S _, EmptyString => EmptyString
  end.

Definition parseTrojan (line : string) : option jsval :=
  if negb (startsWith "trojan://" line) || negb (includes "@" line)
  then None
  else or_null (
    (* [line.substring(8, atIndex)] and [line.substring(atIndex)] *)
    let '(passwordPart, fromAt) := break (is_char "@") (drop 8 line) in
    decoded <- decodeURIComponent passwordPart ;;
    let encodedPassword := encodeURIComponent decoded in
    let sanitizedLine := "trojan://" ++ encodedPassword ++ fromAt in
    url <- new_URL sanitizedLine ;;
    password <- decodeURIComponent (username url) ;;
    let server := hostname url in
    let port := port_or_443 url in
    name <- decodeURIComponent (str_or (substring1 (hash url)) "") ;;
    let sni := or_else (searchParams_get url "sni") (JStr server) in
    let allowInsecure :=
      is_str (searchParams_get url "allowInsecure") "1" in
    Ok (JObj [
      ("type", JStr "trojan");
      ("name", JStr (str_or name ("Trojan " ++ server ++ ":" ++ to_str port)));
      ("server", JStr server);
      ("port", port);
      ("protocol", JStr "trojan");
      ("settings", JObj [("password", JStr password);
                         ("sni", sni);
                         ("allowInsecure", JBool allowInsecure)]);
      ("extra", JObj [("raw", JStr line)])
    ])).

Definition parseVless (line : string) : option jsval :=
  or_null (
    url <- new_URL line ;;
    let id := username url in
    let server := hostname url in
    let port := port_or_443 url in
    name <- decodeURIComponent (str_or (substring1 (hash url)) "") ;;
    let param (key fallback : string) : jsval :=
      or_else (searchParams_get url key) (JStr fallback) in
    Ok (JObj [
      ("type", JStr "vless");
      ("name", JStr (str_or name ("VLESS " ++ server ++ ":" ++ to_str port)));
      ("server", JStr server);
      ("port", port);
      ("protocol", JStr "vless");
      ("settings", JObj [("id", JStr id);
                         ("network", param "type" "tcp");
                         ("security", param "security" "none");
                         ("sni", param "sni" server);
                         ("fp", param "fp" "");
                         ("alpn", param "alpn" "");
                         ("path", param "path" "/");
                         ("host", param "host" "");
                         ("encryption", param "encryption" "none");
                         ("flow", param "flow" "")]);
      ("extra", JObj [("raw", JStr line)])
    ])).

End Base64Parser.

(** ** SubscriptionParser *)

Module SubscriptionParser.

Import URL.

(** *** Does [JSON.parse(raw)] succeed?  A recogniser of JSON texts. *)

Definition json_white (a : ascii) : bool :=
  ((code a =? 9) || (code a =? 10) || (code a =? 13) || (code a =? 32))%N.

Definition skip_ws (s : string) : string := drop_while json_white s.

Definition is_hex (a : ascii) : bool :=
  match hex_value a with
  | Some _ => true
  | None => false
  end.

(** After the opening quote: up to and including the closing quote. *)
Fixpoint json_string_body (s : string) : option string :=
  match s with
  | EmptyString => None
  | String a r =>
      if (code a =? 34)%N then Some r
      else if (code a =? 92)%N then
        match r with
        | String e r1 =>
            if (code e =? 34)%N || one_of "\/bfnrt" e
            then json_string_body r1
            else if is_char "u" e then
              match r1 with
              | String h1 (String h2 (String h3 (String h4 r2))) =>
                  if is_hex h1 && is_hex h2 && is_hex h3 && is_hex h4
                  then json_string_body r2 else None
              | _ => None
              end
            else None
        | EmptyString => None
        end
      else if (code a <? 32)%N then None
      else json_string_body r
  end.

Definition json_digits1 (s : string) : option string :=
  match s with
  | String d _ => if is_digit d then Some (drop_while is_digit s) else None
  | EmptyString => None
  end.

Definition json_number (s : string) : option string :=
  let s :=
    match s with
    | String "-" r => r
    | _ => s
    end in
  let int :=
    match s with
    | String "0" r => Some r
    | _ => json_digits1 s
    end in
  match int with
  | None => None
  | Some s =>
      let frac :=
        match s with
        | String "." r => json_digits1 r
        | _ => Some s
        end in
      match frac with
      | None => None
      | Some s =>
          match s with
          | String e r =>
              if one_of "eE" e then
                json_digits1 (match r with
                              | String sign r' =>
                                  if one_of "+-" sign then r' else r
                              | EmptyString => r
                              end)
              else Some s
          | EmptyString => Some s
          end
      end
  end.

Definition after_literal (lit s : string) : option string :=
  if prefix lit s then Some (Base64Parser.drop (String.length lit) s)
  else None.

(** One JSON value at the head of the string: what follows it. *)
Fixpoint json_value (fuel : nat) (s : string) : option string :=
  match fuel with
  | O => None
  | S fuel' =>
      match skip_ws s with
      | String "{" r =>
          match skip_ws r with
          | String "}" r' => Some r'
          | r' => json_members fuel' r'
          end
      | String "[" r =>
          match skip_ws r with
          | String "]" r' => Some r'
          | r' => json_elements fuel' r'
          end
      | String "t" _ as s' => after_literal "true" s'
      | String "f" _ as s' => after_literal "false" s'
      | String "n" _ as s' => after_literal "null" s'
      | String a r as s' =>
          if (code a =? 34)%N then json_string_body r else json_number s'
      | EmptyString => None
      end
  end
with json_members (fuel : nat) (s : string) : option string :=
  match fuel with
  | O => None
  | S fuel' =>
      match skip_ws s with
      | String q r =>
          if (code q =? 34)%N then
            match json_string_body r with
            | Some r1 =>
                match skip_ws r1 with
                | String ":" r2 =>
                    match json_value fuel' r2 with
                    | Some r3 =>
                        match skip_ws r3 with
                        | String "," r4 => json_members fuel' r4
                        | String "}" r4 => Some r4
                        | _ => None
                        end
                    | None => None
                    end
                | _ => None
                end
            | None => None
            end
          else None
      | EmptyString => None
      end
  end
with json_elements (fuel : nat) (s : string) : option string :=
  match fuel with
  | O => None
  | S fuel' =>
      match json_value fuel' s with
      | Some r =>
          match skip_ws r with
          | String "," r' => json_elements fuel' r'
          | String "]" r' => Some r'
          | _ => None
          end
      | None => None
      end
  end.

Definition JSON_parses (raw : string) : bool :=
  match json_value (2 * String.length raw + 2) raw with
  | Some r => String.eqb (skip_ws r) ""
  | None => false
  end.

(** *** [atob] *)

Fixpoint index_of (a : ascii) (s : string) (i : N) : option N :=
  match s with
  | EmptyString => None
  | String b r => if Ascii.eqb a b then Some i else index_of a r (i + 1)%N
  end.

Fixpoint sextets (s : string) : option (list N) :=
  match s with
  | EmptyString => Some []
  | String a r =>
      match index_of a b64_alphabet 0, sextets r with
      | Some v, Some vs => Some (v :: vs)
      | _, _ => None
      end
  end.

Definition byte_str (n : N) : string :=
  String (ascii_of_N (n mod 256)) EmptyString.

Fixpoint octets (l : list N) : string :=
  match l with
  | a :: b :: c :: d :: r =>
      (byte_str (a * 4 + b / 16) ++ byte_str ((b mod 16) * 16 + c / 4)
       ++ byte_str ((c mod 4) * 64 + d) ++ octets r)%N
  | [a; b; c] =>
      (byte_str (a * 4 + b / 16) ++ byte_str ((b mod 16) * 16 + c / 4))%N
  | [a; b] => (byte_str (a * 4 + b / 16))%N
  | _ => EmptyString
  end.

(** The forgiving base64 decoder behind [atob]; [None] when it throws.
    Its input here holds no white space.  ([detectFormat] prefers the
    global [atob] to [Buffer]; the runtimes the pipeline targets have
    it.) *)
Definition atob (data : string) : option string :=
  let data :=
    if (String.length data mod 4 =? 0)%nat then
      match rev data with
      | String "=" (String "=" r) => rev r
      | String "=" r => rev r
      | _ => data
      end
    else data in
  if (String.length data mod 4 =? 1)%nat then None
  else option_map octets (sextets data).

(** *** detectFormat *)

Inductive format : Type := base64 | json | yaml | plain.

Definition schemes : list string :=
  ["vmess"; "ss"; "ssr"; "trojan"; "hysteria2"; "vless"].

(** A character that is not white space stands at the head of [s]. *)
Definition non_white_here (s : string) : bool :=
  match s with
  | EmptyString => false
  | _ => match skip_white1 s with
         | Some _ => false
         | None => true
         end
  end.

(** [/(vmess|ss|ssr|trojan|hysteria2|vless):\/\/[^\s]+/] matches
    somewhere in [s]. *)
Fixpoint has_protocol_url (s : string) : bool :=
  existsb (fun scheme =>
             let p := scheme ++ "://" in
             prefix p s
             && non_white_here (Base64Parser.drop (String.length p) s))
          schemes
  ||
  match s with
  | EmptyString => false
  | String _ r => has_protocol_url r
  end.

(** [raw.replace(/[\s\r\n]/g, '')]. *)
Fixpoint remove_white (fuel : nat) (s : string) : string :=
  match fuel with
  | O => s
  | S fuel' =>
      match skip_white1 s with
      | Some r => remove_white fuel' r
      | None =>
          match s with
          | EmptyString => EmptyString
          | String a r => String a (remove_white fuel' r)
          end
      end
  end.

Definition detectFormat (raw : string) : format :=
  if includes "proxies:" raw
     && (includes "rules:" raw || includes "proxy-groups:" raw)
     || includes "port: " raw && includes "mode: " raw
        && includes "proxies:" raw
     || includes "- name:" raw && includes "server:" raw
        && includes "port:" raw && includes "type:" raw
  then yaml
  else if JSON_parses raw then json
  else if has_protocol_url raw then plain
  else
    let cleanedRaw := remove_white (String.length raw) raw in
    let decoded :=
      if negb (String.eqb cleanedRaw "")
         && all_chars PlainTextParser.base64_char cleanedRaw
      then atob cleanedRaw else None in
    match decoded with
    | Some decoded =>
        if negb (String.eqb decoded "")
           && existsb (fun scheme => includes (scheme ++ "://") decoded)
                      schemes
        then base64
        else yaml
    | None => yaml
    end.

(** *** normalize *)

(** The sources of [generateId()] and of [new Date().toISOString()],
    one value per node that is kept. *)
Record environment : Type := mkEnvironment {
  generateId : nat -> string;
  now : nat -> string
}.

Definition isValid (node : jsval) : bool :=
  truthy node && truthy (opt_member node "type")
  && truthy (opt_member node "server") && truthy (opt_member node "port").

(** [{...(node.extra || {})}]: the properties of the [extra] object.
    (A string spreads into its characters; the decoders store an object
    under [extra], and a string there is outside the model.) *)
Definition spread (v : jsval) : list (string * jsval) :=
  match v with
  | JObj ps => ps
  | _ => []
  end.

(** [`${node.type}-${node.server}:${node.port}`]. *)
Definition default_name (node : jsval) : result string :=
  type <- to_string (opt_member node "type") ;;
  server <- to_string (opt_member node "server") ;;
  port <- to_string (opt_member node "port") ;;
  Ok (type ++ "-" ++ server ++ ":" ++ port).

(** The [map] callback: it throws when the default name or the port
    cannot be computed. *)
Definition normalize_node (env : environment) (i : nat) (node : jsval)
  : result jsval :=
  let get := opt_member node in
  name <- (if truthy (get "name") then Ok (get "name")
           else text <- default_name node ;; Ok (JStr text)) ;;
  port <- parseInt (get "port") ;;
  Ok (JObj [
    ("id", or_else (get "id") (JStr (generateId env i)));
    ("type", get "type");
    ("name", name);
    ("server", get "server");
    ("port", port);
    ("protocol", get "protocol");
    ("settings", or_else (get "settings") (JObj []));
    ("extra",
     JObj (NodeExtra.set "addedAt" (JStr (now env i))
                         (spread (or_else (get "extra") (JObj [])))))
  ]).

(** [array.map((x, i) => f(i, x))] with a callback that may throw. *)
Fixpoint mapM_indexed {A B} (f : nat -> A -> result B) (i : nat)
         (l : list A) : result (list B) :=
  match l with
  | [] => Ok []
  | a :: l' =>
      b <- f i a ;; bs <- mapM_indexed f (S i) l' ;; Ok (b :: bs)
  end.

Definition normalize (env : environment) (nodes : list jsval)
  : result (list jsval) :=
  mapM_indexed (normalize_node env) 0 (filter isValid nodes).

(** *** parse *)

(** [this.parsers]: one parser per format. *)
Record parsers : Type := mkParsers {
  base64_parser : string -> result (list jsval);
  json_parser : string -> result (list jsval);
  yaml_parser : string -> result (list jsval);
  plain_parser : string -> result (list jsval)
}.

Definition parser_of (p : parsers) (f : format)
  : string -> result (list jsval) :=
  match f with
  | base64 => base64_parser p
  | json => json_parser p
  | yaml => yaml_parser p
  | plain => plain_parser p
  end.

Definition same_format (f g : format) : bool :=
  match f, g with
  | base64, base64 | json, json | yaml, yaml | plain, plain => true
  | _, _ => false
  end.

(** One attempt, the body of a [try]: the parser is run and its nodes
    are normalised. *)
Definition attempt (p : parsers) (env : environment) (f : format)
           (raw : string) : result (list jsval) :=
  nodes <- parser_of p f raw ;;
  normalize env nodes.

(** The backup parsers, tried in the order of the table; every failure
    of a backup is swallowed, and when all have failed the first error
    is wrapped and thrown. *)
Fixpoint backup (p : parsers) (env : environment) (raw : string)
         (detected : format) (first : exn) (candidates : list format)
  : result (list jsval) :=
  match candidates with
  | [] => Throw (ParseFailure first)
  | backupFormat :: rest =>
      if same_format backupFormat detected
      then backup p env raw detected first rest
      else
        match attempt p env backupFormat raw with
        | Ok nodes => Ok nodes
        | Throw _ => backup p env raw detected first rest
        end
  end.

Definition parse (p : parsers) (env : environment) (raw : string)
  : result (list jsval) :=
  if String.eqb raw "" then
    Throw (Error "Invalid subscription data: empty or not a string")
  else
    let format := detectFormat raw in
    match attempt p env format raw with
    | Ok nodes => Ok nodes
    | Throw error =>
        backup p env raw format error [base64; json; yaml; plain]
    end.

(** The subscription parser as its constructor builds it, given the
    three parsers that rest on the platform's readers. *)
Definition built (d : PlainTextParser.decoders)
           (b64 js ym : string -> result (list jsval)) : parsers :=
  mkParsers b64 js ym (fun raw => Ok (PlainTextParser.parse d raw)).

(** The canonical-node invariant, in the words of the specification's
    data model: a non-empty server, a port in 1..65535 and a protocol of
    the known set. *)
Definition known_protocols : list string :=
  ["vmess"; "vless"; "shadowsocks"; "shadowsocksr"; "trojan";
   "hysteria2"; "http"; "https"; "socks5"].

Definition canonical (node : jsval) : Prop :=
  (exists server, opt_member node "server" = JStr server /\ server <> "")
  /\ (exists port, opt_member node "port" = JNum port
                   /\ 1 <= port <= 65535)
  /\ (exists protocol, opt_member node "protocol" = JStr protocol
                       /\ In protocol known_protocols).

End SubscriptionParser.

Module ParserExamples.

Import SubscriptionParser.

(** The trojan scenario of the specification. *)
Definition trojan_uri : string :=
  "trojan://p@ss%21@host.example:443?sni=h.example#My%20Node".

(** A one-line subscription holding a VLESS URI. *)
Definition vless_uri : string :=
  "vless://uuid@host.example:8443?security=tls#n".

(** A JSON subscription and the candidate node that the JSON container
    decoder builds for its single record ([normalizeVmess]). *)
Definition big_port_json : string :=
  "[{" ++ dquote ++ "type" ++ dquote ++ ":" ++ dquote ++ "vmess" ++ dquote
  ++ "," ++ dquote ++ "server" ++ dquote ++ ":" ++ dquote ++ "1.1.1.1"
  ++ dquote ++ "," ++ dquote ++ "port" ++ dquote ++ ":70000,"
  ++ dquote ++ "uuid" ++ dquote ++ ":" ++ dquote ++ "abc" ++ dquote ++ "}]".

Definition big_port_candidate : jsval :=
  JObj [("type", JStr "vmess"); ("name", JStr "");
        ("server", JStr "1.1.1.1"); ("port", JNum 70000);
        ("protocol", JStr "vmess");
        ("settings", JObj [("id", JStr "abc"); ("alterId", JNum 0);
                           ("security", JStr "auto");
                           ("network", JStr "tcp"); ("wsPath", JStr "");
                           ("wsHeaders", JObj []); ("tls", JBool false);
                           ("serverName", JStr "")]);
        ("extra", JObj [("raw", JObj [("type", JStr "vmess");
                                      ("server", JStr "1.1.1.1");
                                      ("port", JNum 70000);
                                      ("uuid", JStr "abc")])])].

(** [JsonParser.normalizeVmess] of a record, given its server, its
    name and its port. *)
Definition json_vmess (name server : jsval) (port : Z) (raw : jsval)
  : jsval :=
  JObj [("type", JStr "vmess"); ("name", name);
        ("server", server); ("port", JNum port);
        ("protocol", JStr "vmess");
        ("settings", JObj [("id", JStr "abc"); ("alterId", JNum 0);
                           ("security", JStr "auto");
                           ("network", JStr "tcp"); ("wsPath", JStr "");
                           ("wsHeaders", JObj []); ("tls", JBool false);
                           ("serverName", JStr "")]);
        ("extra", JObj [("raw", raw)])].

(** A JSON subscription whose record gives a number for the server,
    and the candidate built for it. *)
Definition numeric_server_json : string :=
  "[{" ++ dquote ++ "type" ++ dquote ++ ":" ++ dquote ++ "vmess" ++ dquote
  ++ "," ++ dquote ++ "server" ++ dquote ++ ":5,"
  ++ dquote ++ "port" ++ dquote ++ ":443,"
  ++ dquote ++ "uuid" ++ dquote ++ ":" ++ dquote ++ "abc" ++ dquote ++ "}]".

Definition numeric_server_candidate : jsval :=
  json_vmess (JStr "") (JNum 5) 443
             (JObj [("type", JStr "vmess"); ("server", JNum 5);
                    ("port", JNum 443); ("uuid", JStr "abc")]).

(** A JSON subscription with two records, the second of which gives for
    its server an object that cannot be converted to a string, and the
    candidates built for them. *)
Definition opaque : jsval := JObj [("toString", JNum 0)].

Definition opaque_server_json : string :=
  "[{" ++ dquote ++ "type" ++ dquote ++ ":" ++ dquote ++ "vmess" ++ dquote
  ++ "," ++ dquote ++ "name" ++ dquote ++ ":" ++ dquote ++ "good" ++ dquote
  ++ "," ++ dquote ++ "server" ++ dquote ++ ":" ++ dquote ++ "1.1.1.1"
  ++ dquote ++ "," ++ dquote ++ "port" ++ dquote ++ ":443,"
  ++ dquote ++ "uuid" ++ dquote ++ ":" ++ dquote ++ "abc" ++ dquote ++ "},{"
  ++ dquote ++ "type" ++ dquote ++ ":" ++ dquote ++ "vmess" ++ dquote
  ++ "," ++ dquote ++ "server" ++ dquote ++ ":{" ++ dquote ++ "toString"
  ++ dquote ++ ":0},"
  ++ dquote ++ "port" ++ dquote ++ ":443,"
  ++ dquote ++ "uuid" ++ dquote ++ ":" ++ dquote ++ "abc" ++ dquote ++ "}]".

Definition good_candidate : jsval :=
  json_vmess (JStr "good") (JStr "1.1.1.1") 443
             (JObj [("type", JStr "vmess"); ("name", JStr "good");
                    ("server", JStr "1.1.1.1");
                    ("port", JNum 443); ("uuid", JStr "abc")]).

Definition opaque_server_candidate : jsval :=
  json_vmess (JStr "") opaque 443
             (JObj [("type", JStr "vmess"); ("server", opaque);
                    ("port", JNum 443); ("uuid", JStr "abc")]).

(** A list of two URI lines, the second a SOCKS one. *)
Definition socks_list : string :=
  "trojan://pw@h.example:443#a" ++ String (ascii_of_nat 10) ""
  ++ "socks://s.example:1080#b".

Definition env0 : environment :=
  mkEnvironment (fun _ => "k3j9x0q2a") (fun _ => "2025-01-01T00:00:00.000Z").

End ParserExamples.

(** ** NodeDeduplicator *)

Module NodeDeduplicator.

(** A JavaScript [Map] with string keys: an association list in
    insertion order.  [set] on a key already present overwrites the
    value and keeps the key's position. *)
Definition jsmap := list (string * jsval).

Fixpoint map_get (k : string) (m : jsmap) : jsval :=
  match m with
  | [] => JUndef
  | (k', v) :: m' => if String.eqb k k' then v else map_get k m'
  end.

Fixpoint map_set (k : string) (v : jsval) (m : jsmap) : jsmap :=
  match m with
  | [] => [(k, v)]
  | (k', v') :: m' =>
      if String.eqb k k' then (k', v) :: m'
      else (k', v') :: map_set k v m'
  end.

Definition map_values (m : jsmap) : list jsval := map snd m.

Record options : Type := mkOptions {
  compareFields : list string;
  preferLower : bool
}.

(** The destructuring defaults of [deduplicate(nodes, options = {})]. *)
Definition default_options : options :=
  mkOptions ["server"; "port"; "protocol"] true.

(** [field.split('.').reduce((obj, key) => obj?.[key], node)]. *)
Definition value_at (node : jsval) (field : string) : jsval :=
  fold_left (fun obj key => opt_member obj key) (split_char "." field) node.

(** The template literal throws when the value cannot be converted to a
    string. *)
Definition generateKey (node : jsval) (fields : list string)
  : result string :=
  parts <- mapM (fun field =>
                   text <- to_string (value_at node field) ;;
                   Ok (field ++ ":" ++ text))
                fields ;;
  Ok (String.concat "|" parts).

(** One iteration of the loop over [nodes]. *)
Definition dedup_step (o : options) (uniqueNodes : jsmap) (node : jsval)
  : result jsmap :=
  key <- generateKey node (compareFields o) ;;
  let existingNode := map_get key uniqueNodes in
  if negb (truthy existingNode) then Ok (map_set key node uniqueNodes)
  else if negb (preferLower o) then Ok uniqueNodes
  else
    extra <- member node "extra" ;;
    latency <- member extra "latency" ;;
    if negb (truthy latency) then Ok uniqueNodes
    else
      extra' <- member existingNode "extra" ;;
      latency' <- member extra' "latency" ;;
      if negb (truthy latency') then Ok uniqueNodes
      else
        lower <- JS.lt latency latency' ;;
        if lower then Ok (map_set key node uniqueNodes)
        else Ok uniqueNodes.

Definition deduplicate (nodes : list jsval) (o : options)
  : result (list jsval) :=
  uniqueNodes <- foldM (dedup_step o) nodes [] ;;
  Ok (map_values uniqueNodes).

(** Vocabulary for the statements below. *)

(** [node.extra.latency], read leniently. *)
Definition latency_of (n : jsval) : jsval :=
  opt_member (opt_member n "extra") "latency".

(** The node is an object carrying an [extra] record. *)
Definition has_extra (n : jsval) : Prop :=
  exists ps es, n = JObj ps /\ assoc "extra" ps = JObj es.

(** The node is an object without an [extra] property. *)
Definition lacks_extra (n : jsval) : Prop :=
  exists ps, n = JObj ps /\ assoc "extra" ps = JUndef.

(** Every compared value of the node can be converted to a string:
    [generateKey] returns on the node. *)
Definition keyable (o : options) (n : jsval) : bool :=
  forallb (fun field => convertible (value_at n field)) (compareFields o).

(** The key of a node, as a text: what [generateKey] returns when it
    returns. *)
Definition key_of (o : options) (n : jsval) : string :=
  String.concat "|"
    (map (fun field => field ++ ":" ++ to_str (value_at n field))
         (compareFields o)).

(** Every entry of the map sits under the key of its own node. *)
Definition keyed_by (o : options) (m : jsmap) : Prop :=
  forall k v, In (k, v) m -> generateKey v (compareFields o) = Ok k.

(** The node of [out] that occupies [n]'s key, if any. *)
Definition incumbent (o : options) (n : jsval) (out : list jsval)
  : option jsval :=
  find (fun e => String.eqb (key_of o e) (key_of o n)) out.

(** The test that lets a newcomer take over an occupied key, on
    latencies that can be compared. *)
Definition lower_latency (o : options) (n e : jsval) : bool :=
  preferLower o && truthy (latency_of n) && truthy (latency_of e)
  && match JS.lt (latency_of n) (latency_of e) with
     | Ok lower => lower
     | Throw _ => false
     end.

(** [n] written over the entry of [out] that has [n]'s key. *)
Definition put_in_slot (o : options) (n : jsval) (out : list jsval)
  : list jsval :=
  map (fun e => if String.eqb (key_of o e) (key_of o n) then n else e) out.

(** The two nodes agree on [server], [port] and [protocol]. *)
Definition same_fingerprint (n1 n2 : jsval) : Prop :=
  opt_member n1 "server" = opt_member n2 "server" /\
  opt_member n1 "port" = opt_member n2 "port" /\
  opt_member n1 "protocol" = opt_member n2 "protocol".

Definition mem (k : string) (l : list string) : bool :=
  existsb (String.eqb k) l.

(** The keys of [l] that are not in [seen], each at its first
    occurrence and in order of occurrence. *)
Fixpoint first_keys (seen l : list string) : list string :=
  match l with
  | [] => []
  | k :: l' =>
      if mem k seen then first_keys seen l'
      else k :: first_keys (seen ++ [k]) l'
  end.

(** "The output is in insertion order of the surviving nodes", read on
    the nodes: any two output nodes occur in the input in the same
    order. *)
Definition in_arrival_order (input out : list jsval) : Prop :=
  forall i j x y,
    (i < j)%nat ->
    nth_error out i = Some x -> nth_error out j = Some y ->
    exists i' j',
      (i' < j')%nat /\
      nth_error input i' = Some x /\ nth_error input j' = Some y.

End NodeDeduplicator.

Module DedupExamples.
Import NodeDeduplicator.

Definition mk (server : string) (port : Z) (protocol : string)
           (extra : jsval) : jsval :=
  JObj [("server", JStr server); ("port", JNum port);
        ("protocol", JStr protocol); ("extra", extra)].

Definition lat (z : Z) : jsval := JObj [("latency", JNum z)].

(** The two nodes of the base64-envelope scenario. *)
Definition vmess_node : jsval := mk "1.1.1.1" 443 "vmess" (JObj []).
Definition ss_node : jsval := mk "1.1.1.1" 443 "shadowsocks" (JObj []).

(** Three arrivals, the third colliding with the first. *)
Definition slow_a : jsval := mk "a.example" 443 "trojan" (lat 100).
Definition other_b : jsval := mk "b.example" 443 "trojan" (JObj []).
Definition fast_a : jsval := mk "a.example" 443 "trojan" (lat 50).

(** A node object that has no [extra] property. *)
Definition bare_a : jsval :=
  JObj [("server", JStr "a.example"); ("port", JNum 443);
        ("protocol", JStr "trojan")].

(** A node with an [extra] record and, for its server, an object that
    cannot be converted to a string (the JSON text [{"toString": 0}]). *)
Definition opaque_server : jsval :=
  JObj [("server", ParserExamples.opaque); ("port", JNum 443);
        ("protocol", JStr "vmess"); ("extra", JObj [])].
End DedupExamples.

(** ** NodeTester *)

Module NodeTester.

(** How [checker.checkConnectivity] ends: it resolves to an object
    [{status, error}] or rejects with an error carrying a message. *)
Inductive check_outcome : Type :=
| Resolved (status error : jsval)
| Rejected (message : jsval).

(** What the location-verification block leaves behind: the locator's
    answer and the two properties it may set on the check result. *)
Record location_step : Type := mkLocation {
  locationInfo : jsval;
  needsLocationCorrection : jsval;
  actualLocation : jsval
}.

Definition no_location : location_step := mkLocation JNull JUndef JUndef.

(** Everything one run of [runTest] observes from outside: the two
    readings of [Date.now()], the check and the location step. *)
Record probe : Type := mkProbe {
  startTime : Z;
  endTime : Z;
  check : check_outcome;
  location : location_step
}.

Record test_result : Type := mkResult {
  r_node : jsval;
  r_status : string;
  r_latency : jsval;
  r_error : jsval;
  r_locationInfo : jsval;
  r_needsLocationCorrection : jsval;
  r_actualLocation : jsval
}.

Definition runTest (verifyLocation : bool) (node : jsval) (p : probe)
  : test_result :=
  match check p with
  | Resolved status error =>
      let latency := endTime p - startTime p in
      let loc :=
        if truthy status && verifyLocation then location p
        else no_location in
      let finalStatus := "down" in
      let finalLatency := JNull in
      let finalError := or_else error JNull in
      let '(finalStatus, finalLatency, finalError) :=
        if truthy status then
          if latency <? 1000 then ("up", JNum latency, finalError)
          else ("down", JNull,
                JStr ("延迟过高 (" ++ string_of_Z latency ++ "ms)"))
        else (finalStatus, finalLatency, finalError) in
      mkResult node finalStatus finalLatency finalError
               (locationInfo loc)
               (or_else (needsLocationCorrection loc) (JBool false))
               (or_else (actualLocation loc) JNull)
  | Rejected message =>
      mkResult node "down" JNull message JNull JUndef JUndef
  end.

(** [testNodes]: every truthy entry of the queue is tested once and its
    result pushed.  The workers only interleave these runs, so the
    result list is given here in queue order; it may be permuted. *)
Definition testNodes (verifyLocation : bool) (queue : list (jsval * probe))
  : list test_result :=
  map (fun np => runTest verifyLocation (fst np) (snd np))
      (filter (fun np => truthy (fst np)) queue).

End NodeTester.

(** ** The per-group URI list files ([generateGroupedNodeFiles]) *)

Module GroupFiles.

(** A property read on a value already known not to be [undefined] or
    [null]. *)
Local Notation "v .[ k ]" := (opt_member v k) (at level 1, format "v .[ k ]").

Definition nl : string := String (ascii_of_nat 10) EmptyString.

Definition region_filename (name : string) : string :=
  if String.eqb name "香港" then "HK.txt"
  else if String.eqb name "台湾" then "TW.txt"
  else if String.eqb name "新加坡" then "SG.txt"
  else if String.eqb name "美国" then "US.txt"
  else if String.eqb name "日本" then "JP.txt"
  else if String.eqb name "其他" then "Others.txt"
  else name ++ ".txt".

Definition region_prefix (name : string) : string :=
  if String.eqb name "香港" then "🇭🇰 香港 "
  else if String.eqb name "台湾" then "🇹🇼 台湾 "
  else if String.eqb name "新加坡" then "🇸🇬 新加坡 "
  else if String.eqb name "美国" then "🇺🇸 美国 "
  else if String.eqb name "日本" then "🇯🇵 日本 "
  else if String.eqb name "其他" then "🌍 其他 "
  else "".

(** The test guarding the reuse of the original URI:
    [node.extra?.raw && typeof node.extra.raw === 'string' &&
     node.extra.raw.trim().length > 0]. *)
Definition reusable (raw : jsval) : bool :=
  truthy raw && is_string raw && negb (all_white (to_str raw)).

(** [parseInt(node.port) || 443]. *)
Definition port_or_443 (node : jsval) : result jsval :=
  port <- parseInt node.["port"] ;;
  Ok (or_else port (JNum 443)).

(** [Buffer.from(v)] for the text of a string.  Any other primitive
    makes it throw; objects posing as array-likes, which it accepts, are
    outside the model. *)
Definition buffer_from (v : jsval) : result string :=
  match v with
  | JStr s => Ok s
  | _ => Throw TypeError
  end.

(** The SSR branch, the body of its [try]. *)
Definition synthesize_ssr (nodeName node : jsval) : result string :=
  let settings := node.["settings"] in
  port <- port_or_443 node ;;
  server <- to_string node.["server"] ;;
  protocol <- to_string (or_else settings.["protocol"] (JStr "origin")) ;;
  method <- to_string (or_else settings.["method"] (JStr "aes-256-cfb")) ;;
  obfs <- to_string (or_else settings.["obfs"] (JStr "plain")) ;;
  password <- buffer_from (or_else settings.["password"] (JStr "")) ;;
  let base64Params :=
    base64_encode (server ++ ":" ++ to_str port ++ ":" ++ protocol ++ ":"
                   ++ method ++ ":" ++ obfs ++ ":"
                   ++ base64_encode password) in
  remarks <- buffer_from nodeName ;;
  Ok ("ssr://" ++ base64Params ++ "/?remarks=" ++ base64_encode remarks).

(** The URI built from the node's fields; [''] when none can be.  The
    conversions of the template literals and of [parseInt] can throw;
    only the SSR branch catches what it throws, and returns ['']. *)
Definition synthesize (nodeName node : jsval) : result string :=
  let settings := node.["settings"] in
  if is_str node.["type"] "vmess" && truthy settings.["id"] then
    port <- port_or_443 node ;;
    aid <- parseInt settings.["alterId"] ;;
    let vmessInfo := JObj [
      ("v", JStr "2");
      ("ps", nodeName);
      ("add", node.["server"]);
      ("port", port);
      ("id", settings.["id"]);
      ("aid", or_else aid (JNum 0));
      ("net", or_else settings.["network"] (JStr "tcp"));
      ("type", JStr "none");
      ("host", or_else (and_then settings.["wsHeaders"]
                                 settings.["wsHeaders"].["Host"])
                       (JStr ""));
      ("path", or_else settings.["wsPath"] (JStr "/"));
      ("tls", JStr (if truthy settings.["tls"] then "tls" else "none"))
    ] in
    match json_stringify vmessInfo with
    | Some json => Ok ("vmess://" ++ base64_encode json)
    | None => Ok "" (* unreachable: an object always has a JSON text *)
    end
  else if is_str node.["type"] "ss" && truthy settings.["method"]
          && truthy settings.["password"] then
    method <- to_string settings.["method"] ;;
    password <- to_string settings.["password"] ;;
    let userInfo := method ++ ":" ++ password in
    server <- to_string node.["server"] ;;
    port <- port_or_443 node ;;
    name <- to_string nodeName ;;
    Ok ("ss://" ++ base64_encode userInfo ++ "@" ++ server
        ++ ":" ++ to_str port
        ++ "#" ++ encodeURIComponent name)
  else if is_str node.["type"] "trojan" && truthy settings.["password"] then
    password <- to_string settings.["password"] ;;
    server <- to_string node.["server"] ;;
    port <- port_or_443 node ;;
    sni <- to_string (or_else settings.["sni"] (JStr "")) ;;
    name <- to_string nodeName ;;
    Ok ("trojan://" ++ password ++ "@"
        ++ server ++ ":" ++ to_str port
        ++ "?sni=" ++ sni
        ++ "&allowInsecure="
        ++ (if truthy settings.["allowInsecure"] then "1" else "0")
        ++ "#" ++ encodeURIComponent name)
  else if is_str node.["type"] "ssr" && truthy settings then
    match synthesize_ssr nodeName node with
    | Ok uri => Ok uri
    | Throw _ => Ok ""
    end
  else
    (* the warning names the node and its type *)
    _ <- to_string node.["name"] ;;
    _ <- to_string node.["type"] ;;
    Ok "".

(** The [map] callback of a region group.  The reuse of the original
    URI is logged with the name of the node. *)
Definition region_line (groupName : string) (node : jsval)
  : result string :=
  extra <- member node "extra" ;;
  let raw := opt_member extra "raw" in
  if reusable raw then
    _ <- to_string node.["name"] ;;
    Ok (to_str raw)
  else
    match node.["name"] with
    | JStr name =>
        let nodeName :=
          if includes groupName name then name
          else region_prefix groupName ++ name in
        synthesize (JStr nodeName) node
    | _ => Throw TypeError
    end.

(** The [map] callback of an application group. *)
Definition media_line (node : jsval) : result string :=
  extra <- member node "extra" ;;
  let raw := opt_member extra "raw" in
  if reusable raw then Ok (to_str raw)
  else synthesize (or_else node.["name"] (JStr "Unnamed Node")) node.

(** The lines kept for a file: empty and blank ones are filtered out. *)
Definition kept (lines : list string) : list string :=
  filter (fun raw => negb (all_white raw)) lines.

Definition region_lines (groupName : string) (nodes : list jsval)
  : result (list string) :=
  lines <- mapM (region_line groupName) nodes ;; Ok (kept lines).

Definition media_lines (nodes : list jsval) : result (list string) :=
  lines <- mapM media_line nodes ;; Ok (kept lines).

(** The file written for a region group, as [(filename, content)];
    [None] when the group is empty or is the skipped group. *)
Definition region_file (groupName : string) (nodes : list jsval)
  : result (option (string * string)) :=
  match nodes with
  | [] => Ok None
  | _ =>
      if String.eqb groupName "其他" then Ok None
      else
        lines <- region_lines groupName nodes ;;
        Ok (Some (region_filename groupName, String.concat nl lines))
  end.

End GroupFiles.

Module GroupFilesExamples.

(** A trojan node as the YAML and JSON container decoders build it:
    [extra.raw] holds the source record, an object. *)
Definition yaml_trojan : jsval :=
  JObj [("type", JStr "trojan"); ("name", JStr "n1");
        ("server", JStr "h.example"); ("port", JNum 443);
        ("protocol", JStr "trojan");
        ("settings", JObj [("password", JStr "pw"); ("sni", JStr "");
                           ("allowInsecure", JBool false)]);
        ("extra", JObj [("raw", JObj [("name", JStr "n1");
                                      ("type", JStr "trojan");
                                      ("server", JStr "h.example");
                                      ("port", JNum 443);
                                      ("password", JStr "pw")])])].

(** The same with a name that the group manager files under 香港. *)
Definition hk_trojan : jsval :=
  JObj [("type", JStr "trojan"); ("name", JStr "HK 01");
        ("server", JStr "h.example"); ("port", JNum 443);
        ("protocol", JStr "trojan");
        ("settings", JObj [("password", JStr "pw"); ("sni", JStr "");
                           ("allowInsecure", JBool false)]);
        ("extra", JObj [("raw", JObj [("name", JStr "HK 01");
                                      ("type", JStr "trojan");
                                      ("server", JStr "h.example");
                                      ("port", JNum 443);
                                      ("password", JStr "pw")])])].

(** A vmess node with its settings and no preserved URI. *)
Definition vmess_settings : jsval :=
  JObj [("type", JStr "vmess"); ("server", JStr "h.example");
        ("port", JNum 443);
        ("settings", JObj [("id", JStr "u-1")])].

(** A node decoded from a URI line: [extra.raw] is that line. *)
Definition uri_ss : jsval :=
  JObj [("type", JStr "ss"); ("name", JStr "A");
        ("server", JStr "1.1.1.1"); ("port", JNum 443);
        ("protocol", JStr "shadowsocks");
        ("settings", JObj [("method", JStr "aes-256-gcm");
                           ("password", JStr "pass")]);
        ("extra",
         JObj [("raw", JStr "ss://YWVzLTI1Ni1nY206cGFzcw==@1.1.1.1:443#A")])].

End GroupFilesExamples.

(** ** NodeAnalyzer *)

Module NodeAnalyzer.

(** The default maps, in the order of their keys. *)
Definition countryMap : list (string * string) :=
  [
    ("🇺🇸", "US"); ("美国", "US"); ("United States", "US"); ("USA", "US");
    ("🇭🇰", "HK"); ("香港", "HK"); ("Hong Kong", "HK"); ("🇹🇼", "TW");
    ("台湾", "TW"); ("Taiwan", "TW"); ("🇯🇵", "JP"); ("日本", "JP");
    ("Japan", "JP"); ("🇸🇬", "SG"); ("新加坡", "SG"); ("Singapore", "SG");
    ("🇰🇷", "KR"); ("韩国", "KR"); ("Korea", "KR"); ("🇬🇧", "UK");
    ("英国", "UK"); ("United Kingdom", "UK"); ("🇩🇪", "DE"); ("德国", "DE");
    ("Germany", "DE"); ("🇫🇷", "FR"); ("法国", "FR"); ("France", "FR");
    ("🇮🇳", "IN"); ("印度", "IN"); ("India", "IN"); ("🇷🇺", "RU");
    ("俄罗斯", "RU"); ("Russia", "RU"); ("🇨🇦", "CA"); ("加拿大", "CA");
    ("Canada", "CA"); ("🇦🇺", "AU"); ("澳大利亚", "AU"); ("Australia", "AU");
    ("🇮🇹", "IT"); ("意大利", "IT"); ("Italy", "IT"); ("🇧🇷", "BR");
    ("巴西", "BR"); ("Brazil", "BR"); ("🇳🇱", "NL"); ("荷兰", "NL");
    ("Netherlands", "NL"); ("🇹🇷", "TR"); ("土耳其", "TR"); ("Turkey", "TR");
    ("🇮🇩", "ID"); ("印尼", "ID"); ("印度尼西亚", "ID"); ("Indonesia", "ID");
    ("🇻🇳", "VN"); ("越南", "VN"); ("Vietnam", "VN"); ("🇹🇭", "TH");
    ("泰国", "TH"); ("Thailand", "TH"); ("🇵🇭", "PH"); ("菲律宾", "PH");
    ("Philippines", "PH"); ("🇲🇾", "MY"); ("马来西亚", "MY");
    ("Malaysia", "MY"); ("🇦🇷", "AR"); ("阿根廷", "AR"); ("Argentina", "AR");
    ("🇲🇽", "MX"); ("墨西哥", "MX"); ("Mexico", "MX"); ("🇨🇱", "CL");
    ("智利", "CL"); ("Chile", "CL"); ("🇿🇦", "ZA"); ("南非", "ZA");
    ("South Africa", "ZA"); ("🇦🇪", "AE"); ("阿联酋", "AE");
    ("United Arab Emirates", "AE"); ("UAE", "AE"); ("🇮🇱", "IL");
    ("以色列", "IL"); ("Israel", "IL"); ("🇨🇭", "CH"); ("瑞士", "CH");
    ("Switzerland", "CH"); ("🇸🇪", "SE"); ("瑞典", "SE"); ("Sweden", "SE");
    ("🇳🇴", "NO"); ("挪威", "NO"); ("Norway", "NO"); ("🇫🇮", "FI");
    ("芬兰", "FI"); ("Finland", "FI"); ("🇩🇰", "DK"); ("丹麦", "DK");
    ("Denmark", "DK"); ("🇵🇱", "PL"); ("波兰", "PL"); ("Poland", "PL");
    ("🇭🇺", "HU"); ("匈牙利", "HU"); ("Hungary", "HU"); ("🇨🇿", "CZ");
    ("捷克", "CZ"); ("Czech Republic", "CZ"); ("🇦🇹", "AT"); ("奥地利", "AT");
    ("Austria", "AT"); ("🇮🇪", "IE"); ("爱尔兰", "IE"); ("Ireland", "IE");
    ("🇵🇹", "PT"); ("葡萄牙", "PT"); ("Portugal", "PT"); ("🇬🇷", "GR");
    ("希腊", "GR"); ("Greece", "GR"); ("🇪🇸", "ES"); ("西班牙", "ES");
    ("Spain", "ES"); ("🇧🇪", "BE"); ("比利时", "BE"); ("Belgium", "BE");
    ("🇱🇺", "LU"); ("卢森堡", "LU"); ("Luxembourg", "LU"); ("🇮🇸", "IS");
    ("冰岛", "IS"); ("Iceland", "IS"); ("🇲🇴", "MO"); ("澳门", "MO");
    ("Macao", "MO"); ("🇨🇳", "CN"); ("中国", "CN"); ("China", "CN")
  ].

Definition protocolMap : list (string * string) :=
  [
    ("vmess", "VMess"); ("vless", "VLESS"); ("trojan", "Trojan");
    ("ss", "Shadowsocks"); ("shadowsocks", "Shadowsocks");
    ("ssr", "ShadowsocksR"); ("shadowsocksr", "ShadowsocksR");
    ("http", "HTTP"); ("https", "HTTPS"); ("socks", "SOCKS");
    ("socks5", "SOCKS5"); ("wireguard", "WireGuard");
    ("wg", "WireGuard"); ("hysteria", "Hysteria");
    ("hysteria2", "Hysteria2"); ("hy2", "Hysteria2"); ("tuic", "TUIC");
    ("reality", "REALITY"); ("naive", "NaiveProxy")
  ].

(** The [switch] from country code to country name. *)
Definition countryNames : list (string * string) :=
  [
    ("US", "美国"); ("HK", "香港"); ("TW", "台湾"); ("JP", "日本");
    ("SG", "新加坡"); ("KR", "韩国"); ("UK", "英国"); ("DE", "德国");
    ("FR", "法国"); ("IN", "印度"); ("RU", "俄罗斯"); ("CA", "加拿大");
    ("AU", "澳大利亚"); ("IT", "意大利"); ("BR", "巴西"); ("NL", "荷兰");
    ("TR", "土耳其"); ("ID", "印度尼西亚"); ("VN", "越南"); ("TH", "泰国");
    ("PH", "菲律宾"); ("MY", "马来西亚"); ("AR", "阿根廷"); ("MX", "墨西哥");
    ("CL", "智利"); ("ZA", "南非"); ("AE", "阿联酋"); ("IL", "以色列");
    ("CH", "瑞士"); ("SE", "瑞典"); ("NO", "挪威"); ("FI", "芬兰"); ("DK", "丹麦");
    ("PL", "波兰"); ("HU", "匈牙利"); ("CZ", "捷克"); ("AT", "奥地利");
    ("IE", "爱尔兰"); ("PT", "葡萄牙"); ("GR", "希腊"); ("ES", "西班牙");
    ("BE", "比利时"); ("LU", "卢森堡"); ("IS", "冰岛"); ("MO", "澳门");
    ("CN", "中国")
  ].

(** [map[key]] on an object literal used as a table. *)
Fixpoint lookup (key : string) (table : list (string * string)) : jsval :=
  match table with
  | [] => JUndef
  | (k, v) :: table' =>
      if String.eqb key k then JStr v else lookup key table'
  end.

(** Letter case.  The keys of the maps are written with ASCII letters,
    ideographs and flag symbols; under the [i] flag a pattern letter
    matches a subject character with the same upper-case form, which
    for an ASCII letter is the other case of that letter and for the
    other characters is the character itself.  [toLowerCase] is applied
    to protocol names, which are ASCII. *)
Definition upper (a : ascii) : ascii :=
  let n := code a in
  if ((97 <=? n) && (n <=? 122))%N then ascii_of_N (n - 32) else a.

Definition lower (a : ascii) : ascii :=
  let n := code a in
  if ((65 <=? n) && (n <=? 90))%N then ascii_of_N (n + 32) else a.

Fixpoint toLowerCase (s : string) : string :=
  match s with
  | EmptyString => EmptyString
  | String a s' => String (lower a) (toLowerCase s')
  end.

(** The literal [p] matched at the start of [s], ignoring case: the
    text of [s] that it matches. *)
Fixpoint match_here (p s : string) : option string :=
  match p, s with
  | EmptyString, _ => Some EmptyString
  | String a p', String b s' =>
      if Ascii.eqb (upper a) (upper b) then
        option_map (String b) (match_here p' s')
      else None
  | String _ _, EmptyString => None
  end.

(** An alternation [(k1|k2|...)] at the start of [s]: the first
    alternative that matches wins. *)
Fixpoint alternation_here (keys : list string) (s : string)
  : option string :=
  match keys with
  | [] => None
  | k :: keys' =>
      match match_here k s with
      | Some m => Some m
      | None => alternation_here keys' s
      end
  end.

(** [s.match(new RegExp('(k1|k2|...)', 'i'))]: the leftmost position at
    which the alternation matches; the result is capture group 1.
    The keys hold no character that [buildCountryRegex] and
    [buildProtocolRegex] would have to escape. *)
Fixpoint regex_match (keys : list string) (s : string) : option string :=
  match alternation_here keys s with
  | Some m => Some m
  | None =>
      match s with
      | EmptyString => None
      | String _ s' => regex_match keys s'
      end
  end.

Definition countryRegex : list string := map fst countryMap.
Definition protocolRegex : list string := map fst protocolMap.

(** The part of the analysis result written by the country and
    protocol steps.  The later steps (number, tags, icons, categories)
    read the name and these fields, write other fields and cannot
    throw; they are left out. *)
Record analysis : Type := mkAnalysis {
  country : jsval;
  countryCode : jsval;
  protocol : jsval;
  originalName : jsval
}.

Definition analyze (node : jsval) : result analysis :=
  nodeName <- member node "name" ;;
  let originalName := or_else nodeName (JStr "") in
  match originalName with
  | JStr name =>
      let '(country, countryCode) :=
        match regex_match countryRegex name with
        | Some countryKey =>
            let countryCode := lookup countryKey countryMap in
            let country :=
              match countryCode with
              | JStr c => or_else (lookup c countryNames) (JStr countryKey)
              | _ => JStr countryKey
              end in
            (country, countryCode)
        | None => (JNull, JNull)
        end in
      protocol <-
        match regex_match protocolRegex name with
        | Some protocolMatch =>
            Ok (lookup (toLowerCase protocolMatch) protocolMap)
        | None =>
            let p := opt_member node "protocol" in
            if truthy p then
              match p with
              | JStr s =>
                  Ok (or_else (lookup (toLowerCase s) protocolMap) p)
              | _ => Throw TypeError
              end
            else Ok JNull
        end ;;
      Ok (mkAnalysis country countryCode protocol originalName)
  | _ => Throw TypeError
  end.

Definition countryCode_of_result (r : result analysis) : option jsval :=
  match r with
  | Ok a => Some (countryCode a)
  | Throw _ => None
  end.

(** No country key matches at a position inside [pre] when the name is
    [pre ++ rest]. *)
Fixpoint no_match_within (keys : list string) (pre rest : string) : bool :=
  match pre with
  | EmptyString => true
  | String a pre' =>
      match alternation_here keys (pre ++ rest) with
      | Some _ => false
      | None => no_match_within keys pre' rest
      end
  end.

End NodeAnalyzer.

Module NodeAnalyzerExamples.

Definition named (name : string) : jsval :=
  JObj [("name", JStr name); ("protocol", JStr "vmess")].

End NodeAnalyzerExamples.

(** ** Reference behaviour of the deduplicator *)

Module DedupSpec.

Import NodeDeduplicator.

(** The nodes of [l] whose key is neither in [seen] nor carried by an
    earlier node of [l]: the first node of every key. *)
Fixpoint first_per_key (o : options) (seen : list string) (l : list jsval)
  : list jsval :=
  match l with
  | [] => []
  | n :: l' =>
      if mem (key_of o n) seen then first_per_key o seen l'
      else n :: first_per_key o (seen ++ [key_of o n]) l'
  end.

(** The collision policy in the words of the amended claim, run over
    the input with [out] the nodes kept so far: a node on a fresh key
    is appended; a node on an occupied key takes over the slot of the
    incumbent when the latency test says so, and is dropped
    otherwise. *)
Definition policy_step (o : options) (out : list jsval) (n : jsval)
  : list jsval :=
  match incumbent o n out with
  | None => (out ++ [n])%list
  | Some e => if lower_latency o n e then put_in_slot o n out else out
  end.

Definition by_policy (o : options) (l : list jsval) : list jsval :=
  fold_left (policy_step o) l [].

(** The node carries the measured latency [z] under [extra.latency];
    a latency of zero reads as no latency at all. *)
Definition timed (n : jsval) (z : Z) : Prop :=
  has_extra n /\ latency_of n = JNum z /\ z <> 0.

(** The invariant of the loop under the latency policy, [done] being
    the nodes consumed so far: every entry sits under its own key, keys
    are distinct, every entry is timed and no slower than any consumed
    node of its key, and every consumed node has its key in the map. *)
Definition lat_inv (o : options) (m : jsmap) (done : list jsval) : Prop :=
  keyed_by o m /\ NoDup (map fst m) /\
  (forall k e, In (k, e) m -> exists z, timed e z) /\
  (forall k e n ze zn,
      In (k, e) m -> In n done -> key_of o n = k ->
      timed e ze -> timed n zn -> ze <= zn) /\
  (forall n, In n done -> In (key_of o n) (map fst m)).

End DedupSpec.

(** ** The categories of an analysis ([NodeAnalyzer.categorizeNode]) *)

Module NodeCategories.

(** [analysis.country || 'Unknown'] and [analysis.protocol || 'Unknown'],
    the two categories that rest on the country and protocol steps. *)
Definition region (a : NodeAnalyzer.analysis) : jsval :=
  or_else (NodeAnalyzer.country a) (JStr "Unknown").

Definition protocol (a : NodeAnalyzer.analysis) : jsval :=
  or_else (NodeAnalyzer.protocol a) (JStr "Unknown").

End NodeCategories.

(** ** GroupManager: the region and application groups *)

Module GroupManager.

(** A group as the writers of the group files read it; its icon is left
    out. *)
Record group : Type := mkGroup {
  name : string;
  nodes : list jsval
}.

(** An object literal used as a table of groups, in the order of its
    keys. *)
Definition table : Type := list (string * group).

Definition regionMap : table :=
  [("HK", mkGroup "香港" []); ("TW", mkGroup "台湾" []);
   ("SG", mkGroup "新加坡" []); ("US", mkGroup "美国" []);
   ("JP", mkGroup "日本" []); ("OTHER", mkGroup "其他" [])].

Definition mediaMap : table :=
  [("OpenAI", mkGroup "OpenAI" []); ("Disney+", mkGroup "Disney+" []);
   ("Netflix", mkGroup "Netflix" []); ("YouTube", mkGroup "YouTube" []);
   ("Hulu", mkGroup "Hulu" []); ("HBO", mkGroup "HBO" []);
   ("AmazonPrime", mkGroup "Amazon Prime" []); ("BBC", mkGroup "BBC" []);
   ("Emby", mkGroup "Emby" []); ("Spotify", mkGroup "Spotify" []);
   ("Bilibili", mkGroup "Bilibili" [])].

(** [map[key]] is defined. *)
Definition has_key (key : string) (t : table) : bool :=
  existsb (fun kg => String.eqb (fst kg) key) t.

(** [map[key].nodes.push(node)]. *)
Fixpoint push (key : string) (node : jsval) (t : table) : table :=
  match t with
  | [] => []
  | (k, g) :: t' =>
      if String.eqb k key
      then (k, mkGroup (name g) (nodes g ++ [node])) :: t'
      else (k, g) :: push key node t'
  end.

(** [toUpperCase], on the ASCII letters.  The other characters that the
    names of nodes are written with (digits, punctuation, ideographs,
    flag symbols) have no upper-case form of their own; the few
    non-ASCII letters whose upper-case form is spelt with ASCII letters
    are outside the model. *)
Fixpoint toUpperCase (s : string) : string :=
  match s with
  | EmptyString => EmptyString
  | String a r => String (NodeAnalyzer.upper a) (toUpperCase r)
  end.

(** [(node.name || '').toUpperCase()], on a node that is neither
    [undefined] nor [null]. *)
Definition upper_name (node : jsval) : result string :=
  match or_else (opt_member node "name") (JStr "") with
  | JStr s => Ok (toUpperCase s)
  | _ => Throw TypeError
  end.

(** [name.includes(p1) || name.includes(p2) || ...]. *)
Definition any_of (patterns : list string) (s : string) : bool :=
  existsb (fun p => includes p s) patterns.

(** The region key read off the region category of an analysis. *)
Definition region_of_label (region : string) : string :=
  if String.eqb region "Hong Kong" || includes "HK" region then "HK"
  else if String.eqb region "Taiwan" || includes "TW" region then "TW"
  else if String.eqb region "Singapore" || includes "SG" region then "SG"
  else if String.eqb region "United States" || includes "US" region
  then "US"
  else if String.eqb region "Japan" || includes "JP" region then "JP"
  else "OTHER".

(** The region key read off the upper-cased name. *)
Definition region_of_name (name : string) : string :=
  if any_of ["香港"; "HK"; "HONG"; "KONG"] name then "HK"
  else if any_of ["台湾"; "台"; "TW"; "TAIWAN"] name then "TW"
  else if any_of ["新加坡"; "狮城"; "SG"; "SINGAPORE"] name then "SG"
  else if any_of ["美国"; "美"; "US"; "UNITED"; "STATES"] name then "US"
  else if any_of ["日本"; "JP"; "JAPAN"] name then "JP"
  else "OTHER".

(** The first half of [_categorizeNode]: the analysis decides when the
    node carries one with a region category, the name otherwise. *)
Definition regionKey (node : jsval) : result string :=
  analysis <- member node "analysis" ;;
  let categories := opt_member analysis "categories" in
  let region :=
    and_then analysis
             (and_then categories (opt_member categories "region")) in
  if truthy region then
    match region with
    | JStr region => Ok (region_of_label region)
    | _ => Throw TypeError
    end
  else
    name <- upper_name node ;;
    Ok (region_of_name name).

(** The application groups with the patterns that select them, in the
    order of the tests. *)
Definition media_rules : list (string * list string) :=
  [("OpenAI", ["OPENAI"; "GPT"; "CHATGPT"; "AI"]);
   ("Disney+", ["DISNEY"; "DISNEY+"]);
   ("Netflix", ["NETFLIX"; "NF"]);
   ("YouTube", ["YOUTUBE"; "YT"]);
   ("Hulu", ["HULU"]);
   ("HBO", ["HBO"; "MAX"]);
   ("AmazonPrime", ["AMAZON"; "PRIME"]);
   ("BBC", ["BBC"]);
   ("Emby", ["EMBY"]);
   ("Spotify", ["SPOTIFY"; "MUSIC"]);
   ("Bilibili", ["BILIBILI"; "B站"; "哔哩"])].

Definition categorizeNode (node : jsval) (maps : table * table)
  : result (table * table) :=
  let '(regionMap, mediaMap) := maps in
  regionKey <- regionKey node ;;
  let regionMap :=
    if has_key regionKey regionMap then push regionKey node regionMap
    else push "OTHER" node regionMap in
  name <- upper_name node ;;
  Ok (regionMap,
      fold_left (fun mediaMap rule =>
                   if any_of (snd rule) name
                   then push (fst rule) node mediaMap
                   else mediaMap)
                media_rules mediaMap).

(** [Object.values(map).filter(group => group.nodes.length > 0)]. *)
Definition nonempty (t : table) : list group :=
  filter (fun g => match nodes g with [] => false | _ => true end)
         (map snd t).

(** The [groups] of the result: an empty array when there is no node,
    the region and application groups otherwise. *)
Inductive grouping : Type :=
| NoGroups
| Groups (region media : list group).

Definition groupNodes (nodes : list jsval) : result grouping :=
  match nodes with
  | [] => Ok NoGroups
  | _ =>
      maps <- foldM (fun maps node => categorizeNode node maps) nodes
                    (regionMap, mediaMap) ;;
      Ok (Groups (nonempty (fst maps)) (nonempty (snd maps)))
  end.

(** The node carries, under [analysis], the analysis [r] that
    [NodeAnalyzer] made of some node: its region category is the one
    computed from [r]. *)
Definition analysed (node : jsval) (r : NodeAnalyzer.analysis) : Prop :=
  (exists source, NodeAnalyzer.analyze source = Ok r) /\
  opt_member (opt_member (opt_member node "analysis") "categories")
             "region"
  = NodeCategories.region r.

(** The analysis found no country, or found one under a key written
    exactly as in the country map, which gives it a country code.  (A
    name that matches a key in another letter case gets no code, and
    the matched text as its country.) *)
Definition coded (r : NodeAnalyzer.analysis) : Prop :=
  NodeAnalyzer.countryCode r = JNull
  \/ exists c, NodeAnalyzer.countryCode r = JStr c.

(** The region table when only the last group has received nodes. *)
Definition only_other (received : list jsval) : table :=
  [("HK", mkGroup "香港" []); ("TW", mkGroup "台湾" []);
   ("SG", mkGroup "新加坡" []); ("US", mkGroup "美国" []);
   ("JP", mkGroup "日本" []); ("OTHER", mkGroup "其他" received)].

End GroupManager.

Module GroupExamples.

(** A Hong Kong node after analysis and renaming: the analysis of the
    original name 香港 01 rides along under [analysis]. *)
Definition analysed_hk : jsval :=
  JObj [("name", JStr "🇭🇰 HK 01");
        ("server", JStr "hk.example"); ("port", JNum 443);
        ("analysis",
         JObj [("country", JStr "香港"); ("countryCode", JStr "HK");
               ("protocol", JStr "VMess");
               ("originalName", JStr "香港 01");
               ("categories",
                JObj [("region", JStr "香港");
                      ("protocol", JStr "VMess")])])].

(** A node named RUSSIA 01 after analysis: the country pattern matched
    in upper case, the country map has no such key, and the matched
    text is the country and the region label. *)
Definition analysed_russia : jsval :=
  JObj [("name", JStr "RUSSIA 01");
        ("server", JStr "ru.example"); ("port", JNum 443);
        ("analysis",
         JObj [("country", JStr "RUSSIA"); ("countryCode", JUndef);
               ("protocol", JStr "VMess");
               ("originalName", JStr "RUSSIA 01");
               ("categories",
                JObj [("region", JStr "RUSSIA");
                      ("protocol", JStr "VMess")])])].

End GroupExamples.

(** ** Well-formed UTF-8

    The byte strings that spell a JavaScript string without lone
    surrogates: on these [encodeURIComponent] does not throw. *)

Module Utf8.


End Utf8.

(** ** The reader of the group files ([readNodesFromFile]) *)

Module GroupFileReader.

Definition getNodeTypeFromURI (uri : string) : string :=
  if startsWith "vmess://" uri then "vmess"
  else if startsWith "ss://" uri then "ss"
  else if startsWith "ssr://" uri then "ssr"
  else if startsWith "trojan://" uri then "trojan"
  else if startsWith "http://" uri || startsWith "https://" uri then "http"
  else "unknown".

(** The name is what follows the first [#], decoded, provided the [#]
    is not the first character; [null] otherwise and when the decoding
    throws. *)
Definition getNodeNameFromURI (uri : string) : jsval :=
  match URL.break (URL.is_char "#") uri with
  | (String _ _, String _ encoded) =>
      match decodeURIComponent encoded with
      | Ok name => JStr name
      | Throw _ => JNull
      end
  | _ => JNull
  end.

(** The node built for one line of a file of share links. *)
Definition read_line (line : string) : jsval :=
  JObj [("name", or_else (getNodeNameFromURI line) (JStr "未命名节点"));
        ("type", JStr (getNodeTypeFromURI line));
        ("server", JStr "127.0.0.1");
        ("port", JNum 1080);
        ("extra", JObj [("raw", JStr line)])].

(** The file names that [readAllGroupNodes] assigns to a group key. *)
Definition regionFileMapping : list (string * string) :=
  [("HK.txt", "HK"); ("TW.txt", "TW"); ("SG.txt", "SG");
   ("US.txt", "US"); ("JP.txt", "JP"); ("Others.txt", "OTHER")].

Definition mediaMapping : list (string * string) :=
  [("OpenAI.txt", "OpenAI"); ("Disney+.txt", "Disney+");
   ("Netflix.txt", "Netflix"); ("YouTube.txt", "YouTube");
   ("Hulu.txt", "Hulu"); ("HBO.txt", "HBO");
   ("AmazonPrime.txt", "AmazonPrime"); ("BBC.txt", "BBC");
   ("Emby.txt", "Emby"); ("Spotify.txt", "Spotify");
   ("Bilibili.txt", "Bilibili")].

(** The group key under which the nodes of a file are filed; [None]
    for a file of unknown name, whose nodes are left out. *)
Definition group_of_file (file : string) : option (bool * string) :=
  match NodeAnalyzer.lookup file regionFileMapping with
  | JStr key => Some (true, key)
  | _ =>
      match NodeAnalyzer.lookup file mediaMapping with
      | JStr key => Some (false, key)
      | _ => None
      end
  end.

End GroupFileReader.

(** ** The names of the application files ([generateGroupedNodeFiles]) *)

Module MediaFiles.

(** [group.name.replace(/[^a-zA-Z0-9_-]/g, '_')], on names written in
    ASCII, as those of the application groups are. *)
Definition safe (a : ascii) : bool :=
  URL.is_alpha a || URL.is_digit a || URL.one_of "_-" a.

Fixpoint safeGroupName (name : string) : string :=
  match name with
  | EmptyString => EmptyString
  | String a r =>
      String (if safe a then a else "_"%char) (safeGroupName r)
  end.

Definition media_filename (name : string) : string :=
  safeGroupName name ++ ".txt".

End MediaFiles.

(* ================================================================= *)
(** * Properties *)

Section DedupFacts.
Import NodeDeduplicator.

Variable o : options.

Local Abbreviation key := (key_of o).
Local Abbreviation keyed := (keyed_by o).

Lemma to_string_convertible v :
  to_string v = if convertible v then Ok (to_str v) else Throw TypeError.
Proof.
  destruct v as [| | | | | |ps]; try reflexivity.
  unfold to_string, to_primitive, convertible.
  destruct (has_own "toString" ps); reflexivity.
Qed.

Lemma generateKey_fields n fields :
  generateKey n fields =
    if forallb (fun field => convertible (value_at n field)) fields
    then Ok (String.concat "|"
               (map (fun field => field ++ ":" ++ to_str (value_at n field))
                    fields))
    else Throw TypeError.
Proof.
  unfold generateKey.
  assert (mapM (fun field =>
                  text <- to_string (value_at n field) ;;
                  Ok (field ++ ":" ++ text)) fields
          = if forallb (fun field => convertible (value_at n field)) fields
            then Ok (map (fun field =>
                            field ++ ":" ++ to_str (value_at n field))
                         fields)
            else Throw TypeError) as ->.
  { induction fields as [|f fields IH]; [reflexivity|].
    cbn [mapM forallb map]. rewrite to_string_convertible, IH.
    destruct (convertible (value_at n f)); [|reflexivity].
    destruct (forallb _ fields); reflexivity. }
  destruct (forallb _ fields); reflexivity.
Qed.

Lemma generateKey_keyable n :
  keyable o n = true -> generateKey n (compareFields o) = Ok (key n).
Proof.
  unfold keyable, key_of. intros H. rewrite generateKey_fields, H.
  reflexivity.
Qed.

Lemma generateKey_ok n k :
  generateKey n (compareFields o) = Ok k ->
  keyable o n = true /\ k = key n.
Proof.
  unfold keyable, key_of. rewrite generateKey_fields.
  destruct (forallb _ _); [|discriminate]. intros [= <-]. auto.
Qed.

Lemma generateKey_throws n fields e :
  generateKey n fields = Throw e -> e = TypeError.
Proof.
  rewrite generateKey_fields. destruct (forallb _ _); congruence.
Qed.

Lemma keyed_key m k v : keyed m -> In (k, v) m -> key v = k.
Proof.
  intros Hk Hin. apply Hk in Hin. apply generateKey_ok in Hin as [_ ->].
  reflexivity.
Qed.

Lemma keyed_keyable m k v : keyed m -> In (k, v) m -> keyable o v = true.
Proof. intros Hk Hin. apply Hk in Hin. apply generateKey_ok in Hin; tauto. Qed.

Lemma map_get_absent k m :
  ~ In k (map fst m) -> map_get k m = JUndef.
Proof.
  induction m as [|[k' v] m IH]; simpl; intros H; [reflexivity|].
  destruct (String.eqb_spec k k') as [->|_]; [tauto|].
  apply IH; tauto.
Qed.

Lemma map_get_present k m :
  In k (map fst m) -> exists v, In (k, v) m /\ map_get k m = v.
Proof.
  induction m as [|[k' v] m IH]; simpl; intros H; [contradiction|].
  destruct (String.eqb_spec k k') as [->|Hne].
  - exists v; auto.
  - destruct H as [H|H]; [congruence|].
    destruct (IH H) as (w & Hw & Hg); exists w; auto.
Qed.

Lemma map_set_absent k v m :
  ~ In k (map fst m) -> map_set k v m = (m ++ [(k, v)])%list.
Proof.
  induction m as [|[k' v'] m IH]; simpl; intros H; [reflexivity|].
  destruct (String.eqb_spec k k') as [->|_]; [tauto|].
  rewrite IH by tauto; reflexivity.
Qed.

Lemma map_set_present_keys k v m :
  In k (map fst m) -> map fst (map_set k v m) = map fst m.
Proof.
  induction m as [|[k' v'] m IH]; simpl; intros H; [contradiction|].
  destruct (String.eqb_spec k k') as [->|Hne]; simpl; [reflexivity|].
  destruct H as [H|H]; [congruence|].
  rewrite IH by assumption; reflexivity.
Qed.

Lemma map_set_values k v m x :
  In x (map_values (map_set k v m)) -> x = v \/ In x (map_values m).
Proof.
  unfold map_values.
  induction m as [|[k' v'] m IH]; simpl.
  - intros [H|[]]; auto.
  - destruct (String.eqb_spec k k') as [->|Hne]; simpl.
    + intros [H|H]; auto.
    + intros [H|H]; auto. destruct (IH H); auto.
Qed.

Lemma map_set_entries k v m e :
  In e (map_set k v m) -> (fst e = k /\ snd e = v) \/ In e m.
Proof.
  induction m as [|[k' v'] m IH]; simpl.
  - intros [<-|[]]; auto.
  - destruct (String.eqb_spec k k') as [->|Hne]; simpl.
    + intros [<-|H]; auto.
    + intros [H|H]; auto. destruct (IH H); auto.
Qed.

(** Whatever branch an iteration takes, the map is either untouched or
    receives the current node under its own key. *)
Lemma dedup_step_keyable m n m' :
  dedup_step o m n = Ok m' -> keyable o n = true.
Proof.
  unfold dedup_step.
  destruct (generateKey n (compareFields o)) as [k|] eqn:E; [|discriminate].
  intros _. apply generateKey_ok in E; tauto.
Qed.

(** The iteration once the key is computed. *)
Lemma dedup_step_unfold m n :
  keyable o n = true ->
  dedup_step o m n =
    (let existingNode := map_get (key n) m in
     if negb (truthy existingNode) then Ok (map_set (key n) n m)
     else if negb (preferLower o) then Ok m
     else
       extra <- member n "extra" ;;
       latency <- member extra "latency" ;;
       if negb (truthy latency) then Ok m
       else
         extra' <- member existingNode "extra" ;;
         latency' <- member extra' "latency" ;;
         if negb (truthy latency') then Ok m
         else
           lower <- JS.lt latency latency' ;;
           if lower then Ok (map_set (key n) n m) else Ok m).
Proof.
  intros Hk. unfold dedup_step. rewrite (generateKey_keyable _ Hk).
  reflexivity.
Qed.

Lemma dedup_step_cases m n m' :
  dedup_step o m n = Ok m' -> m' = m \/ m' = map_set (key n) n m.
Proof.
  intros H. pose proof (dedup_step_keyable _ _ _ H) as Hk.
  rewrite (dedup_step_unfold _ _ Hk) in H. cbv zeta in H. revert H.
  destruct (negb (truthy (map_get _ m))); [intros [= <-]; auto|].
  destruct (negb (preferLower o)); [intros [= <-]; auto|].
  destruct (member n "extra") as [e|]; simpl; [|discriminate].
  destruct (member e "latency") as [l|]; simpl; [|discriminate].
  destruct (negb (truthy l)); [intros [= <-]; auto|].
  destruct (member (map_get _ m) "extra") as [e'|]; simpl; [|discriminate].
  destruct (member e' "latency") as [l'|]; simpl; [|discriminate].
  destruct (negb (truthy l')); [intros [= <-]; auto|].
  destruct (JS.lt l l') as [[]|]; simpl; [| |discriminate];
    intros [= <-]; auto.
Qed.

Lemma foldM_app {A B} (f : A -> B -> result A) l1 l2 a :
  foldM f (l1 ++ l2)%list a = (a' <- foldM f l1 a ;; foldM f l2 a').
Proof.
  revert a; induction l1 as [|b l1 IH]; simpl; intros a; [reflexivity|].
  destruct (f a b); simpl; auto.
Qed.

Lemma mem_In k l : mem k l = true <-> In k l.
Proof.
  unfold mem; rewrite existsb_exists; split.
  - intros (x & Hx & He). apply String.eqb_eq in He; subst; auto.
  - intros H; exists k; split; auto. apply String.eqb_refl.
Qed.

(** A fresh key: the node is appended. *)
Lemma dedup_step_fresh m n :
  keyable o n = true ->
  ~ In (key n) (map fst m) ->
  dedup_step o m n = Ok (m ++ [(key n, n)])%list.
Proof.
  intros Hk H. rewrite (dedup_step_unfold _ _ Hk); cbv zeta.
  rewrite (map_get_absent _ _ H); simpl.
  rewrite (map_set_absent _ _ _ H); reflexivity.
Qed.

Lemma dedup_step_keys m n m' :
  dedup_step o m n = Ok m' ->
  map fst m' =
    if mem (key n) (map fst m) then map fst m
    else (map fst m ++ [key n])%list.
Proof.
  intros H.
  destruct (mem (key n) (map fst m)) eqn:E.
  - apply mem_In in E.
    destruct (dedup_step_cases _ _ _ H) as [->| ->]; [reflexivity|].
    apply map_set_present_keys; assumption.
  - assert (~ In (key n) (map fst m)) as Hn
        by (rewrite <- mem_In; congruence).
    rewrite (dedup_step_fresh _ _ (dedup_step_keyable _ _ _ H) Hn) in H.
    injection H as <-.
    rewrite map_app; reflexivity.
Qed.

Lemma dedup_step_keyed m n m' :
  keyed m -> dedup_step o m n = Ok m' -> keyed m'.
Proof.
  intros Hk H.
  pose proof (dedup_step_keyable _ _ _ H) as Hn.
  destruct (dedup_step_cases _ _ _ H) as [->| ->]; [assumption|].
  intros k v Hin. apply map_set_entries in Hin; simpl in Hin.
  destruct Hin as [[-> ->]|Hin]; [apply generateKey_keyable, Hn|auto].
Qed.

Lemma dedup_step_NoDup m n m' :
  NoDup (map fst m) -> dedup_step o m n = Ok m' -> NoDup (map fst m').
Proof.
  intros Hnd H. rewrite (dedup_step_keys _ _ _ H).
  destruct (mem (key n) (map fst m)) eqn:E; [assumption|].
  assert (~ In (key n) (map fst m)) as Hn
      by (rewrite <- mem_In; congruence).
  apply NoDup_app; [assumption|repeat constructor; intros []|].
  intros a Ha [<-|[]]. contradiction.
Qed.

Lemma dedup_step_values m n m' x :
  dedup_step o m n = Ok m' ->
  In x (map_values m') -> x = n \/ In x (map_values m).
Proof.
  intros H Hin.
  destruct (dedup_step_cases _ _ _ H) as [->| ->]; [auto|].
  apply map_set_values in Hin; assumption.
Qed.

(** The loop as a whole, from any intermediate map. *)
Lemma dedup_loop_inv l : forall m m',
  foldM (dedup_step o) l m = Ok m' ->
  (keyed m -> keyed m') /\
  (NoDup (map fst m) -> NoDup (map fst m')) /\
  (forall x, In x (map_values m') -> In x (map_values m) \/ In x l) /\
  map fst m' = (map fst m ++ first_keys (map fst m) (map key l))%list.
Proof.
  induction l as [|n l IH]; simpl; intros m m' H.
  - injection H as <-. rewrite app_nil_r. tauto.
  - destruct (dedup_step o m n) as [m1|] eqn:E; simpl in H; [|discriminate].
    destruct (IH _ _ H) as (IH1 & IH2 & IH3 & IH4).
    repeat split.
    + intros Hk. eauto using dedup_step_keyed.
    + intros Hn. eauto using dedup_step_NoDup.
    + intros x Hx. destruct (IH3 x Hx) as [Hx'|Hx']; [|auto].
      destruct (dedup_step_values _ _ _ _ E Hx'); subst; auto.
    + rewrite IH4, (dedup_step_keys _ _ _ E).
      destruct (mem (key n) (map fst m)); [reflexivity|].
      rewrite <- app_assoc; reflexivity.
Qed.

Lemma deduplicate_inv l out :
  deduplicate l o = Ok out ->
  exists m, foldM (dedup_step o) l [] = Ok m /\ out = map_values m /\
            keyed m /\ NoDup (map fst m) /\
            map fst m = first_keys [] (map key l) /\
            (forall x, In x out -> In x l).
Proof.
  unfold deduplicate. intros H.
  destruct (foldM (dedup_step o) l []) as [m|] eqn:E; simpl in H;
    [|discriminate].
  injection H as <-. exists m.
  destruct (dedup_loop_inv _ _ _ E) as (H1 & H2 & H3 & H4).
  repeat split; auto.
  - apply H1. intros k v [].
  - apply H2. constructor.
  - intros x Hx. destruct (H3 x Hx) as [[]|]; assumption.
Qed.

(** Keys of the output, read off the nodes themselves. *)
Lemma keyed_values m : keyed m -> map key (map_values m) = map fst m.
Proof.
  unfold map_values. induction m as [|[k v] m IH]; simpl; intros Hk;
    [reflexivity|].
  rewrite (keyed_key _ k v Hk) by (left; reflexivity).
  rewrite IH; [reflexivity|]. intros k' v' Hin. apply Hk; right; assumption.
Qed.

Lemma first_keys_complete l : forall seen k,
  In k l -> In k seen \/ In k (first_keys seen l).
Proof.
  induction l as [|a l IH]; simpl; intros seen k H; [contradiction|].
  destruct (mem a seen) eqn:E.
  - destruct H as [->|H]; [left; apply mem_In; assumption|auto].
  - destruct H as [->|H]; [right; left; reflexivity|].
    destruct (IH (seen ++ [a])%list k H) as [H'|H']; [|right; right; assumption].
    apply in_app_or in H'. destruct H' as [H'|[->|[]]]; auto.
    right; left; reflexivity.
Qed.

Lemma has_extra_truthy n : has_extra n -> truthy n = true.
Proof. intros (ps & es & -> & _); reflexivity. Qed.

Lemma has_extra_latency n :
  has_extra n ->
  exists e, member n "extra" = Ok e /\
            member e "latency" = Ok (latency_of n).
Proof.
  intros (ps & es & -> & He). exists (JObj es).
  unfold latency_of; simpl. rewrite He. auto.
Qed.

Lemma member_opt v k x : member v k = Ok x -> x = opt_member v k.
Proof. destruct v; simpl; intros [= <-]; reflexivity. Qed.

Lemma lt_convertible a b :
  convertible a = true -> convertible b = true ->
  JS.lt a b = Ok (match JS.lt a b with Ok r => r | Throw _ => false end).
Proof.
  unfold JS.lt, to_primitive, convertible.
  destruct a as [| | | | | |ps], b as [| | | | | |qs]; intros Ha Hb;
    try reflexivity;
    try (apply negb_true_iff in Ha; rewrite Ha);
    try (apply negb_true_iff in Hb; rewrite Hb); reflexivity.
Qed.

(** A collision: what an iteration that returns does on an occupied
    key. *)
Lemma dedup_step_collision m n e m' :
  map_get (key n) m = e -> truthy e = true ->
  dedup_step o m n = Ok m' ->
  m' = if lower_latency o n e then map_set (key n) n m else m.
Proof.
  intros Hg He H. pose proof (dedup_step_keyable _ _ _ H) as Hk.
  rewrite (dedup_step_unfold _ _ Hk) in H. cbv zeta in H.
  rewrite Hg, He in H. cbn [negb] in H.
  unfold lower_latency.
  destruct (preferLower o); cbn [negb andb] in *; [|congruence].
  destruct (member n "extra") as [x|] eqn:Ex; cbn [bind] in H;
    [|discriminate].
  destruct (member x "latency") as [y|] eqn:Ey; cbn [bind] in H;
    [|discriminate].
  apply member_opt in Ex. subst x. apply member_opt in Ey. subst y.
  fold (latency_of n) in H.
  destruct (truthy (latency_of n)); cbn [negb andb] in *; [|congruence].
  destruct (member e "extra") as [x|] eqn:Ex; cbn [bind] in H;
    [|discriminate].
  destruct (member x "latency") as [y|] eqn:Ey; cbn [bind] in H;
    [|discriminate].
  apply member_opt in Ex. subst x. apply member_opt in Ey. subst y.
  fold (latency_of e) in H.
  destruct (truthy (latency_of e)); cbn [negb andb] in *; [|congruence].
  destruct (JS.lt (latency_of n) (latency_of e)) as [[]|]; cbn [bind] in H;
    congruence.
Qed.

Lemma map_get_values k m :
  In k (map fst m) -> In (map_get k m) (map_values m).
Proof.
  intros H. destruct (map_get_present _ _ H) as (v & Hv & ->).
  unfold map_values. change v with (snd (k, v)). apply in_map; assumption.
Qed.

(** The nodes on which an iteration cannot fail: an [extra] record, and
    compared values and a latency that can be converted. *)
Local Abbreviation sound :=
  (fun n : jsval =>
     has_extra n /\ keyable o n = true
     /\ convertible (latency_of n) = true).

Lemma dedup_step_total m n :
  sound n -> Forall sound (map_values m) ->
  exists m', dedup_step o m n = Ok m' /\ Forall sound (map_values m').
Proof.
  intros Hn Hm.
  assert (exists m', dedup_step o m n = Ok m') as (m' & H).
  { destruct Hn as (Hx & Hk & Hc).
    destruct (in_dec string_dec (key n) (map fst m)) as [Hin|Hin].
    - assert (sound (map_get (key n) m)) as (He & _ & Hce).
      { rewrite Forall_forall in Hm. apply Hm, map_get_values, Hin. }
      rewrite (dedup_step_unfold _ _ Hk). cbv zeta.
      rewrite (has_extra_truthy _ He). cbn [negb].
      destruct (negb (preferLower o)); [eauto|].
      destruct (has_extra_latency _ Hx) as (x & Hx1 & Hx2).
      rewrite Hx1. cbn [bind]. rewrite Hx2. cbn [bind].
      destruct (negb (truthy (latency_of n))); [eauto|].
      destruct (has_extra_latency _ He) as (y & Hy1 & Hy2).
      rewrite Hy1. cbn [bind]. rewrite Hy2. cbn [bind].
      destruct (negb (truthy _)); [eauto|].
      rewrite (lt_convertible _ _ Hc Hce). cbn [bind].
      destruct (match JS.lt _ _ with Ok r => r | Throw _ => false end);
        eauto.
    - rewrite (dedup_step_fresh _ _ Hk Hin). eauto. }
  exists m'. split; [assumption|].
  rewrite Forall_forall in *. intros x Hx.
  destruct (dedup_step_values _ _ _ _ H Hx) as [->|Hx']; auto.
Qed.

Lemma dedup_loop_total l : forall m,
  Forall sound l -> Forall sound (map_values m) ->
  exists m', foldM (dedup_step o) l m = Ok m'.
Proof.
  induction l as [|n l IH]; simpl; intros m Hl Hm; [eauto|].
  inversion Hl as [|? ? Hn Hl']; subst.
  destruct (dedup_step_total m n Hn Hm) as (m1 & -> & Hm1); simpl.
  apply IH; assumption.
Qed.

(** With [preferLower] unset the loop never reads [extra]. *)
Lemma dedup_loop_total_no_prefer l : forall m,
  preferLower o = false -> Forall (fun n => keyable o n = true) l ->
  exists m', foldM (dedup_step o) l m = Ok m'.
Proof.
  induction l as [|n l IH]; simpl; intros m Hp Hl; [eauto|].
  inversion Hl as [|? ? Hn Hl']; subst.
  rewrite (dedup_step_unfold _ _ Hn); cbv zeta. rewrite Hp; simpl.
  destruct (negb (truthy _)); simpl; apply IH; assumption.
Qed.

Lemma map_get_set_same k v m : map_get k (map_set k v m) = v.
Proof.
  induction m as [|[k' v'] m IH]; simpl.
  - rewrite String.eqb_refl; reflexivity.
  - destruct (String.eqb_spec k k') as [->|Hne]; simpl.
    + rewrite String.eqb_refl; reflexivity.
    + destruct (String.eqb_spec k k'); [contradiction|assumption].
Qed.

Lemma map_get_set_other k k' v m :
  k <> k' -> map_get k (map_set k' v m) = map_get k m.
Proof.
  intros Hne. induction m as [|[k1 v1] m IH]; simpl.
  - destruct (String.eqb_spec k k'); [contradiction|reflexivity].
  - destruct (String.eqb_spec k' k1) as [->|Hne1]; simpl.
    + destruct (String.eqb_spec k k1); [contradiction|reflexivity].
    + destruct (String.eqb_spec k k1); [reflexivity|assumption].
Qed.

(** On an occupied key the entry changes only through the latency
    test, which only an object can pass. *)
Lemma dedup_step_occupied m n m' :
  truthy (map_get (key n) m) = true ->
  dedup_step o m n = Ok m' ->
  m' = m \/ (m' = map_set (key n) n m /\ truthy n = true).
Proof.
  intros Ht H. pose proof (dedup_step_keyable _ _ _ H) as Hk.
  rewrite (dedup_step_unfold _ _ Hk) in H. cbv zeta in H. revert H.
  rewrite Ht; simpl.
  destruct (negb (preferLower o)); [intros [= <-]; auto|].
  destruct (member n "extra") as [e|] eqn:Ee; simpl; [|discriminate].
  destruct (member e "latency") as [l|] eqn:El; simpl; [|discriminate].
  assert (truthy n = true) as Hn.
  { destruct n; simpl in Ee; try discriminate; try reflexivity;
      injection Ee as <-; discriminate. }
  destruct (negb (truthy l)); [intros [= <-]; auto|].
  destruct (member (map_get (key n) m) "extra") as [e'|]; simpl;
    [|discriminate].
  destruct (member e' "latency") as [l'|]; simpl; [|discriminate].
  destruct (negb (truthy l')); [intros [= <-]; auto|].
  destruct (JS.lt l l') as [[]|]; simpl; [| |discriminate];
    intros [= <-]; auto.
Qed.

(** Once a key holds a truthy node it keeps holding one. *)
Lemma dedup_step_truthy m n m' k :
  dedup_step o m n = Ok m' ->
  truthy (map_get k m) = true -> truthy (map_get k m') = true.
Proof.
  intros H Ht.
  destruct (string_dec k (key n)) as [->|Hne].
  - destruct (dedup_step_occupied _ _ _ Ht H) as [->|[-> Hn]];
      [assumption|].
    rewrite map_get_set_same; assumption.
  - destruct (dedup_step_cases _ _ _ H) as [->| ->]; [assumption|].
    rewrite map_get_set_other; assumption.
Qed.

Lemma dedup_loop_truthy l : forall m m' k,
  foldM (dedup_step o) l m = Ok m' ->
  truthy (map_get k m) = true -> truthy (map_get k m') = true.
Proof.
  induction l as [|n l IH]; simpl; intros m m' k H Ht.
  - injection H as <-; assumption.
  - destruct (dedup_step o m n) as [m1|] eqn:E; simpl in H; [|discriminate].
    eapply IH; [eassumption|]. eapply dedup_step_truthy; eassumption.
Qed.

(** A truthy node leaves its key occupied by a truthy node. *)
Lemma dedup_step_self m n m' :
  truthy n = true -> dedup_step o m n = Ok m' ->
  truthy (map_get (key n) m') = true.
Proof.
  intros Hn H.
  destruct (truthy (map_get (key n) m)) eqn:E.
  - eapply dedup_step_truthy; eassumption.
  - rewrite (dedup_step_unfold _ _ (dedup_step_keyable _ _ _ H)) in H.
    cbv zeta in H.
    rewrite E in H; simpl in H. injection H as <-.
    rewrite map_get_set_same; assumption.
Qed.

(** The only exception the loop can raise. *)
Lemma dedup_step_throws m n e :
  dedup_step o m n = Throw e -> e = TypeError.
Proof.
  unfold dedup_step.
  destruct (generateKey n (compareFields o)) as [k|] eqn:Ek; cbn [bind];
    [|intros [= <-]; eapply generateKey_throws; eassumption].
  cbv zeta.
  destruct (negb (truthy _)); [discriminate|].
  destruct (negb (preferLower o)); [discriminate|].
  assert (forall v k x, member v k = Throw x -> x = TypeError) as Hm
      by (intros [] ? ?; simpl; congruence).
  destruct (member n "extra") as [x|] eqn:E1; simpl;
    [|intros [= <-]; eauto].
  destruct (member x "latency") as [y|] eqn:E2; simpl;
    [|intros [= <-]; eauto].
  destruct (negb (truthy y)); [discriminate|].
  destruct (member (map_get _ m) "extra") as [x'|] eqn:E3; simpl;
    [|intros [= <-]; eauto].
  destruct (member x' "latency") as [y'|] eqn:E4; simpl;
    [|intros [= <-]; eauto].
  destruct (negb (truthy y')); [discriminate|].
  unfold JS.lt, to_primitive.
  destruct y as [| | | | | |ps]; cbn [bind];
    try (destruct (has_own "toString" ps); cbn [bind]; [congruence|]);
    (destruct y' as [| | | | | |qs]; cbn [bind];
     try (destruct (has_own "toString" qs); cbn [bind]; [congruence|]));
    match goal with
    | |- context [if ?c then _ else _] => destruct c; discriminate
    end.
Qed.

Lemma dedup_loop_throws l : forall m e,
  foldM (dedup_step o) l m = Throw e -> e = TypeError.
Proof.
  induction l as [|n l IH]; simpl; intros m e H; [discriminate|].
  destruct (dedup_step o m n) as [m1|] eqn:E; simpl in H.
  - eauto.
  - injection H as <-. eapply dedup_step_throws; eassumption.
Qed.

(** A node without [extra] arriving on an occupied key. *)
Lemma dedup_step_lacks_extra m n :
  preferLower o = true -> lacks_extra n ->
  truthy (map_get (key n) m) = true ->
  dedup_step o m n = Throw TypeError.
Proof.
  intros Hp (ps & -> & He) Ht.
  destruct (keyable o (JObj ps)) eqn:Hk.
  - rewrite (dedup_step_unfold _ _ Hk); cbv zeta.
    rewrite Ht, Hp; simpl. rewrite He; reflexivity.
  - unfold dedup_step. rewrite generateKey_fields.
    unfold keyable in Hk. rewrite Hk. reflexivity.
Qed.

Lemma values_map_set m n :
  keyed m -> NoDup (map fst m) -> In (key n) (map fst m) ->
  map_values (map_set (key n) n m) = put_in_slot o n (map_values m).
Proof.
  unfold map_values, put_in_slot.
  induction m as [|[k v] m IH]; simpl; intros Hk Hnd Hin; [contradiction|].
  assert (key v = k) as Hv by (apply (keyed_key _ k v Hk); left; reflexivity).
  assert (keyed m) as Hk' by (intros ? ? ?; apply Hk; right; assumption).
  inversion Hnd as [|? ? Hnotin Hnd']; subst.
  rewrite (String.eqb_sym (key v)).
  destruct (String.eqb_spec (key n) (key v)) as [He|Hne]; simpl.
  - f_equal. symmetry. erewrite map_ext_in; [apply map_id|].
    intros v' Hin'. apply in_map_iff in Hin' as ([k1 v1] & <- & Hin1).
    simpl.
    destruct (String.eqb_spec (key v1) (key n)) as [He'|]; [|reflexivity].
    exfalso. apply Hnotin. rewrite <- He, <- He'.
    rewrite (keyed_key _ k1 v1 Hk' Hin1). change k1 with (fst (k1, v1)).
    apply in_map; assumption.
  - f_equal. apply IH; auto. destruct Hin; [congruence|assumption].
Qed.

Lemma incumbent_map_get m n :
  keyed m ->
  incumbent o n (map_values m) =
    if mem (key n) (map fst m) then Some (map_get (key n) m) else None.
Proof.
  unfold incumbent, map_values.
  induction m as [|[k v] m IH]; simpl; intros Hk; [reflexivity|].
  rewrite (keyed_key _ k v Hk) by (left; reflexivity).
  rewrite (String.eqb_sym k).
  destruct (String.eqb (key n) k); simpl; [reflexivity|].
  apply IH. intros ? ? ?; apply Hk; right; assumption.
Qed.

(** Re-running the loop over the values of a well-keyed map rebuilds
    the map entry by entry. *)
Lemma dedup_loop_rebuild m : forall acc,
  keyed m -> NoDup (map fst (acc ++ m)%list) ->
  foldM (dedup_step o) (map_values m) acc = Ok (acc ++ m)%list.
Proof.
  unfold map_values.
  induction m as [|[k v] m IH]; simpl; intros acc Hk Hnd.
  - rewrite app_nil_r; reflexivity.
  - assert (key v = k) as Hv
        by (apply (keyed_key _ k v Hk); left; reflexivity).
    assert (keyable o v = true) as Hkv
        by (apply (keyed_keyable _ k v Hk); left; reflexivity).
    assert (~ In (key v) (map fst acc)) as Hfresh.
    { rewrite Hv. rewrite map_app in Hnd; simpl in Hnd.
      apply NoDup_remove_2 in Hnd. intros Hin; apply Hnd.
      apply in_or_app; left; assumption. }
    rewrite (dedup_step_fresh _ _ Hkv Hfresh); simpl. rewrite Hv.
    rewrite IH.
    + rewrite <- app_assoc; reflexivity.
    + intros ? ? ?; apply Hk; right; assumption.
    + rewrite <- app_assoc; assumption.
Qed.

Lemma dedup_loop_keyable l : forall m m',
  foldM (dedup_step o) l m = Ok m' ->
  Forall (fun n => keyable o n = true) l.
Proof.
  induction l as [|n l IH]; simpl; intros m m' H; [constructor|].
  destruct (dedup_step o m n) as [m1|] eqn:E; simpl in H; [|discriminate].
  constructor; [eapply dedup_step_keyable; eassumption|eauto].
Qed.

(** The loop against the policy, from any intermediate map that holds
    truthy nodes. *)
Lemma dedup_loop_policy l : forall m m',
  keyed m -> NoDup (map fst m) ->
  Forall (fun v => truthy v = true) (map_values m) ->
  Forall (fun v => truthy v = true) l ->
  foldM (dedup_step o) l m = Ok m' ->
  map_values m' = fold_left (DedupSpec.policy_step o) l (map_values m).
Proof.
  induction l as [|n l IH]; cbn [foldM fold_left];
    intros m m' Hk Hnd Hm Hl H.
  - injection H as <-. reflexivity.
  - destruct (dedup_step o m n) as [m1|] eqn:E; cbn [bind] in H;
      [|discriminate].
    inversion Hl as [|? ? Hn Hl']; subst.
    assert (map_values m1 = DedupSpec.policy_step o (map_values m) n)
      as Hstep.
    { unfold DedupSpec.policy_step. rewrite (incumbent_map_get m n Hk).
      destruct (mem (key n) (map fst m)) eqn:Em.
      - apply mem_In in Em.
        assert (truthy (map_get (key n) m) = true) as He.
        { rewrite Forall_forall in Hm. apply Hm, map_get_values, Em. }
        rewrite (dedup_step_collision m n _ m1 eq_refl He E).
        destruct (lower_latency _ _ _); [|reflexivity].
        apply values_map_set; assumption.
      - assert (~ In (key n) (map fst m)) as Hfresh
            by (rewrite <- mem_In; congruence).
        rewrite (dedup_step_fresh _ _ (dedup_step_keyable _ _ _ E) Hfresh)
          in E.
        injection E as <-. unfold map_values. rewrite map_app.
        reflexivity. }
    rewrite <- Hstep. apply IH; auto.
    + eapply dedup_step_keyed; eassumption.
    + eapply dedup_step_NoDup; eassumption.
    + rewrite Forall_forall in *. intros x Hx.
      destruct (dedup_step_values _ _ _ _ E Hx) as [->|Hx']; auto.
Qed.

End DedupFacts.

Section DedupDefaultKey.
Import NodeDeduplicator.

Lemma default_key n :
  key_of default_options n =
    "server:" ++ to_str (opt_member n "server")
    ++ "|port:" ++ to_str (opt_member n "port")
    ++ "|protocol:" ++ to_str (opt_member n "protocol").
Proof. reflexivity. Qed.

Lemma append_inv_head s : forall t1 t2, s ++ t1 = s ++ t2 -> t1 = t2.
Proof.
  induction s as [|a s IH]; simpl; intros t1 t2 H; [assumption|].
  injection H as H. auto.
Qed.

Lemma same_fingerprint_key n1 n2 :
  same_fingerprint n1 n2 ->
  key_of default_options n1 = key_of default_options n2.
Proof.
  intros (H1 & H2 & H3). rewrite !default_key, H1, H2, H3. reflexivity.
Qed.

Lemma protocol_in_key n1 n2 p1 p2 :
  opt_member n1 "server" = opt_member n2 "server" ->
  opt_member n1 "port" = opt_member n2 "port" ->
  opt_member n1 "protocol" = JStr p1 ->
  opt_member n2 "protocol" = JStr p2 ->
  p1 <> p2 ->
  key_of default_options n1 <> key_of default_options n2.
Proof.
  intros H1 H2 H3 H4 Hne. rewrite !default_key, H1, H2, H3, H4. simpl.
  intros H. injection H as H.
  apply append_inv_head in H. injection H as H.
  apply append_inv_head in H. injection H as H.
  contradiction.
Qed.

End DedupDefaultKey.

Section DedupClaims.
Import NodeDeduplicator DedupExamples.

(** C2.  With the default key fields, every node returned by
    [deduplicate] is a node of the input; two output positions whose
    nodes agree on server, port and protocol are the same position
    (hence the same node); and nodes sharing server and port but
    differing in their protocol strings both keep a representative in
    the output -- when they are the whole input, both are returned. *)
Theorem dedup_subset_unique (l out : list jsval) :
  deduplicate l default_options = Ok out ->
  (forall n, In n out -> In n l) /\
  (forall i j n1 n2,
      nth_error out i = Some n1 -> nth_error out j = Some n2 ->
      same_fingerprint n1 n2 -> i = j /\ n1 = n2) /\
  (forall n1 n2 p1 p2,
      In n1 l -> In n2 l ->
      opt_member n1 "server" = opt_member n2 "server" ->
      opt_member n1 "port" = opt_member n2 "port" ->
      opt_member n1 "protocol" = JStr p1 ->
      opt_member n2 "protocol" = JStr p2 ->
      p1 <> p2 ->
      (exists m1 m2,
          In m1 out /\ In m2 out /\ m1 <> m2 /\
          key_of default_options m1 = key_of default_options n1 /\
          key_of default_options m2 = key_of default_options n2) /\
      (l = [n1; n2] -> out = [n1; n2])).
Proof.
  intros H.
  destruct (deduplicate_inv _ _ _ H) as (m & Hm & -> & Hk & Hnd & Hkeys & Hsub).
  split; [assumption|]. split.
  - intros i j n1 n2 Hi Hj Hfp.
    assert (i = j) as ->.
    { apply same_fingerprint_key in Hfp.
      rewrite <- (keyed_values _ _ Hk) in Hnd.
      rewrite NoDup_nth_error in Hnd. apply Hnd.
      - rewrite <- nth_error_Some, nth_error_map, Hi. discriminate.
      - rewrite !nth_error_map, Hi, Hj; simpl. congruence. }
    split; congruence.
  - intros n1 n2 p1 p2 Hin1 Hin2 Hs Hp Hp1 Hp2 Hne.
    pose proof (protocol_in_key _ _ _ _ Hs Hp Hp1 Hp2 Hne) as Hkne.
    split.
    + assert (forall n, In n l ->
                exists x, In x (map_values m) /\
                  key_of default_options x = key_of default_options n)
        as Hrep.
      { intros n Hn.
        assert (In (key_of default_options n)
                   (map (key_of default_options) (map_values m))) as Hx.
        { rewrite (keyed_values _ _ Hk), Hkeys.
          destruct (first_keys_complete
                      (map (key_of default_options) l) []
                      (key_of default_options n)) as [[]|]; [|assumption].
          apply in_map; assumption. }
        apply in_map_iff in Hx as (x & Hx & Hin). eauto. }
      destruct (Hrep n1 Hin1) as (m1 & Hm1 & Hk1).
      destruct (Hrep n2 Hin2) as (m2 & Hm2 & Hk2).
      exists m1, m2. repeat split; auto. congruence.
    + intros ->.
      pose proof (dedup_loop_keyable _ _ _ _ Hm) as Hkeyable.
      inversion Hkeyable as [|? ? Hk1 Hk']; subst.
      inversion Hk' as [|? ? Hk2 _]; subst.
      revert H. unfold deduplicate; cbn [foldM].
      rewrite (dedup_step_fresh default_options [] n1 Hk1) by (intros []).
      cbn [bind app].
      rewrite (dedup_step_fresh default_options _ n2 Hk2)
        by (simpl; intros [E|[]]; congruence).
      cbn [bind app map_values map snd]. congruence.
Qed.

Lemma dedup_subset_unique_witness :
  deduplicate [vmess_node; ss_node] default_options
    = Ok [vmess_node; ss_node] /\
  (forall n, In n [vmess_node; ss_node] -> In n [vmess_node; ss_node]).
Proof.
  split; [reflexivity|].
  exact (proj1 (dedup_subset_unique [vmess_node; ss_node]
                  [vmess_node; ss_node] eq_refl)).
Defined.

(** C4.  [deduplicate] is idempotent: run again on its own output,
    with the same options, it returns that output unchanged. *)
Theorem dedup_idempotent (o : options) (l out : list jsval) :
  deduplicate l o = Ok out -> deduplicate out o = Ok out.
Proof.
  intros H.
  destruct (deduplicate_inv _ _ _ H) as (m & _ & -> & Hk & Hnd & _).
  unfold deduplicate.
  rewrite (dedup_loop_rebuild o m [] Hk Hnd). reflexivity.
Qed.

Lemma dedup_idempotent_witness :
  deduplicate [fast_a; other_b] default_options = Ok [fast_a; other_b].
Proof.
  apply (dedup_idempotent default_options [slow_a; other_b; fast_a]).
  reflexivity.
Defined.

(** C3 as stated fails on the order of the output: a lower-latency
    node that arrives last takes over the slot of the node it beats,
    ahead of a survivor that arrived before it. *)
Lemma dedup_order_counterexample :
  deduplicate [slow_a; other_b; fast_a] default_options
    = Ok [fast_a; other_b] /\
  ~ in_arrival_order [slow_a; other_b; fast_a] [fast_a; other_b].
Proof.
  split; [reflexivity|].
  intros H.
  destruct (H 0%nat 1%nat fast_a other_b) as (i & j & Hlt & Hi & Hj);
    [lia|reflexivity|reflexivity|].
  destruct i as [|[|[|i]]]; simpl in Hi; try discriminate;
    try (destruct i; discriminate).
  destruct j as [|[|[|j]]]; simpl in Hj; try discriminate;
    try (destruct j; discriminate).
  lia.
Qed.

(** C3, amended.  With the default key fields, on nodes (truthy
    values) whose probe latency, where there is one, is a number rather
    than a string: whenever [deduplicate] returns, its output is the one
    that the collision policy determines -- a node arriving on a fresh
    key is appended; a node arriving on an occupied key takes over that
    key's slot exactly when [preferLower] is set, both nodes have a
    truthy [extra.latency] and the newcomer's is strictly lower, and is
    dropped otherwise -- and it holds one node per key, in the order in
    which the keys first arrived.  The output is a function of the
    input list and of the options alone: the policy computes it. *)
Theorem dedup_collision_policy (o : options) (l out : list jsval) :
  compareFields o = compareFields default_options ->
  Forall (fun n => truthy n = true /\ is_string (latency_of n) = false) l ->
  deduplicate l o = Ok out ->
  out = DedupSpec.by_policy o l /\
  map (key_of o) out = first_keys [] (map (key_of o) l).
Proof.
  intros _ Hl H.
  destruct (deduplicate_inv _ _ _ H)
    as (m & Hm & -> & Hk & Hnd & Hkeys & Hsub).
  split.
  - apply (dedup_loop_policy o l [] m); try assumption.
    + intros k v [].
    + constructor.
    + constructor.
    + rewrite Forall_forall in *. intros x Hx. apply (Hl x Hx).
  - rewrite keyed_values; assumption.
Qed.

Lemma dedup_collision_policy_witness :
  deduplicate [slow_a; other_b; fast_a] default_options
  = Ok (DedupSpec.by_policy default_options [slow_a; other_b; fast_a])
  /\ DedupSpec.by_policy default_options [slow_a; other_b; fast_a]
     = [fast_a; other_b].
Proof.
  split; [|reflexivity].
  destruct (deduplicate [slow_a; other_b; fast_a] default_options)
    as [out|] eqn:E; [|vm_compute in E; discriminate].
  f_equal.
  apply (dedup_collision_policy default_options
           [slow_a; other_b; fast_a] out);
    [reflexivity|repeat constructor|exact E].
Defined.

(** C10 as stated fails twice.  When [preferLower] is unset the guard
    [preferLower && ...] keeps the loop from reading [extra], and a
    colliding node without [extra] is simply dropped.  And a node that
    does carry an [extra] record makes the call fail when one of its
    compared values cannot be converted to a string. *)
Lemma dedup_totality_counterexample :
  (lacks_extra bare_a /\
   key_of default_options bare_a = key_of default_options slow_a /\
   deduplicate [slow_a; bare_a]
               (mkOptions ["server"; "port"; "protocol"] false)
     = Ok [slow_a]) /\
  (has_extra opaque_server /\
   deduplicate [opaque_server] default_options = Throw TypeError).
Proof.
  split.
  - split; [eexists; split; reflexivity|]. split; reflexivity.
  - split; [eexists _, _; split; reflexivity|reflexivity].
Qed.

(** C10, amended.  [deduplicate] returns a list whenever every input
    node carries an [extra] record and has compared values and a latency
    that can be converted (none is an object with a [toString] property
    of its own), and also whenever [preferLower] is unset and the
    compared values can be converted.  With [preferLower] set (the
    default) and the default key fields, a node object without [extra]
    that arrives on the key of an earlier node makes the call fail with
    a TypeError instead of returning a list. *)
Theorem dedup_total_iff_extra (o : options) (l pre mid post : list jsval)
        (n m : jsval) :
  (Forall (fun x => has_extra x /\ keyable o x = true
                    /\ convertible (latency_of x) = true) l ->
   exists out, deduplicate l o = Ok out) /\
  (preferLower o = false -> Forall (fun x => keyable o x = true) l ->
   exists out, deduplicate l o = Ok out) /\
  (preferLower o = true ->
   compareFields o = compareFields default_options ->
   truthy n = true -> key_of o n = key_of o m -> lacks_extra m ->
   deduplicate (pre ++ n :: mid ++ m :: post)%list o = Throw TypeError).
Proof.
  split; [|split].
  - intros Hl.
    destruct (dedup_loop_total o l [] Hl) as (x & Hx); [constructor|].
    unfold deduplicate; rewrite Hx; simpl; eauto.
  - intros Hp Hl.
    destruct (dedup_loop_total_no_prefer o l [] Hp Hl) as (x & Hx).
    unfold deduplicate; rewrite Hx; simpl; eauto.
  - intros Hp _ Hn Hkey Hm. unfold deduplicate.
    assert (foldM (dedup_step o) (pre ++ n :: mid ++ m :: post)%list []
            = Throw TypeError) as ->; [|reflexivity].
    rewrite foldM_app.
    destruct (foldM (dedup_step o) pre []) as [m0|e] eqn:E0; cbn [bind].
    2:{ apply dedup_loop_throws in E0; congruence. }
    cbn [foldM].
    destruct (dedup_step o m0 n) as [m1|e] eqn:E1; cbn [bind].
    2:{ apply dedup_step_throws in E1; congruence. }
    rewrite foldM_app.
    destruct (foldM (dedup_step o) mid m1) as [m2|e] eqn:E2; cbn [bind].
    2:{ apply dedup_loop_throws in E2; congruence. }
    cbn [foldM].
    rewrite dedup_step_lacks_extra; auto.
    rewrite <- Hkey.
    eapply dedup_loop_truthy; [eassumption|].
    eapply dedup_step_self; eassumption.
Qed.

Lemma dedup_total_iff_extra_witness :
  (exists out, deduplicate [slow_a; other_b; fast_a] default_options
               = Ok out) /\
  deduplicate [slow_a; other_b; bare_a] default_options = Throw TypeError.
Proof.
  destruct (dedup_total_iff_extra default_options
              [slow_a; other_b; fast_a] [] [other_b] [] slow_a bare_a)
    as (H1 & _ & H3).
  split.
  - apply H1.
    repeat constructor; try (eexists _, _; split; reflexivity).
  - apply H3; try reflexivity. eexists; split; reflexivity.
Defined.

End DedupClaims.

Section TesterClaims.
Import NodeTester DedupExamples.

(** C7 as stated names the error of a demoted probe "latency too
    high"; the tester words it in Chinese and appends the elapsed
    milliseconds. *)
Lemma latency_error_text_counterexample :
  let slow := mkProbe 0 1500 (Resolved (JBool true) JNull) no_location in
  let r := runTest true vmess_node slow in
  In r (testNodes true [(vmess_node, slow)]) /\
  r_status r = "down" /\ r_latency r = JNull /\
  r_error r = JStr "延迟过高 (1500ms)" /\
  r_error r <> JStr "latency too high".
Proof.
  cbv zeta. split; [left; reflexivity|].
  repeat split; try reflexivity. discriminate.
Qed.

(** C7, amended.  Every result reported by the tester with status "up"
    records a latency strictly below 1000 ms (the elapsed time of the
    probe); a probe whose connectivity check succeeds but whose elapsed
    time is 1000 ms or more is reported "down", with no latency and
    with the error text 延迟过高 (Nms), N being the elapsed
    milliseconds. *)
Theorem probe_postcondition (verifyLocation : bool)
        (queue : list (jsval * probe)) (r : test_result) :
  In r (testNodes verifyLocation queue) ->
  (r_status r = "up" ->
   exists ms, r_latency r = JNum ms /\ ms < 1000) /\
  (forall node p status error,
      In (node, p) queue -> truthy node = true ->
      check p = Resolved status error -> truthy status = true ->
      1000 <= endTime p - startTime p ->
      let r' := runTest verifyLocation node p in
      In r' (testNodes verifyLocation queue) /\
      r_status r' = "down" /\ r_latency r' = JNull /\
      r_error r' =
        JStr ("延迟过高 (" ++ string_of_Z (endTime p - startTime p)
              ++ "ms)")).
Proof.
  intros Hr. split.
  - unfold testNodes in Hr. apply in_map_iff in Hr as ([n p] & <- & _).
    simpl. unfold runTest.
    destruct (check p) as [status error|msg]; [|discriminate].
    destruct (truthy status); simpl; [|discriminate].
    destruct (Z.ltb_spec (endTime p - startTime p) 1000); simpl;
      [|discriminate].
    intros _. eauto.
  - intros node p status error Hin Hn Hc Hs Hlat. simpl. split.
    + unfold testNodes.
      apply (in_map (fun np => runTest verifyLocation (fst np) (snd np))
                    _ (node, p)).
      apply filter_In; auto.
    + unfold runTest. rewrite Hc, Hs; simpl.
      destruct (Z.ltb_spec (endTime p - startTime p) 1000); [lia|].
      simpl. auto.
Qed.

Lemma probe_postcondition_witness :
  let slow := mkProbe 0 1500 (Resolved (JBool true) JNull) no_location in
  let r := runTest true vmess_node slow in
  r_status r = "down" /\ r_latency r = JNull /\
  r_error r = JStr "延迟过高 (1500ms)".
Proof.
  intros slow r.
  destruct (probe_postcondition true [(vmess_node, slow)] r) as [_ H].
  - left; reflexivity.
  - destruct (H vmess_node slow (JBool true) JNull) as (_ & H1 & H2 & H3);
      try reflexivity; [left; reflexivity|simpl; lia|].
    repeat split; assumption.
Defined.

End TesterClaims.



Section GroupFileClaims.
Import GroupFiles GroupFilesExamples.

Lemma mapM_app {A B} (f : A -> result B) l1 l2 :
  mapM f (l1 ++ l2)%list =
    (bs1 <- mapM f l1 ;; bs2 <- mapM f l2 ;; Ok (bs1 ++ bs2)%list).
Proof.
  induction l1 as [|a l1 IH]; simpl.
  - destruct (mapM f l2); reflexivity.
  - destruct (f a); simpl; [|reflexivity].
    rewrite IH. destruct (mapM f l1); simpl; [|reflexivity].
    destruct (mapM f l2); reflexivity.
Qed.

Lemma kept_app l1 l2 : kept (l1 ++ l2)%list = (kept l1 ++ kept l2)%list.
Proof. apply filter_app. Qed.

Lemma reusable_string raw :
  all_white raw = false -> reusable (JStr raw) = true.
Proof.
  intros H. unfold reusable; simpl. rewrite H.
  destruct raw; [discriminate|reflexivity].
Qed.

(** What is not reused: anything but a string, and a blank string. *)
Lemma not_reusable raw :
  is_string raw = false
  \/ (exists s, raw = JStr s /\ all_white s = true) ->
  reusable raw = false.
Proof.
  unfold reusable. intros [H|(s & -> & H)].
  - rewrite H. apply andb_false_intro1, andb_false_r.
  - cbn [to_str]. rewrite H. apply andb_false_r.
Qed.

(** Synthesis reads five fields of the node and nothing else: not the
    preserved URI, nor anything else under [extra]. *)
Lemma synthesize_reads_fields nodeName n n' :
  opt_member n "type" = opt_member n' "type" ->
  opt_member n "name" = opt_member n' "name" ->
  opt_member n "server" = opt_member n' "server" ->
  opt_member n "port" = opt_member n' "port" ->
  opt_member n "settings" = opt_member n' "settings" ->
  synthesize nodeName n = synthesize nodeName n'.
Proof.
  intros Ht Hn Hs Hp Hset.
  unfold synthesize, synthesize_ssr, port_or_443.
  rewrite Ht, Hn, Hs, Hp, Hset. reflexivity.
Qed.

(** C9 as stated fails for a preserved [raw] that is not a string: the
    container decoders store the source record there, and the writer
    then synthesizes the line from the node's fields -- in the file of
    the region group 香港, where the group manager puts the node, as in
    an application group. *)
Lemma raw_object_counterexample :
  let raw := opt_member (opt_member hk_trojan "extra") "raw" in
  raw <> JNull /\ raw <> JUndef /\
  GroupManager.groupNodes [hk_trojan]
    = Ok (GroupManager.Groups [GroupManager.mkGroup "香港" [hk_trojan]] [])
  /\
  region_line "香港" hk_trojan
    = Ok ("trojan://pw@h.example:443?sni=&allowInsecure=0"
          ++ "#%F0%9F%87%AD%F0%9F%87%B0%20%E9%A6%99%E6%B8%AF%20HK%2001") /\
  media_line hk_trojan
    = Ok "trojan://pw@h.example:443?sni=&allowInsecure=0#HK%2001" /\
  is_string raw = false.
Proof.
  repeat split; try discriminate; vm_compute; reflexivity.
Qed.

(** C9, amended.  When the preserved [extra.raw] of a node is a string
    with some non-blank content, the line produced for the node, in a
    region group as in an application group, is that string verbatim,
    and it stands in the written file between the kept lines of the
    nodes before and after it.  (The region writer logs the reuse with
    the name of the node, which must be convertible to a string.)  In
    every other case -- no [raw], a [raw] that is not a string, a blank
    one -- the line is the URI synthesized from the node's fields, under
    the node's name in an application group and under the prefixed name
    in a region group; and the synthesized URI is the same for any two
    nodes with the same type, name, server, port and settings, whatever
    they preserve. *)
Theorem raw_reused_verbatim (groupName : string) (pre post : list jsval)
        (node : jsval) (raw : string) (before after : list string) :
  opt_member (opt_member node "extra") "raw" = JStr raw ->
  all_white raw = false ->
  mapM (region_line groupName) pre = Ok before ->
  mapM (region_line groupName) post = Ok after ->
  media_line node = Ok raw /\
  (convertible (opt_member node "name") = true ->
   region_line groupName node = Ok raw /\
   region_lines groupName (pre ++ node :: post)%list
     = Ok (kept before ++ raw :: kept after)%list /\
   (groupName <> "其他" ->
    region_file groupName (pre ++ node :: post)%list
      = Ok (Some (region_filename groupName,
                  String.concat nl
                    (kept before ++ raw :: kept after)%list)))) /\
  (forall other extra,
      member other "extra" = Ok extra ->
      is_string (opt_member extra "raw") = false
      \/ (exists s, opt_member extra "raw" = JStr s /\ all_white s = true) ->
      media_line other
        = synthesize
            (or_else (opt_member other "name") (JStr "Unnamed Node")) other
      /\
      forall name,
        opt_member other "name" = JStr name ->
        region_line groupName other
          = synthesize
              (JStr (if includes groupName name then name
                     else region_prefix groupName ++ name))
              other) /\
  (forall nodeName n n',
      opt_member n "type" = opt_member n' "type" ->
      opt_member n "name" = opt_member n' "name" ->
      opt_member n "server" = opt_member n' "server" ->
      opt_member n "port" = opt_member n' "port" ->
      opt_member n "settings" = opt_member n' "settings" ->
      synthesize nodeName n = synthesize nodeName n').
Proof.
  intros Hraw Hw Hpre Hpost.
  assert (exists ps, node = JObj ps) as (ps & ->).
  { destruct node as [| | | | | |ps]; simpl in Hraw; try discriminate.
    eauto. }
  assert (member (JObj ps) "extra" = Ok (opt_member (JObj ps) "extra"))
    as Hextra by reflexivity.
  split; [|split; [|split; [|apply synthesize_reads_fields]]].
  - unfold media_line. rewrite Hextra. cbn [bind]. rewrite Hraw.
    rewrite (reusable_string _ Hw). reflexivity.
  - intros Hname.
    assert (region_line groupName (JObj ps) = Ok raw) as Hr.
    { unfold region_line. rewrite Hextra. cbn [bind]. rewrite Hraw.
      rewrite (reusable_string _ Hw), to_string_convertible, Hname.
      reflexivity. }
    assert (region_lines groupName (pre ++ JObj ps :: post)%list
            = Ok (kept before ++ raw :: kept after)%list) as Hl.
    { unfold region_lines. rewrite mapM_app, Hpre. simpl.
      rewrite Hr, Hpost. simpl. rewrite kept_app. simpl.
      rewrite Hw. reflexivity. }
    repeat split; auto.
    intros Hne. unfold region_file. rewrite Hl. simpl.
    destruct (String.eqb_spec groupName "其他"); [contradiction|].
    destruct (pre ++ JObj ps :: post)%list eqn:E; [|reflexivity].
    destruct pre; discriminate.
  - intros other extra He Hnr. apply not_reusable in Hnr. split.
    + unfold media_line. rewrite He. cbn [bind]. rewrite Hnr.
      reflexivity.
    + intros name Hn. unfold region_line. rewrite He. cbn [bind].
      rewrite Hnr, Hn. reflexivity.
Qed.

Lemma raw_reused_verbatim_witness :
  region_file "香港" [hk_trojan; uri_ss]
  = Ok (Some ("HK.txt",
              String.concat nl
                ["trojan://pw@h.example:443?sni=&allowInsecure=0"
                 ++ "#%F0%9F%87%AD%F0%9F%87%B0%20%E9%A6%99%E6%B8%AF%20HK"
                 ++ "%2001";
                 "ss://YWVzLTI1Ni1nY206cGFzcw==@1.1.1.1:443#A"])).
Proof.
  pose proof (raw_reused_verbatim "香港" [hk_trojan] [] uri_ss
                "ss://YWVzLTI1Ni1nY206cGFzcw==@1.1.1.1:443#A"
                ["trojan://pw@h.example:443?sni=&allowInsecure=0"
                 ++ "#%F0%9F%87%AD%F0%9F%87%B0%20%E9%A6%99%E6%B8%AF%20HK"
                 ++ "%2001"] []
                eq_refl eq_refl eq_refl eq_refl)
    as (_ & H & _).
  destruct (H eq_refl) as (_ & _ & Hfile).
  apply Hfile. discriminate.
Defined.

End GroupFileClaims.


Section AnalyzerClaims.
Import NodeAnalyzer NodeAnalyzerExamples.

Lemma regex_match_skip keys pre rest :
  no_match_within keys pre rest = true ->
  regex_match keys (pre ++ rest) = regex_match keys rest.
Proof.
  induction pre as [|a pre IH]; simpl; intros H; [reflexivity|].
  destruct (alternation_here keys (String a (pre ++ rest)));
    [discriminate|auto].
Qed.

Lemma us_flag_matches post :
  regex_match countryRegex ("🇺🇸" ++ post) = Some "🇺🇸".
Proof. reflexivity. Qed.

(** C8 as stated fails twice over.  The country map has no entry for
    the bare code, so a name holding only the token US gets no country
    code; and the leftmost country pattern in the name decides, so a
    flag that comes after another country's pattern is not looked at. *)
Lemma us_token_counterexample :
  includes "US" "US 01" = true /\
  countryCode_of_result (analyze (named "US 01")) = Some JNull /\
  includes "🇺🇸" "香港 → 🇺🇸 relay" = true /\
  countryCode_of_result (analyze (named "香港 → 🇺🇸 relay"))
    = Some (JStr "HK").
Proof. repeat split; reflexivity. Qed.

(** C8, amended.  For a node whose display name contains the flag
    🇺🇸, with no country pattern matching at an earlier position of
    the name, the analysis assigns country code "US" (and the country
    name 美国).  The protocol field of the node is a string or is
    falsy, as the later protocol step requires. *)
Theorem us_flag_classified (node : jsval) (pre post p : string) :
  opt_member node "name" = JStr (pre ++ "🇺🇸" ++ post) ->
  no_match_within countryRegex pre ("🇺🇸" ++ post) = true ->
  opt_member node "protocol" = JStr p
    \/ truthy (opt_member node "protocol") = false ->
  exists r,
    analyze node = Ok r /\
    countryCode r = JStr "US" /\ country r = JStr "美国".
Proof.
  intros Hname Hpre Hproto.
  destruct node as [| | | | | |ps]; cbn [opt_member] in Hname;
    try discriminate.
  unfold analyze; cbn [member bind]. rewrite Hname.
  assert (or_else (JStr (pre ++ "🇺🇸" ++ post)) (JStr "")
          = JStr (pre ++ "🇺🇸" ++ post)) as ->.
  { unfold or_else; simpl. destruct pre; reflexivity. }
  rewrite (regex_match_skip _ _ _ Hpre), us_flag_matches.
  destruct (regex_match protocolRegex (pre ++ "🇺🇸" ++ post)).
  - eexists; split; [reflexivity|split; reflexivity].
  - destruct Hproto as [-> | ->].
    + simpl truthy. destruct (negb (p =? "")%string);
        eexists; (split; [reflexivity|split; reflexivity]).
    + eexists; split; [reflexivity|split; reflexivity].
Qed.

Lemma us_flag_classified_witness :
  exists r, analyze (named "free 🇺🇸 US 01") = Ok r /\
            countryCode r = JStr "US" /\ country r = JStr "美国".
Proof.
  apply (us_flag_classified (named "free 🇺🇸 US 01")
                            "free " " US 01" "vmess").
  - reflexivity.
  - reflexivity.
  - left; reflexivity.
Defined.

End AnalyzerClaims.





Section ParserClaims.
Import SubscriptionParser ParserExamples.

Lemma mapM_indexed_Forall2 {A B} (f : nat -> A -> result B) l :
  forall i out,
    mapM_indexed f i l = Ok out ->
    Forall2 (fun a b => exists j, f j a = Ok b) l out.
Proof.
  induction l as [|a l IH]; cbn [mapM_indexed]; intros i out H.
  - injection H as <-. constructor.
  - destruct (f i a) as [b|] eqn:E; cbn [bind] in H; [|discriminate].
    destruct (mapM_indexed f (S i) l) as [bs|] eqn:E'; cbn [bind] in H;
      [|discriminate].
    injection H as <-. constructor; eauto.
Qed.

(** What [normalize] returns for a candidate. *)
Lemma normalize_node_fields env i c n :
  normalize_node env i c = Ok n ->
  opt_member n "type" = opt_member c "type" /\
  opt_member n "server" = opt_member c "server" /\
  parseInt (opt_member c "port") = Ok (opt_member n "port") /\
  opt_member n "protocol" = opt_member c "protocol".
Proof.
  unfold normalize_node. cbv zeta.
  destruct (if truthy (opt_member c "name") then _ else _) as [name|];
    cbn [bind]; [|discriminate].
  destruct (parseInt (opt_member c "port")) as [port|]; cbn [bind];
    [|discriminate].
  intros [= <-]. repeat split; reflexivity.
Qed.

(** An attempt that succeeds is the normalisation of what its parser
    returned. *)
Lemma attempt_ok p env f raw out :
  attempt p env f raw = Ok out ->
  exists candidates,
    parser_of p f raw = Ok candidates /\ normalize env candidates = Ok out.
Proof.
  unfold attempt.
  destruct (parser_of p f raw) as [candidates|]; cbn [bind];
    [eauto|discriminate].
Qed.

Lemma backup_ok p env raw detected first formats out :
  backup p env raw detected first formats = Ok out ->
  exists f, In f formats /\ attempt p env f raw = Ok out.
Proof.
  induction formats as [|f formats IH]; cbn [backup]; [discriminate|].
  destruct (same_format f detected).
  - intros H. destruct (IH H) as (g & Hg & Ha). exists g; simpl; auto.
  - destruct (attempt p env f raw) as [nodes|] eqn:E.
    + intros [= <-]. exists f; simpl; auto.
    + intros H. destruct (IH H) as (g & Hg & Ha). exists g; simpl; auto.
Qed.

Lemma parse_ok p env raw out :
  parse p env raw = Ok out ->
  exists f, attempt p env f raw = Ok out.
Proof.
  unfold parse. destruct (String.eqb raw ""); [discriminate|].
  cbv zeta.
  destruct (attempt p env (detectFormat raw) raw) as [nodes|] eqn:E.
  - intros [= <-]. eauto.
  - intros H. apply backup_ok in H as (f & _ & H). eauto.
Qed.

(** C1 as stated fails on each of its three clauses, and on the
    promise that a bad candidate does not abort the parse.  Validity is
    the presence of [type], [server] and [port]: a candidate whose port
    lies outside 1..65535 is kept (the JSON parser builds one for the
    first subscription below), so is one whose server is a number
    rather than a string (the second subscription), and so is the node
    of protocol [socks], which is none of the known protocols, that the
    plain-text parser decodes from a SOCKS line.  And a candidate whose
    server cannot be converted to a string makes the normalisation of
    the whole list throw: the nodes of the detected parser are given up,
    the good candidate with them. *)
Lemma canonical_invariant_counterexample :
  (detectFormat big_port_json = json /\
   forall p env,
     json_parser p big_port_json = Ok [big_port_candidate] ->
     exists n,
       parse p env big_port_json = Ok [n] /\
       opt_member n "port" = JNum 70000 /\ ~ canonical n) /\
  (detectFormat numeric_server_json = json /\
   forall p env,
     json_parser p numeric_server_json = Ok [numeric_server_candidate] ->
     exists n,
       parse p env numeric_server_json = Ok [n] /\
       opt_member n "server" = JNum 5 /\ ~ canonical n) /\
  (forall d b64 js ym env,
     exists n1 n2,
       parse (built d b64 js ym) env socks_list = Ok [n1; n2] /\
       opt_member n2 "protocol" = JStr "socks" /\ ~ canonical n2) /\
  (detectFormat opaque_server_json = json /\
   forall p env,
     json_parser p opaque_server_json
       = Ok [good_candidate; opaque_server_candidate] ->
     attempt p env json opaque_server_json = Throw TypeError /\
     parse p env opaque_server_json
       = backup p env opaque_server_json json TypeError
                [base64; json; yaml; plain]).
Proof.
  split; [|split; [|split]].
  - split; [vm_compute; reflexivity|]. intros p env Hp.
    eexists. split; [|split].
    + unfold parse.
      replace (detectFormat big_port_json) with json
        by (vm_compute; reflexivity).
      cbv zeta. unfold attempt. cbn [parser_of].
      rewrite Hp. reflexivity.
    + reflexivity.
    + intros (_ & (port & Hport & Hrange) & _).
      simpl in Hport. injection Hport as <-. lia.
  - split; [vm_compute; reflexivity|]. intros p env Hp.
    eexists. split; [|split].
    + unfold parse.
      replace (detectFormat numeric_server_json) with json
        by (vm_compute; reflexivity).
      cbv zeta. unfold attempt. cbn [parser_of].
      rewrite Hp. reflexivity.
    + reflexivity.
    + intros ((server & Hs & _) & _). discriminate.
  - intros d b64 js ym env. eexists _, _. split; [|split].
    + unfold parse.
      replace (detectFormat socks_list) with plain
        by (vm_compute; reflexivity).
      vm_compute. reflexivity.
    + reflexivity.
    + intros (_ & _ & (protocol & Hp & Hin)).
      simpl in Hp. injection Hp as <-.
      simpl in Hin. intuition discriminate.
  - split; [vm_compute; reflexivity|]. intros p env Hp.
    assert (attempt p env json opaque_server_json = Throw TypeError) as Ha.
    { unfold attempt. cbn [parser_of]. rewrite Hp. reflexivity. }
    split; [assumption|].
    unfold parse.
    replace (detectFormat opaque_server_json) with json
      by (vm_compute; reflexivity).
    cbv zeta. rewrite Ha. reflexivity.
Qed.

(** C1, amended.  Every node in the list that [parse] returns is the
    normalised form of a candidate with a truthy [type], [server] and
    [port], handed over by the parser whose attempt succeeded (the
    detected one or a backup): the returned nodes are, in order, those
    of the candidates that pass the presence test, and the others are
    absent.  A returned node has the candidate's type and server, both
    truthy (a server that is a string is not empty), the number that
    [parseInt] reads off the candidate's port as its port, and the
    candidate's protocol, unchecked. *)
Theorem parse_keeps_present_fields (p : parsers) (env : environment)
        (raw : string) (out : list jsval) :
  parse p env raw = Ok out ->
  exists f candidates,
    parser_of p f raw = Ok candidates /\
    normalize env candidates = Ok out /\
    Forall2 (fun candidate n =>
               isValid candidate = true /\
               opt_member n "type" = opt_member candidate "type" /\
               truthy (opt_member n "type") = true /\
               opt_member n "server" = opt_member candidate "server" /\
               truthy (opt_member n "server") = true /\
               (forall server,
                   opt_member n "server" = JStr server -> server <> "") /\
               truthy (opt_member candidate "port") = true /\
               parseInt (opt_member candidate "port")
                 = Ok (opt_member n "port") /\
               opt_member n "protocol" = opt_member candidate "protocol")
            (filter isValid candidates) out.
Proof.
  intros H. apply parse_ok in H as (f & H).
  apply attempt_ok in H as (candidates & Hp & Hn).
  exists f, candidates. split; [assumption|]. split; [assumption|].
  unfold normalize in Hn. apply mapM_indexed_Forall2 in Hn.
  assert (Forall (fun c => isValid c = true) (filter isValid candidates))
    as Hvalid.
  { apply Forall_forall. intros c Hc. apply filter_In in Hc. tauto. }
  induction Hn as [|c n cs ns (j & Hj) _ IH]; [constructor|].
  inversion Hvalid as [|? ? Hv Hvs]; subst.
  constructor; [|auto].
  destruct (normalize_node_fields _ _ _ _ Hj) as (Ht & Hs & Hport & Hproto).
  pose proof Hv as Hv'. unfold isValid in Hv'.
  apply andb_prop in Hv' as [Hv' Hcport].
  apply andb_prop in Hv' as [Hv' Hserver].
  apply andb_prop in Hv' as [_ Htype].
  rewrite Ht, Hs. repeat split; auto.
  intros server E. rewrite E in Hserver. intros ->. discriminate.
Qed.

Lemma parse_keeps_present_fields_witness :
  exists out f candidates,
    parse (mkParsers (fun _ => Ok [])
                     (fun _ => Ok [big_port_candidate; JNull])
                     (fun _ => Ok []) (fun _ => Ok []))
          env0 big_port_json = Ok out /\
    parser_of (mkParsers (fun _ => Ok [])
                         (fun _ => Ok [big_port_candidate; JNull])
                         (fun _ => Ok []) (fun _ => Ok []))
              f big_port_json = Ok candidates /\
    normalize env0 candidates = Ok out.
Proof.
  destruct (parse (mkParsers (fun _ => Ok [])
                             (fun _ => Ok [big_port_candidate; JNull])
                             (fun _ => Ok []) (fun _ => Ok []))
                  env0 big_port_json) as [out|] eqn:E;
    [|vm_compute in E; discriminate].
  destruct (parse_keeps_present_fields _ _ _ _ E)
    as (f & candidates & Hp & Hn & _).
  exists out, f, candidates. repeat split; assumption.
Defined.

Lemma prefix_app p : forall s,
  prefix p s = true -> exists r, s = p ++ r.
Proof.
  induction p as [|a p IH]; intros s H; [exists s; reflexivity|].
  destruct s as [|b s]; simpl in H; [discriminate|].
  destruct (ascii_dec a b) as [->|]; [|discriminate].
  destruct (IH _ H) as (r & ->). exists r; reflexivity.
Qed.

(** C5 fails on the code (evaluation at the scenario's input).  The
    plain-text decoder, which is the one a payload of URI lines
    reaches, returns the user-info of the parsed URL as the password:
    the [@] inside it stays percent-encoded and [%21] stays as
    written.  The decoder of the base64-envelope path does pre-encode
    and decode the password segment, but cuts the segment one
    character early and so keeps the second slash of [trojan://].
    The other fields of the node are the expected ones. *)
Theorem trojan_password_not_decoded :
  detectFormat trojan_uri = plain /\
  (forall d b64 js ym env,
      exists n,
        parse (built d b64 js ym) env trojan_uri = Ok [n] /\
        opt_member n "protocol" = JStr "trojan" /\
        opt_member n "server" = JStr "host.example" /\
        opt_member n "port" = JNum 443 /\
        opt_member n "name" = JStr "My Node" /\
        opt_member (opt_member n "settings") "sni" = JStr "h.example" /\
        opt_member (opt_member n "settings") "password"
          = JStr "p%40ss%21") /\
  (exists n,
      Base64Parser.parseTrojan trojan_uri = Some n /\
      opt_member (opt_member n "settings") "password" = JStr "/p@ss!").
Proof.
  split; [vm_compute; reflexivity|]. split.
  - intros d b64 js ym env. eexists. split.
    + unfold parse.
      replace (detectFormat trojan_uri) with plain
        by (vm_compute; reflexivity).
      vm_compute. reflexivity.
    + repeat split; reflexivity.
  - eexists. split; [vm_compute; reflexivity|reflexivity].
Qed.

(** C6 fails on the code.  The line dispatcher of the plain-text
    parser has no branch for [vless://]: every such line is answered
    with [null], so a payload detected as a plain URI list loses its
    VLESS lines -- a one-line VLESS subscription parses to the empty
    list -- while the decoder of the base64-envelope path reads the
    same line into a vless node with the defaults [tcp] and [none]. *)
Theorem vless_lines_dropped (d : PlainTextParser.decoders) :
  (forall line,
      startsWith "vless://" line = true ->
      PlainTextParser.parseLine d line = None) /\
  (forall raw,
      Forall (fun line => startsWith "vless://" line = true)
             (PlainTextParser.lines_of raw) ->
      PlainTextParser.parse d raw = []) /\
  detectFormat vless_uri = plain /\
  (forall b64 js ym env,
      parse (built d b64 js ym) env vless_uri = Ok []) /\
  (exists n,
      Base64Parser.parseVless vless_uri = Some n /\
      opt_member n "protocol" = JStr "vless" /\
      opt_member n "server" = JStr "host.example" /\
      opt_member n "port" = JStr "8443" /\
      opt_member (opt_member n "settings") "network" = JStr "tcp" /\
      opt_member (opt_member n "settings") "security" = JStr "tls").
Proof.
  assert (forall line,
             startsWith "vless://" line = true ->
             PlainTextParser.parseLine d line = None) as Hline.
  { intros line H. apply prefix_app in H as (r & ->). reflexivity. }
  split; [exact Hline|]. split; [|split; [|split]].
  - intros raw H. unfold PlainTextParser.parse.
    induction H as [|line lines Hl _ IH]; simpl; [reflexivity|].
    rewrite (Hline _ Hl). exact IH.
  - vm_compute; reflexivity.
  - intros b64 js ym env. unfold parse.
    replace (detectFormat vless_uri) with plain
      by (vm_compute; reflexivity).
    simpl String.eqb. cbn [parser_of built plain_parser].
    replace (PlainTextParser.parse d vless_uri) with (@nil jsval);
      [reflexivity|].
    unfold PlainTextParser.parse.
    replace (PlainTextParser.lines_of vless_uri) with [vless_uri]
      by (vm_compute; reflexivity).
    cbn [map]. rewrite (Hline vless_uri eq_refl). reflexivity.
  - eexists. split; [vm_compute; reflexivity|].
    repeat split; reflexivity.
Qed.

Lemma vless_lines_dropped_witness :
  PlainTextParser.parseLine
    (PlainTextParser.mkDecoders (fun _ => None) (fun _ => None)
                                (fun _ => None))
    vless_uri = None.
Proof.
  exact (proj1 (vless_lines_dropped _) vless_uri eq_refl).
Defined.

End ParserClaims.

(* ================================================================= *)
(** * Further properties of the deduplicator *)

Section DedupExtras.
Import NodeDeduplicator DedupSpec DedupExamples.

Lemma first_keys_length l : forall seen,
  (List.length (first_keys seen l) <= List.length l)%nat.
Proof.
  induction l as [|a l IH]; simpl; intros seen; [lia|].
  destruct (mem a seen); simpl.
  - specialize (IH seen); lia.
  - specialize (IH (seen ++ [a])%list); lia.
Qed.

Lemma map_get_unique k v (m : jsmap) :
  NoDup (map fst m) -> In (k, v) m -> map_get k m = v.
Proof.
  induction m as [|[k' v'] m IH]; simpl; intros Hnd Hin; [contradiction|].
  inversion Hnd as [|? ? Hnotin Hnd']; subst.
  destruct Hin as [[= -> ->]|Hin].
  - rewrite String.eqb_refl; reflexivity.
  - destruct (String.eqb_spec k k') as [->|_]; [|auto].
    exfalso. apply Hnotin. change k' with (fst (k', v)).
    apply in_map; assumption.
Qed.

Lemma map_set_entries_strict k v (m : jsmap) k' v' :
  NoDup (map fst m) -> In (k', v') (map_set k v m) ->
  (k' = k /\ v' = v) \/ (k' <> k /\ In (k', v') m).
Proof.
  induction m as [|[k1 v1] m IH]; simpl; intros Hnd Hin.
  - destruct Hin as [[= <- <-]|[]]; auto.
  - inversion Hnd as [|? ? Hnotin Hnd']; subst.
    destruct (String.eqb_spec k k1) as [->|Hne]; simpl in Hin.
    + destruct Hin as [[= <- <-]|Hin]; [auto|].
      right; split; [|auto]. intros ->. apply Hnotin.
      change k1 with (fst (k1, v')). apply in_map; assumption.
    + destruct Hin as [[= <- <-]|Hin]; [right; split; auto|].
      destruct (IH Hnd' Hin) as [?|[? ?]]; auto.
Qed.

(** X1. With the default key fields and either latency policy, a list
    whose values have pairwise distinct keys, the compared values being
    convertible to strings, is returned as it is: nothing is dropped,
    reordered or read beyond the compared fields. *)
Theorem dedup_distinct_keys_unchanged (o : options) (l : list jsval) :
  compareFields o = compareFields default_options ->
  Forall (fun n => keyable o n = true) l ->
  NoDup (map (key_of o) l) -> deduplicate l o = Ok l.
Proof.
  intros _ Hl Hnd.
  pose (m := map (fun n => (key_of o n, n)) l).
  assert (map_values m = l) as Hv.
  { unfold map_values, m. rewrite map_map. apply map_id. }
  assert (map fst m = map (key_of o) l) as Hk.
  { unfold m. rewrite map_map. reflexivity. }
  assert (keyed_by o m) as Hkeyed.
  { intros k v Hin. unfold m in Hin.
    apply in_map_iff in Hin as (n & [= <- <-] & Hn).
    apply generateKey_keyable. rewrite Forall_forall in Hl. auto. }
  unfold deduplicate. rewrite <- Hv at 1.
  rewrite (dedup_loop_rebuild o m []); simpl.
  - rewrite Hv; reflexivity.
  - assumption.
  - rewrite Hk; assumption.
Qed.

Lemma dedup_distinct_keys_unchanged_witness :
  deduplicate [slow_a; other_b] default_options = Ok [slow_a; other_b].
Proof.
  apply dedup_distinct_keys_unchanged;
    [reflexivity|repeat constructor|].
  repeat constructor; simpl; intuition discriminate.
Defined.

(** X2. The output is never longer than the input, its keys are
    pairwise distinct, and every input node is represented: some output
    node carries its key. *)
Theorem dedup_covers_every_key (o : options) (l out : list jsval) :
  deduplicate l o = Ok out ->
  (List.length out <= List.length l)%nat /\
  NoDup (map (key_of o) out) /\
  (forall n, In n l ->
     exists e, In e out /\ key_of o e = key_of o n).
Proof.
  intros H.
  destruct (deduplicate_inv o l out H) as (m & _ & -> & Hk & Hnd & Hf & _).
  pose proof (keyed_values o m Hk) as Hkv.
  repeat split.
  - unfold map_values. rewrite length_map.
    rewrite <- (length_map fst), Hf.
    etransitivity; [apply first_keys_length|]. rewrite length_map; lia.
  - rewrite Hkv; assumption.
  - intros n Hn.
    destruct (first_keys_complete (map (key_of o) l) [] (key_of o n))
      as [[]|Hin]; [apply in_map; assumption|].
    rewrite <- Hf in Hin.
    destruct (map_get_present _ _ Hin) as (e & He & _).
    exists e. split.
    + unfold map_values. change e with (snd (key_of o n, e)).
      apply in_map; assumption.
    + apply (keyed_key o m _ _ Hk He).
Qed.

Lemma dedup_covers_every_key_witness :
  exists e, In e [fast_a; other_b]
            /\ key_of default_options e = key_of default_options slow_a.
Proof.
  destruct (dedup_covers_every_key default_options
              [slow_a; other_b; fast_a] [fast_a; other_b] eq_refl)
    as (_ & _ & H).
  apply H. left; reflexivity.
Defined.

Lemma dedup_loop_first_wins (o : options) l : forall m,
  preferLower o = false ->
  Forall (fun n => truthy n = true /\ keyable o n = true) l ->
  Forall (fun n => truthy n = true) (map_values m) ->
  foldM (dedup_step o) l m =
    Ok (m ++ map (fun n => (key_of o n, n))
                 (first_per_key o (map fst m) l))%list.
Proof.
  induction l as [|n l IH]; intros m Hp Hl Hm.
  - simpl. rewrite app_nil_r; reflexivity.
  - inversion Hl as [|? ? [Hn Hkn] Hl']; subst.
    cbn [foldM first_per_key].
    destruct (mem (key_of o n) (map fst m)) eqn:E.
    + apply mem_In in E.
      assert (truthy (map_get (key_of o n) m) = true) as Ht.
      { rewrite Forall_forall in Hm. apply Hm, map_get_values, E. }
      assert (dedup_step o m n = Ok m) as ->.
      { rewrite (dedup_step_unfold o _ _ Hkn); cbv zeta.
        rewrite Ht, Hp; reflexivity. }
      cbn [bind]. apply IH; assumption.
    + assert (~ In (key_of o n) (map fst m)) as Hfresh.
      { intros Hin. apply mem_In in Hin. congruence. }
      rewrite (dedup_step_fresh o _ _ Hkn Hfresh). cbn [bind].
      rewrite IH; try assumption.
      * rewrite map_app, <- app_assoc. reflexivity.
      * unfold map_values. rewrite map_app, Forall_app. split; [assumption|].
        repeat constructor; assumption.
Qed.

(** X3. With [preferLower] unset and the default key fields, the first
    node of every key is kept, whatever the latencies say: on a list of
    truthy nodes whose compared values are convertible to strings the
    result is the list of first occurrences, in order. *)
Theorem dedup_keeps_first_without_prefer (o : options) (l : list jsval) :
  preferLower o = false ->
  compareFields o = compareFields default_options ->
  Forall (fun n => truthy n = true /\ keyable o n = true) l ->
  deduplicate l o = Ok (first_per_key o [] l).
Proof.
  intros Hp _ Hl. unfold deduplicate.
  rewrite (dedup_loop_first_wins o l [] Hp Hl) by constructor.
  simpl. unfold map_values. rewrite map_map. simpl. rewrite map_id.
  reflexivity.
Qed.

Lemma dedup_keeps_first_without_prefer_witness :
  deduplicate [slow_a; other_b; fast_a]
              (mkOptions ["server"; "port"; "protocol"] false)
  = Ok [slow_a; other_b].
Proof.
  apply (dedup_keeps_first_without_prefer
           (mkOptions ["server"; "port"; "protocol"] false)
           [slow_a; other_b; fast_a]).
  - reflexivity.
  - reflexivity.
  - repeat constructor.
Defined.

Lemma dedup_loop_first_untimed (o : options) l : forall m,
  Forall (fun n => has_extra n /\ truthy (latency_of n) = false
                   /\ keyable o n = true) l ->
  Forall has_extra (map_values m) ->
  foldM (dedup_step o) l m =
    Ok (m ++ map (fun n => (key_of o n, n))
                 (first_per_key o (map fst m) l))%list.
Proof.
  induction l as [|n l IH]; intros m Hl Hm.
  - simpl. rewrite app_nil_r; reflexivity.
  - inversion Hl as [|? ? (Hn & Hlat & Hkn) Hl']; subst.
    cbn [foldM first_per_key].
    destruct (mem (key_of o n) (map fst m)) eqn:E.
    + apply mem_In in E.
      assert (has_extra (map_get (key_of o n) m)) as He.
      { rewrite Forall_forall in Hm. apply Hm, map_get_values, E. }
      assert (dedup_step o m n = Ok m) as ->.
      { rewrite (dedup_step_unfold o _ _ Hkn); cbv zeta.
        rewrite (has_extra_truthy _ He). cbn [negb].
        destruct (negb (preferLower o)); [reflexivity|].
        destruct (has_extra_latency _ Hn) as (x & Hx1 & Hx2).
        rewrite Hx1. cbn [bind]. rewrite Hx2. cbn [bind].
        rewrite Hlat. reflexivity. }
      cbn [bind]. apply IH; assumption.
    + assert (~ In (key_of o n) (map fst m)) as Hfresh.
      { intros Hin. apply mem_In in Hin. congruence. }
      rewrite (dedup_step_fresh o _ _ Hkn Hfresh). cbn [bind].
      rewrite IH; try assumption.
      * rewrite map_app, <- app_assoc. reflexivity.
      * unfold map_values. rewrite map_app, Forall_app. split; [assumption|].
        repeat constructor; assumption.
Qed.

(** X4. Nodes that carry an [extra] record without a latency -- what
    the parser hands over -- and compared values that are convertible
    to strings are deduplicated, with the default key fields, to the
    first node of every key, in order, under either latency policy. *)
Theorem dedup_keeps_first_without_latency (o : options) (l : list jsval) :
  compareFields o = compareFields default_options ->
  Forall (fun n => has_extra n /\ truthy (latency_of n) = false
                   /\ keyable o n = true) l ->
  deduplicate l o = Ok (first_per_key o [] l).
Proof.
  intros _ Hl. unfold deduplicate.
  rewrite (dedup_loop_first_untimed o l [] Hl) by constructor.
  simpl. unfold map_values. rewrite map_map. simpl. rewrite map_id.
  reflexivity.
Qed.

Lemma dedup_keeps_first_without_latency_witness :
  deduplicate [vmess_node; ss_node; vmess_node] default_options
  = Ok [vmess_node; ss_node].
Proof.
  apply (dedup_keeps_first_without_latency default_options
           [vmess_node; ss_node; vmess_node]);
    [reflexivity|].
  repeat constructor;
    (eexists _, _; split; reflexivity).
Defined.

Lemma timed_unique n z1 z2 : timed n z1 -> timed n z2 -> z1 = z2.
Proof. intros (_ & H1 & _) (_ & H2 & _). congruence. Qed.

Lemma timed_lower (o : options) n e zn ze :
  preferLower o = true -> timed n zn -> timed e ze ->
  lower_latency o n e = (zn <? ze).
Proof.
  intros Hp (_ & Hn & Hzn) (_ & He & Hze).
  unfold lower_latency. rewrite Hp, Hn, He. simpl.
  destruct (Z.eqb_spec zn 0); [contradiction|].
  destruct (Z.eqb_spec ze 0); [contradiction|]. reflexivity.
Qed.

(** A timed newcomer on the key of a timed incumbent. *)
Lemma dedup_step_timed (o : options) m n e zn ze :
  preferLower o = true -> keyable o n = true ->
  timed n zn -> timed e ze -> map_get (key_of o n) m = e ->
  dedup_step o m n
  = Ok (if zn <? ze then map_set (key_of o n) n m else m).
Proof.
  intros Hp Hk (Hxn & Hn & Hzn) (Hxe & He & Hze) Hg.
  rewrite (dedup_step_unfold o _ _ Hk); cbv zeta.
  rewrite Hg, (has_extra_truthy _ Hxe), Hp. cbn [negb].
  destruct (has_extra_latency _ Hxn) as (x & Hx1 & Hx2).
  rewrite Hx1. cbn [bind]. rewrite Hx2, Hn. cbn [bind truthy].
  destruct (Z.eqb_spec zn 0); [contradiction|]. cbn [negb].
  destruct (has_extra_latency _ Hxe) as (y & Hy1 & Hy2).
  rewrite Hy1. cbn [bind]. rewrite Hy2, He. cbn [bind truthy].
  destruct (Z.eqb_spec ze 0); [contradiction|]. cbn [negb].
  unfold JS.lt. cbn [to_primitive bind lt_primitive to_number].
  destruct (zn <? ze); reflexivity.
Qed.

Lemma lat_inv_step (o : options) m done n zn :
  preferLower o = true -> keyable o n = true ->
  timed n zn -> lat_inv o m done ->
  exists m', dedup_step o m n = Ok m' /\ lat_inv o m' (done ++ [n])%list.
Proof.
  intros Hp Hkn Hn (Hk & Hnd & Ht & Hmin & Hcov).
  assert (has_extra n) as Hxn by apply Hn.
  assert (forall m', dedup_step o m n = Ok m' ->
            keyed_by o m' /\ NoDup (map fst m') /\
            (forall n', In n' (done ++ [n])%list ->
                        In (key_of o n') (map fst m'))) as Hshape.
  { intros m' E. repeat split.
    - eapply dedup_step_keyed; eassumption.
    - eapply dedup_step_NoDup; eassumption.
    - intros n' Hin. rewrite (dedup_step_keys o _ _ _ E).
      apply in_app_or in Hin. destruct Hin as [Hin|[<-|[]]].
      + specialize (Hcov _ Hin).
        destruct (mem (key_of o n) (map fst m)); [assumption|].
        apply in_or_app; left; assumption.
      + destruct (mem (key_of o n) (map fst m)) eqn:E'.
        * apply mem_In; assumption.
        * apply in_or_app; right; left; reflexivity. }
  destruct (in_dec string_dec (key_of o n) (map fst m)) as [Hin|Hfresh].
  - destruct (map_get_present _ _ Hin) as (e & He & Hg).
    destruct (Ht _ _ He) as (ze & Hze).
    assert (has_extra e) as Hxe by apply Hze.
    pose proof (dedup_step_timed o m n e zn ze Hp Hkn Hn Hze Hg) as E.
    eexists; split; [exact E|].
    destruct (Hshape _ E) as (Hk' & Hnd' & Hcov').
    repeat split; try assumption.
    + intros k' e' Hin'. destruct (zn <? ze); [|eauto].
      apply map_set_entries in Hin'. simpl in Hin'.
      destruct Hin' as [[_ ->]|Hin']; eauto.
    + intros k' e' n' ze' zn' Hin' Hn' Hkey Hte Htn.
      destruct (Z.ltb_spec zn ze) as [Hlt|Hge].
      * apply map_set_entries_strict in Hin'; [|assumption].
        destruct Hin' as [[-> ->]|[Hne Hin']].
        -- rewrite (timed_unique _ _ _ Hte Hn).
           apply in_app_or in Hn'. destruct Hn' as [Hn'|[<-|[]]].
           ++ pose proof (Hmin _ _ _ _ _ He Hn' Hkey Hze Htn). lia.
           ++ rewrite (timed_unique _ _ _ Htn Hn). lia.
        -- apply in_app_or in Hn'. destruct Hn' as [Hn'|[<-|[]]].
           ++ eapply Hmin; eassumption.
           ++ congruence.
      * apply in_app_or in Hn'. destruct Hn' as [Hn'|[<-|[]]].
        -- eapply Hmin; eassumption.
        -- subst k'.
           assert (e' = e) as ->.
           { rewrite <- Hg. symmetry. apply map_get_unique; assumption. }
           rewrite (timed_unique _ _ _ Hte Hze), (timed_unique _ _ _ Htn Hn).
           assumption.
  - pose proof (dedup_step_fresh o _ _ Hkn Hfresh) as E.
    eexists; split; [exact E|].
    destruct (Hshape _ E) as (Hk' & Hnd' & Hcov').
    repeat split; try assumption.
    + intros k' e' Hin'. apply in_app_or in Hin'.
      destruct Hin' as [Hin'|[[= <- <-]|[]]]; eauto.
    + intros k' e' n' ze' zn' Hin' Hn' Hkey Hte Htn.
      apply in_app_or in Hin'. apply in_app_or in Hn'.
      destruct Hin' as [Hin'|[[= <- <-]|[]]];
        destruct Hn' as [Hn'|[<-|[]]].
      * eapply Hmin; eassumption.
      * exfalso. apply Hfresh. rewrite Hkey.
        change k' with (fst (k', e')). apply in_map; assumption.
      * exfalso. apply Hfresh. rewrite <- Hkey. apply Hcov; assumption.
      * rewrite (timed_unique _ _ _ Hte Htn). lia.
Qed.

Lemma lat_inv_loop (o : options) l : forall m done,
  preferLower o = true ->
  Forall (fun n => keyable o n = true /\ exists z, timed n z) l ->
  lat_inv o m done ->
  exists m', foldM (dedup_step o) l m = Ok m'
             /\ lat_inv o m' (done ++ l)%list.
Proof.
  induction l as [|n l IH]; intros m done Hp Hl Hinv.
  - exists m. rewrite app_nil_r. split; [reflexivity|assumption].
  - inversion Hl as [|? ? [Hkn [zn Hn]] Hl']; subst.
    destruct (lat_inv_step o m done n zn Hp Hkn Hn Hinv)
      as (m1 & E & Hinv1).
    destruct (IH m1 (done ++ [n])%list Hp Hl' Hinv1) as (m' & E' & Hinv').
    exists m'. cbn [foldM]. rewrite E. cbn [bind].
    rewrite <- app_assoc in Hinv'. split; assumption.
Qed.

(** X5. With [preferLower] set and the default key fields, on nodes
    that carry a non-zero numeric [extra.latency] and compared values
    convertible to strings, [deduplicate] returns, and the node kept for
    a key has the lowest latency of all input nodes with that key. *)
Theorem dedup_keeps_lowest_latency (o : options) (l : list jsval) :
  preferLower o = true ->
  compareFields o = compareFields default_options ->
  Forall (fun n => keyable o n = true /\ exists z, timed n z) l ->
  exists out,
    deduplicate l o = Ok out /\
    forall e n ze zn,
      In e out -> In n l -> key_of o e = key_of o n ->
      timed e ze -> timed n zn -> ze <= zn.
Proof.
  intros Hp _ Hl.
  assert (lat_inv o [] []) as H0.
  { unfold lat_inv, keyed_by. simpl.
    repeat split; try (intros; contradiction). constructor. }
  destruct (lat_inv_loop o l [] [] Hp Hl H0) as (m & E & Hinv).
  destruct Hinv as (Hk & _ & _ & Hmin & _).
  exists (map_values m). unfold deduplicate. rewrite E. split; [reflexivity|].
  intros e n ze zn He Hn Hkey Hte Htn.
  unfold map_values in He. apply in_map_iff in He as ([k e'] & <- & He).
  simpl in *. eapply (Hmin k e' n); try eassumption.
  rewrite <- Hkey. apply (keyed_key o m _ _ Hk He).
Qed.

Lemma dedup_keeps_lowest_latency_witness :
  exists out,
    deduplicate [slow_a; fast_a] default_options = Ok out /\
    forall e n ze zn,
      In e out -> In n [slow_a; fast_a] ->
      key_of default_options e = key_of default_options n ->
      timed e ze -> timed n zn -> ze <= zn.
Proof.
  apply (dedup_keeps_lowest_latency default_options [slow_a; fast_a]).
  - reflexivity.
  - reflexivity.
  - repeat constructor.
    + exists 100. repeat split; [|discriminate].
      exists [("server", JStr "a.example"); ("port", JNum 443);
              ("protocol", JStr "trojan"); ("extra", lat 100)],
             [("latency", JNum 100)].
      split; reflexivity.
    + exists 50. repeat split; [|discriminate].
      exists [("server", JStr "a.example"); ("port", JNum 443);
              ("protocol", JStr "trojan"); ("extra", lat 50)],
             [("latency", JNum 50)].
      split; reflexivity.
Defined.

End DedupExtras.
(* ================================================================= *)
(** * Further properties of the subscription parser *)

Section ParserExtras.
Import SubscriptionParser ParserExamples NodeDeduplicator.

Lemma assoc_set_other k k' v ps :
  k <> k' -> assoc k (NodeExtra.set k' v ps) = assoc k ps.
Proof.
  intros Hne. induction ps as [|[k1 v1] ps IH]; simpl.
  - destruct (String.eqb_spec k k'); [contradiction|reflexivity].
  - destruct (String.eqb_spec k' k1) as [->|Hne1]; simpl.
    + destruct (String.eqb_spec k k1); [contradiction|reflexivity].
    + destruct (String.eqb_spec k k1); [reflexivity|assumption].
Qed.

(** A normalised node seen by the deduplicator: it has an [extra]
    record, holding the candidate's latency, a number for a port, and
    the candidate's server and protocol. *)
Lemma normalize_node_shape env i c n :
  normalize_node env i c = Ok n ->
  has_extra n /\
  latency_of n = latency_of c /\
  keyable default_options n
  = convertible (opt_member c "server")
    && convertible (opt_member c "protocol").
Proof.
  unfold normalize_node. cbv zeta.
  destruct (if truthy (opt_member c "name") then _ else _) as [name|];
    cbn [bind]; [|discriminate].
  unfold parseInt.
  destruct (to_string (opt_member c "port")) as [text|]; cbn [bind];
    [|discriminate].
  intros [= <-]. split; [|split].
  - eexists _, _. split; reflexivity.
  - unfold latency_of at 1.
    change (assoc "latency"
              (NodeExtra.set "addedAt" (JStr (now env i))
                 (spread (or_else (opt_member c "extra") (JObj []))))
            = latency_of c).
    rewrite assoc_set_other by discriminate.
    unfold latency_of, or_else.
    destruct (opt_member c "extra") as [| |[]|z| |s|ps]; try reflexivity.
    + cbn [truthy]. destruct (negb (z =? 0)); reflexivity.
    + cbn [truthy]. destruct (negb (String.eqb s "")); reflexivity.
  - unfold keyable. cbn [compareFields default_options forallb].
    change (value_at (JObj ?ps) "server") with (assoc "server" ps).
    change (value_at (JObj ?ps) "port") with (assoc "port" ps).
    change (value_at (JObj ?ps) "protocol") with (assoc "protocol" ps).
    cbn [assoc String.eqb Ascii.eqb Bool.eqb].
    unfold parseInt_text.
    destruct (parseInt_string text); cbn [of_number convertible andb];
      rewrite andb_true_r; reflexivity.
Qed.

(** X6. The deduplicator, with its default key fields, does not throw on
    what [normalize] returns, provided the server, the protocol and the
    latency of the candidates are convertible to strings (none is an
    object with a [toString] property of its own): [normalize] gives
    every node an [extra] record, so the latency comparison always
    finds its operands, and a number for its port.  Every surviving
    node is one of the normalised nodes. *)
Theorem dedup_after_normalize_returns (env : environment)
        (candidates normalized : list jsval) (o : options) :
  compareFields o = compareFields default_options ->
  Forall (fun c => convertible (opt_member c "server") = true
                   /\ convertible (opt_member c "protocol") = true
                   /\ convertible (latency_of c) = true) candidates ->
  normalize env candidates = Ok normalized ->
  exists out,
    deduplicate normalized o = Ok out /\
    forall n, In n out -> In n normalized.
Proof.
  intros Ho Hc Hn.
  assert (Forall (fun n => has_extra n /\ keyable o n = true
                           /\ convertible (latency_of n) = true)
                 normalized) as Hl.
  { unfold normalize in Hn. apply mapM_indexed_Forall2 in Hn.
    assert (Forall (fun c => convertible (opt_member c "server") = true
                             /\ convertible (opt_member c "protocol") = true
                             /\ convertible (latency_of c) = true)
                   (filter isValid candidates)) as Hc'.
    { rewrite Forall_forall in *. intros c Hin.
      apply filter_In in Hin. apply Hc. tauto. }
    induction Hn as [|c n cs ns (j & Hj) _ IH]; [constructor|].
    inversion Hc' as [|? ? (Hs & Hp & Hlat) Hcs]; subst.
    constructor; [|auto].
    destruct (normalize_node_shape _ _ _ _ Hj) as (Hx & Hlatn & Hk).
    split; [assumption|]. split.
    - assert (keyable o n = keyable default_options n) as ->
          by (unfold keyable; rewrite Ho; reflexivity).
      rewrite Hk, Hs, Hp. reflexivity.
    - rewrite Hlatn. assumption. }
  destruct (dedup_loop_total o _ [] Hl) as (m & E); [constructor|].
  exists (map_values m). split.
  - unfold deduplicate. rewrite E. reflexivity.
  - destruct (deduplicate_inv o normalized (map_values m))
      as (_ & _ & _ & _ & _ & _ & H); [|exact H].
    unfold deduplicate. rewrite E. reflexivity.
Qed.

Lemma dedup_after_normalize_returns_witness :
  exists normalized out,
    normalize env0 [big_port_candidate; good_candidate] = Ok normalized /\
    deduplicate normalized default_options = Ok out.
Proof.
  destruct (normalize env0 [big_port_candidate; good_candidate])
    as [normalized|] eqn:E; [|vm_compute in E; discriminate].
  destruct (dedup_after_normalize_returns env0
              [big_port_candidate; good_candidate] normalized
              default_options eq_refl) as (out & H & _).
  - repeat constructor.
  - exact E.
  - exists normalized, out. split; [reflexivity|exact H].
Defined.

(** X7. [parse] on a non-empty payload returns what one of the four
    attempts returns -- an attempt being the run of a format's parser
    followed by the normalisation of its nodes -- and throws only when
    all four attempts fail; the error it then throws wraps the failure
    of the attempt of the detected format, not that of a backup. *)
Theorem parse_fails_only_when_all_fail (p : parsers) (env : environment)
        (raw : string) :
  raw <> "" ->
  match parse p env raw with
  | Ok nodes =>
      exists f candidates,
        parser_of p f raw = Ok candidates /\
        normalize env candidates = Ok nodes
  | Throw e =>
      (forall f, exists e', attempt p env f raw = Throw e') /\
      exists first,
        attempt p env (detectFormat raw) raw = Throw first /\
        e = ParseFailure first
  end.
Proof.
  intros Hraw.
  destruct (parse p env raw) as [nodes|e] eqn:E.
  - apply parse_ok in E as (f & E). apply attempt_ok in E.
    destruct E as (candidates & ? & ?). eauto.
  - revert E. unfold parse.
    destruct (String.eqb_spec raw ""); [contradiction|]. cbv zeta.
    destruct (attempt p env (detectFormat raw) raw) as [|first] eqn:E0;
      [discriminate|].
    destruct (attempt p env base64 raw) as [c1|e1] eqn:E1;
      destruct (attempt p env json raw) as [c2|e2] eqn:E2;
      destruct (attempt p env yaml raw) as [c3|e3] eqn:E3;
      destruct (attempt p env plain raw) as [c4|e4] eqn:E4;
      destruct (detectFormat raw); cbn [backup same_format];
      rewrite ?E1, ?E2, ?E3, ?E4; try discriminate;
      intros [= <-];
      (split; [intros []; eauto|eauto]).
Qed.

Lemma parse_fails_only_when_all_fail_witness :
  match parse (mkParsers (fun _ => Throw (Error "not base64"))
                         (fun _ => Throw (Error "not json"))
                         (fun _ => Throw (Error "not yaml"))
                         (fun _ => Throw (Error "not plain")))
              env0 "{" with
  | Ok _ => False
  | Throw e => e = ParseFailure (Error "not yaml")
  end.
Proof.
  pose proof (parse_fails_only_when_all_fail
                (mkParsers (fun _ => Throw (Error "not base64"))
                           (fun _ => Throw (Error "not json"))
                           (fun _ => Throw (Error "not yaml"))
                           (fun _ => Throw (Error "not plain")))
                env0 "{") as H.
  cbv beta in H. specialize (H ltac:(discriminate)).
  destruct (parse _ env0 "{") as [nodes|e].
  - destruct H as (f & c & Hf & _). destruct f; discriminate.
  - destruct H as (_ & first & Hf & ->).
    vm_compute in Hf. injection Hf as <-. reflexivity.
Defined.

(** [normalize] returns on candidates whose type, server and port are
    convertible to strings. *)
Lemma normalize_returns env candidates :
  Forall (fun c => convertible (opt_member c "type") = true
                   /\ convertible (opt_member c "server") = true
                   /\ convertible (opt_member c "port") = true)
         candidates ->
  exists out, normalize env candidates = Ok out.
Proof.
  intros H. unfold normalize.
  assert (Forall (fun c => convertible (opt_member c "type") = true
                           /\ convertible (opt_member c "server") = true
                           /\ convertible (opt_member c "port") = true)
                 (filter isValid candidates)) as H'.
  { rewrite Forall_forall in *. intros c Hin.
    apply filter_In in Hin. apply H. tauto. }
  clear H. generalize 0%nat.
  induction H' as [|c cs (Ht & Hs & Hp) _ IH]; intros i;
    cbn [mapM_indexed]; [eauto|].
  assert (exists n, normalize_node env i c = Ok n) as (n & ->).
  { unfold normalize_node, default_name, parseInt. cbv zeta.
    rewrite !to_string_convertible, Ht, Hs, Hp. cbn [bind].
    destruct (truthy (opt_member c "name")); cbn [bind]; eauto. }
  cbn [bind]. destruct (IH (S i)) as (out & ->). cbn [bind]. eauto.
Qed.

(** X8. The parser as its constructor builds it does not throw on a
    non-empty payload, whatever the base64, JSON and YAML parsers do,
    as long as the nodes that the plain-text decoders read from the
    payload have a type, a server and a port that are convertible to
    strings: the plain-text parser catches its own errors and stands
    last among the backups.  When the other three attempts fail, the
    result is the normalised plain reading of the payload. *)
Theorem parse_built_never_fails (d : PlainTextParser.decoders)
        (b64 js ym : string -> result (list jsval)) (env : environment)
        (raw : string) :
  raw <> "" ->
  Forall (fun c => convertible (opt_member c "type") = true
                   /\ convertible (opt_member c "server") = true
                   /\ convertible (opt_member c "port") = true)
         (PlainTextParser.parse d raw) ->
  exists nodes,
    parse (built d b64 js ym) env raw = Ok nodes /\
    ((exists e, attempt (built d b64 js ym) env base64 raw = Throw e) ->
     (exists e, attempt (built d b64 js ym) env json raw = Throw e) ->
     (exists e, attempt (built d b64 js ym) env yaml raw = Throw e) ->
     normalize env (PlainTextParser.parse d raw) = Ok nodes).
Proof.
  intros Hraw Hc.
  destruct (normalize_returns env _ Hc) as (out & Hout).
  assert (attempt (built d b64 js ym) env plain raw = Ok out) as E4.
  { unfold attempt. cbn [parser_of built plain_parser bind]. exact Hout. }
  unfold parse.
  destruct (String.eqb_spec raw ""); [contradiction|]. cbv zeta.
  destruct (attempt (built d b64 js ym) env base64 raw) as [c1|e1] eqn:E1;
    destruct (attempt (built d b64 js ym) env json raw) as [c2|e2] eqn:E2;
    destruct (attempt (built d b64 js ym) env yaml raw) as [c3|e3] eqn:E3;
    destruct (detectFormat raw); cbn [backup same_format];
    rewrite ?E1, ?E2, ?E3, ?E4; cbn [backup same_format];
    rewrite ?E1, ?E2, ?E3, ?E4;
    eexists; (split; [reflexivity|]);
    intros [? ?] [? ?] [? ?]; congruence.
Qed.

Lemma parse_built_never_fails_witness :
  exists nodes,
    parse (built (PlainTextParser.mkDecoders (fun _ => None) (fun _ => None)
                                             (fun _ => None))
                 (fun _ => Throw TypeError) (fun _ => Throw TypeError)
                 (fun _ => Throw TypeError))
          env0 "{" = Ok nodes /\ nodes = [].
Proof.
  destruct (parse_built_never_fails
              (PlainTextParser.mkDecoders (fun _ => None) (fun _ => None)
                                          (fun _ => None))
              (fun _ => Throw TypeError) (fun _ => Throw TypeError)
              (fun _ => Throw TypeError) env0 "{")
    as (nodes & E & H); [discriminate|constructor|].
  exists nodes. split; [exact E|].
  assert (Ok (A:=list jsval) [] = Ok nodes) as [= <-]; [|reflexivity].
  apply H; eexists; reflexivity.
Defined.

End ParserExtras.

(* ================================================================= *)
(** * Numbers and their decimal rendering *)

Ltac eval_digit :=
  cbn [digits_prefix];
  match goal with
  | |- context [hex_value ?a] =>
      let v := eval vm_compute in (hex_value a) in
      change (hex_value a) with v
  end;
  cbv iota beta;
  match goal with
  | |- context [?d <? 10] =>
      let v := eval vm_compute in (d <? 10) in
      change (d <? 10) with v
  end;
  cbv iota.

Lemma digits_prefix_acc d : forall acc,
  digits_prefix 10 (NilEmpty.string_of_uint d) (Some (Z.pos acc))
  = Some (Z.pos (Pos.of_uint_acc d acc)).
Proof.
  induction d; intros acc; cbn [NilEmpty.string_of_uint Pos.of_uint_acc];
    [reflexivity|..];
    eval_digit; rewrite <- IHd; f_equal; f_equal; lia.
Qed.

Lemma digits_prefix_uint d : forall acc,
  acc = None \/ acc = Some 0 ->
  d <> Decimal.Nil ->
  digits_prefix 10 (NilEmpty.string_of_uint d) acc
  = Some (Z.of_N (Pos.of_uint d)).
Proof.
  induction d; intros acc Hacc Hd; [contradiction|..];
    cbn [NilEmpty.string_of_uint Pos.of_uint];
    eval_digit;
    try (destruct Hacc as [->| ->]; cbn [Z.mul Z.add];
         apply digits_prefix_acc).
  destruct d; try (apply IHd; [destruct Hacc as [->| ->]; auto|discriminate]).
  destruct Hacc as [->| ->]; reflexivity.
Qed.

Lemma to_uint_not_nil p : Pos.to_uint p <> Decimal.Nil.
Proof.
  intros H. pose proof (DecimalPos.Unsigned.of_to p) as E.
  rewrite H in E. discriminate.
Qed.

Lemma skip_white1_ascii a r :
  ascii_white a = false -> (code a <? 128)%N = true ->
  skip_white1 (String a r) = None.
Proof.
  intros Hw Ha. apply N.ltb_lt in Ha.
  unfold skip_white1. rewrite Hw.
  destruct r as [|b r]; [reflexivity|].
  cbn [all_white]. rewrite Hw.
  destruct (N.eqb_spec (code a) 194); [lia|]. cbn [andb].
  destruct r as [|c r]; [reflexivity|].
  destruct (N.eqb_spec (code a) 225); [lia|].
  destruct (N.eqb_spec (code a) 226); [lia|].
  destruct (N.eqb_spec (code a) 227); [lia|].
  destruct (N.eqb_spec (code a) 239); [lia|]. reflexivity.
Qed.

Lemma skip_white_ascii fuel a r :
  ascii_white a = false -> (code a <? 128)%N = true ->
  skip_white fuel (String a r) = String a r.
Proof.
  intros Hw Ha. destruct fuel; [reflexivity|].
  cbn [skip_white]. rewrite (skip_white1_ascii a r Hw Ha). reflexivity.
Qed.


Lemma parseInt_uint d :
  d <> Decimal.Nil ->
  parseInt_string (NilEmpty.string_of_uint d)
  = Some (Z.of_N (Pos.of_uint d)).
Proof.
  intros Hd. unfold parseInt_string.
  pose proof (digits_prefix_uint d None (or_introl eq_refl) Hd) as E.
  destruct d; [contradiction|..];
    cbn [NilEmpty.string_of_uint] in *;
    rewrite skip_white_ascii by reflexivity;
    try (rewrite E; cbn [option_map]; f_equal;
         apply Z.mul_1_l).
  destruct d; cbn [NilEmpty.string_of_uint] in *;
    rewrite E; cbn [option_map]; f_equal; apply Z.mul_1_l.
Qed.

Lemma parseInt_uint_neg d :
  d <> Decimal.Nil ->
  parseInt_string (String "-" (NilEmpty.string_of_uint d))
  = Some (- Z.of_N (Pos.of_uint d)).
Proof.
  intros Hd. unfold parseInt_string.
  pose proof (digits_prefix_uint d None (or_introl eq_refl) Hd) as E.
  rewrite skip_white_ascii by reflexivity.
  destruct d; [contradiction|..];
    cbn [NilEmpty.string_of_uint] in *;
    try (rewrite E; cbn [option_map]; f_equal; lia).
  destruct d; cbn [NilEmpty.string_of_uint] in *;
    rewrite E; cbn [option_map]; f_equal; lia.
Qed.

(** [parseInt] reads back the decimal rendering of an integer. *)
Lemma parseInt_string_of_Z z : parseInt_string (string_of_Z z) = Some z.
Proof.
  unfold string_of_Z. destruct z as [|p|p]; [reflexivity|..];
    cbn [Z.to_int NilZero.string_of_int];
    pose proof (to_uint_not_nil p) as Hp;
    pose proof (DecimalPos.Unsigned.of_to p) as Hv;
    unfold NilZero.string_of_uint;
    destruct (Pos.to_uint p) eqn:E; try contradiction;
    rewrite <- E in *.
  all: try (rewrite (parseInt_uint _ Hp), Hv; reflexivity).
  all: rewrite (parseInt_uint_neg _ Hp), Hv; reflexivity.
Qed.

(* ================================================================= *)
(** * Further properties of the wire-format decoders *)

Section DecoderExtras.
Import URL SubscriptionParser ParserExamples.

Lemma parseInt_of_integer z : parseInt (JNum z) = Ok (JNum z).
Proof.
  unfold parseInt, to_string, parseInt_text. cbn [to_primitive bind to_str].
  rewrite parseInt_string_of_Z. reflexivity.
Qed.

Lemma parseInt_text_numeral z : parseInt_text (string_of_Z z) = JNum z.
Proof. unfold parseInt_text. rewrite parseInt_string_of_Z. reflexivity. Qed.

Lemma parseInt_of_numeral z :
  parseInt (JStr (string_of_Z z)) = Ok (JNum z).
Proof.
  unfold parseInt, to_string. cbn [to_primitive bind to_str].
  rewrite parseInt_text_numeral. reflexivity.
Qed.

Lemma Forall2_In_left {A B} (R : A -> B -> Prop) l l' a :
  Forall2 R l l' -> In a l -> exists b, In b l' /\ R a b.
Proof.
  induction 1 as [|x y l l' Hxy _ IH]; simpl; [contradiction|].
  intros [<-|Hin]; [eauto|].
  destruct (IH Hin) as (b & Hb & Hab). eauto.
Qed.

(** X9. Whenever [normalize] returns, a candidate that passes the
    presence test with a port given as an integer, or as the decimal
    numeral of one, comes out of it with that integer as its port and
    with its type, server and protocol untouched: the numeric ports of
    the JSON and YAML readers and the string ports of the URL-shaped
    decoders meet in one representation. *)
Theorem normalize_keeps_integer_port (env : environment)
        (candidates normalized : list jsval) (c : jsval) (z : Z) :
  normalize env candidates = Ok normalized ->
  In c candidates -> isValid c = true ->
  Z.abs z < 2 ^ 53 ->
  opt_member c "port" = JNum z
    \/ opt_member c "port" = JStr (string_of_Z z) ->
  exists n,
    In n normalized /\
    opt_member n "port" = JNum z /\
    opt_member n "type" = opt_member c "type" /\
    opt_member n "server" = opt_member c "server" /\
    opt_member n "protocol" = opt_member c "protocol".
Proof.
  intros Hn Hin Hv _ Hport.
  assert (In c (filter isValid candidates)) as Hc
      by (apply filter_In; auto).
  unfold normalize in Hn. apply mapM_indexed_Forall2 in Hn.
  destruct (Forall2_In_left _ _ _ _ Hn Hc) as (n & Hin' & j & Hj).
  exists n. split; [exact Hin'|].
  destruct (normalize_node_fields _ _ _ _ Hj) as (Ht & Hs & Hp & Hproto).
  repeat split; try assumption.
  destruct Hport as [E|E]; rewrite E in Hp;
    [rewrite parseInt_of_integer in Hp|rewrite parseInt_of_numeral in Hp];
    congruence.
Qed.

Lemma normalize_keeps_integer_port_witness :
  exists normalized n,
    normalize env0 [big_port_candidate] = Ok normalized /\
    In n normalized /\
    opt_member n "port" = JNum 70000.
Proof.
  destruct (normalize env0 [big_port_candidate]) as [normalized|] eqn:E;
    [|vm_compute in E; discriminate].
  destruct (normalize_keeps_integer_port env0 [big_port_candidate]
              normalized big_port_candidate 70000)
    as (n & Hn & Hp & _).
  - exact E.
  - left; reflexivity.
  - reflexivity.
  - reflexivity.
  - left; reflexivity.
  - exists normalized, n; auto.
Defined.

Lemma digits_acc_nonneg s : forall acc n,
  0 <= acc -> digits_acc s acc = Some n -> 0 <= n.
Proof.
  induction s as [|a s IH]; cbn [digits_acc]; intros acc n Hacc H.
  - injection H as <-; assumption.
  - unfold digit_of in H. cbv zeta in H.
    destruct ((48 <=? Z.of_nat (nat_of_ascii a))
              && (Z.of_nat (nat_of_ascii a) <=? 57)) eqn:E; [|discriminate].
    apply andb_prop in E as [E1 E2].
    apply Z.leb_le in E1. eapply IH; [|exact H]. lia.
Qed.

Lemma string_of_Z_not_empty z : string_of_Z z <> "".
Proof.
  intros H. pose proof (parseInt_string_of_Z z) as E.
  rewrite H in E. discriminate.
Qed.

(** The port of a parsed URL is empty or the numeral of a number
    within 0..65535. *)
Lemma parse_port_range scheme p s :
  parse_port scheme p = Some s ->
  s = "" \/ exists n, 0 <= n <= 65535 /\ s = string_of_Z n.
Proof.
  unfold parse_port. destruct (all_chars is_digit p); [|discriminate].
  destruct p as [|a p]; [intros [= <-]; auto|].
  destruct (digits_acc (String a p) 0) as [n|] eqn:E; [|discriminate].
  pose proof (digits_acc_nonneg _ _ _ (Z.le_refl 0) E) as Hn.
  destruct (Z.ltb_spec 65535 n); [discriminate|].
  destruct (default_port scheme) as [d|];
    [destruct (n =? d)|]; intros [= <-]; eauto.
Qed.

Lemma url_port_range input u :
  URL.parse input = Some u ->
  port u = "" \/ exists n, 0 <= n <= 65535 /\ port u = string_of_Z n.
Proof.
  unfold URL.parse.
  repeat match goal with
         | |- context [match ?x with _ => _ end] =>
             lazymatch x with
             | parse_port _ _ => fail
             | _ => destruct x eqn:?
             end
         | |- None = Some _ -> _ => discriminate
         | |- Some _ = Some _ -> _ => intros [= <-]; simpl; auto
         end.
  all: try (destruct (parse_port _ _) eqn:Ep; [|discriminate]).
  all: repeat match goal with
         | |- context [match ?x with _ => _ end] => destruct x eqn:?
         | |- None = Some _ -> _ => discriminate
         | |- Some _ = Some _ -> _ => intros [= <-]; simpl; auto
         end.
  all: eauto using parse_port_range.
Qed.

Lemma str_or_port p fallback z :
  p = "" \/ (exists n, 0 <= n <= 65535 /\ p = string_of_Z n) ->
  fallback = string_of_Z z -> 0 <= z <= 65535 ->
  exists k,
    parseInt_text (PlainTextParser.str_or p fallback) = JNum k
    /\ 0 <= k <= 65535.
Proof.
  intros [->|(n & Hn & ->)] -> Hz; unfold PlainTextParser.str_or.
  - exists z. split; [apply parseInt_text_numeral|assumption].
  - destruct (String.eqb_spec (string_of_Z n) "") as [E|_];
      [destruct (string_of_Z_not_empty _ E)|].
    exists n. split; [apply parseInt_text_numeral|assumption].
Qed.

(** X10. The three URL-shaped decoders of the plain-text parser never
    return a port outside 0..65535: the URL parser rejects larger
    ports, and the default is filled in where the URI has none. *)
Theorem uri_decoders_port_in_range (line : string) (n : jsval) :
  PlainTextParser.parseTrojan line = Some n
  \/ PlainTextParser.parseHttp line = Some n
  \/ PlainTextParser.parseSocks line = Some n ->
  exists z, opt_member n "port" = JNum z /\ 0 <= z <= 65535.
Proof.
  unfold PlainTextParser.parseTrojan, PlainTextParser.parseHttp,
    PlainTextParser.parseSocks, PlainTextParser.or_null, new_URL.
  intros [H|[H|H]].
  - destruct (URL.parse line) as [u|] eqn:E; cbn [bind] in H;
      [|discriminate].
    destruct (decodeURIComponent _) as [name|]; cbn [bind] in H;
      [|discriminate].
    injection H as <-.
    apply (str_or_port _ "443" 443 (url_port_range _ _ E) eq_refl).
    lia.
  - destruct (URL.parse line) as [u|] eqn:E; cbn [bind] in H;
      [|discriminate].
    destruct (decodeURIComponent _) as [name|]; cbn [bind] in H;
      [|discriminate].
    injection H as <-.
    destruct (String.eqb (protocol u) "https:").
    + apply (str_or_port _ "443" 443 (url_port_range _ _ E) eq_refl).
      lia.
    + apply (str_or_port _ "80" 80 (url_port_range _ _ E) eq_refl).
      lia.
  - destruct (negb (PlainTextParser.socks_prefix line)); [discriminate|].
    destruct (includes _ line || _); [discriminate|].
    destruct (URL.parse line) as [u|] eqn:E; cbn [bind] in H;
      [|discriminate].
    destruct (String.eqb (hostname u) "" || String.eqb (port u) "");
      [discriminate|].
    destruct (decodeURIComponent _) as [name|]; cbn [bind] in H;
      [|discriminate].
    injection H as <-.
    apply (str_or_port _ "1080" 1080 (url_port_range _ _ E) eq_refl).
    lia.
Qed.

Lemma uri_decoders_port_in_range_witness :
  exists n z,
    PlainTextParser.parseTrojan trojan_uri = Some n /\
    opt_member n "port" = JNum z /\ 0 <= z <= 65535.
Proof.
  destruct (PlainTextParser.parseTrojan trojan_uri) as [n|] eqn:E;
    [|vm_compute in E; discriminate].
  destruct (uri_decoders_port_in_range trojan_uri n (or_introl E))
    as (z & Hz & Hr).
  exists n, z. auto.
Defined.





End DecoderExtras.

(* ================================================================= *)
(** * Base64: the envelope of a subscription *)

Section Base64Facts.
Import URL SubscriptionParser.

Lemma string_ind3 (P : string -> Prop) :
  P "" ->
  (forall a, P (String a "")) ->
  (forall a b, P (String a (String b ""))) ->
  (forall a b c r, P r -> P (String a (String b (String c r)))) ->
  forall s, P s.
Proof.
  intros H0 H1 H2 H3.
  assert (forall s, P s /\ (forall a, P (String a s))
                    /\ (forall a b, P (String a (String b s)))) as H.
  { induction s as [|c s (IH0 & IH1 & IH2)]; [auto|]. repeat split; auto. }
  intros s; apply H.
Qed.

Lemma b64_digit_spec n :
  (n < 64)%N ->
  exists c, b64_digit n = String c ""
            /\ index_of c b64_alphabet 0 = Some n
            /\ is_char "=" c = false
            /\ PlainTextParser.base64_char c = true.
Proof.
  intros Hn.
  assert (forallb
            (fun n =>
               match String.get (N.to_nat n) b64_alphabet with
               | Some c =>
                   match index_of c b64_alphabet 0 with
                   | Some m => (m =? n)%N
                   | None => false
                   end && negb (is_char "=" c)
                   && PlainTextParser.base64_char c
               | None => false
               end)
            (map N.of_nat (seq 0 64)) = true) as Hall
      by (vm_compute; reflexivity).
  rewrite forallb_forall in Hall.
  specialize (Hall n). unfold b64_digit.
  destruct (String.get (N.to_nat n) b64_alphabet) as [c|].
  - exists c. split; [reflexivity|].
    assert (In n (map N.of_nat (seq 0 64))) as Hin.
    { rewrite <- (N2Nat.id n). apply in_map. apply in_seq. lia. }
    apply Hall in Hin. apply andb_prop in Hin as [Hin H3].
    apply andb_prop in Hin as [H1 H2].
    destruct (index_of c b64_alphabet 0) as [m|]; [|discriminate].
    apply N.eqb_eq in H1. subst m. split; [reflexivity|].
    split; [|assumption].
    destruct (is_char "=" c); [discriminate|reflexivity].
  - assert (In n (map N.of_nat (seq 0 64))) as Hin.
    { rewrite <- (N2Nat.id n). apply in_map. apply in_seq. lia. }
    apply Hall in Hin. discriminate.
Qed.

Lemma code_bound a : (code a < 256)%N.
Proof. apply N_ascii_bounded. Qed.

Lemma byte_of_code a n : n = code a -> byte_str n = String a "".
Proof.
  intros ->. unfold byte_str. rewrite N.mod_small by apply code_bound.
  unfold code. rewrite ascii_N_embedding. reflexivity.
Qed.

Ltac div_lia := zify; Z.to_euclidean_division_equations; lia.

Lemma length_append s : forall t,
  String.length (s ++ t) = (String.length s + String.length t)%nat.
Proof. induction s as [|a s IH]; simpl; intros t; [reflexivity|]. rewrite IH; reflexivity. Qed.

Lemma sextets_length s : forall l,
  sextets s = Some l -> String.length s = List.length l.
Proof.
  induction s as [|a s IH]; cbn [sextets]; intros l H.
  - injection H as <-; reflexivity.
  - destruct (index_of a b64_alphabet 0); [|discriminate].
    destruct (sextets s) as [vs|]; [|discriminate].
    injection H as <-. cbn [String.length List.length].
    rewrite (IH vs eq_refl). reflexivity.
Qed.

Lemma rev_onto_app s : forall t acc,
  rev_onto (s ++ t) acc = rev_onto t (rev_onto s acc).
Proof. induction s as [|a s IH]; simpl; intros; [reflexivity|apply IH]. Qed.

Lemma rev_onto_rev_onto s : forall acc acc',
  rev_onto (rev_onto s acc) acc' = rev_onto acc (s ++ acc').
Proof.
  induction s as [|a s IH]; simpl; intros; [reflexivity|].
  rewrite IH. reflexivity.
Qed.

Lemma rev_rev s : rev (rev s) = s.
Proof.
  unfold rev. rewrite rev_onto_rev_onto. simpl.
  induction s as [|a s IH]; simpl; [reflexivity|]. rewrite IH; reflexivity.
Qed.

Lemma all_chars_rev_onto p s : forall acc,
  all_chars p s = true -> all_chars p acc = true ->
  all_chars p (rev_onto s acc) = true.
Proof.
  induction s as [|a s IH]; simpl; intros acc Hs Hacc; [assumption|].
  apply andb_prop in Hs as [Ha Hs]. apply IH; [assumption|].
  simpl. rewrite Ha; assumption.
Qed.

(** The encoder's output: digits of the alphabet that decode to the
    input, then the padding that fills the last group. *)
Lemma base64_encode_shape s :
  exists body pad l k q,
    base64_encode s = body ++ pad /\
    sextets body = Some l /\ octets l = s /\
    all_chars (fun c => negb (is_char "=" c)) body = true /\
    List.length l = (4 * q + k)%nat /\
    ((k = 0%nat /\ pad = "") \/ (k = 3%nat /\ pad = "=")
     \/ (k = 2%nat /\ pad = "==")).
Proof.
  induction s as [|a|a b|a b c r IH] using string_ind3.
  - exists "", "", [], 0%nat, 0%nat. repeat split; auto.
  - pose proof (code_bound a).
    destruct (b64_digit_spec (code a / 4)) as (c1 & E1 & I1 & N1 & _);
      [div_lia|].
    destruct (b64_digit_spec (code a mod 4 * 16)) as (c2 & E2 & I2 & N2 & _);
      [div_lia|].
    exists (String c1 (String c2 "")), "==",
      [code a / 4; code a mod 4 * 16]%N, 2%nat, 0%nat.
    cbn [base64_encode]. cbv zeta. rewrite E1, E2.
    cbn [sextets]. rewrite I1, I2. cbn [all_chars]. rewrite N1, N2.
    repeat split; auto.
    cbn [octets]. apply byte_of_code. div_lia.
  - pose proof (code_bound a). pose proof (code_bound b).
    destruct (b64_digit_spec (code a / 4)) as (c1 & E1 & I1 & N1 & _);
      [div_lia|].
    destruct (b64_digit_spec (code a mod 4 * 16 + code b / 16))
      as (c2 & E2 & I2 & N2 & _); [div_lia|].
    destruct (b64_digit_spec (code b mod 16 * 4)) as (c3 & E3 & I3 & N3 & _);
      [div_lia|].
    exists (String c1 (String c2 (String c3 ""))), "=",
      [code a / 4; code a mod 4 * 16 + code b / 16; code b mod 16 * 4]%N,
      3%nat, 0%nat.
    cbn [base64_encode]. cbv zeta. rewrite E1, E2, E3.
    cbn [sextets]. rewrite I1, I2, I3. cbn [all_chars].
    rewrite N1, N2, N3.
    repeat split; auto.
    cbn [octets].
    rewrite (byte_of_code a), (byte_of_code b) by div_lia. reflexivity.
  - destruct IH as (body & pad & l & k & q & Henc & Hs & Ho & Hn & Hl & Hp).
    pose proof (code_bound a). pose proof (code_bound b).
    pose proof (code_bound c).
    destruct (b64_digit_spec (code a / 4)) as (c1 & E1 & I1 & N1 & _);
      [div_lia|].
    destruct (b64_digit_spec (code a mod 4 * 16 + code b / 16))
      as (c2 & E2 & I2 & N2 & _); [div_lia|].
    destruct (b64_digit_spec (code b mod 16 * 4 + code c / 64))
      as (c3 & E3 & I3 & N3 & _); [div_lia|].
    destruct (b64_digit_spec (code c mod 64)) as (c4 & E4 & I4 & N4 & _);
      [div_lia|].
    exists (String c1 (String c2 (String c3 (String c4 body)))), pad,
      (code a / 4 :: code a mod 4 * 16 + code b / 16
       :: code b mod 16 * 4 + code c / 64 :: code c mod 64 :: l)%N,
      k, (S q).
    cbn [base64_encode]. cbv zeta. rewrite E1, E2, E3, E4, Henc.
    cbn [sextets]. rewrite I1, I2, I3, I4, Hs. cbn [all_chars].
    rewrite N1, N2, N3, N4, Hn.
    repeat split; auto.
    + cbn [octets]. rewrite Ho.
      rewrite (byte_of_code a), (byte_of_code b), (byte_of_code c)
        by div_lia.
      reflexivity.
    + cbn [List.length]. lia.
Qed.

Lemma not_pad_head c r :
  is_char "=" c = false ->
  match String c r with
  | String "=" (String "=" r') => rev r'
  | String "=" r' => rev r'
  | _ => rev (String c r)
  end = rev (String c r).
Proof.
  destruct c as [[] [] [] [] [] [] [] []]; intros H;
    try reflexivity; discriminate.
Qed.

Lemma mod4 q k : (k < 4)%nat -> ((4 * q + k) mod 4)%nat = k.
Proof.
  intros H. rewrite Nat.add_comm, Nat.mul_comm, Nat.Div0.mod_add.
  apply Nat.mod_small; assumption.
Qed.

(** What [atob] decodes once the padding is stripped. *)
Lemma atob_strip body pad l k q :
  sextets body = Some l ->
  all_chars (fun c => negb (is_char "=" c)) body = true ->
  List.length l = (4 * q + k)%nat ->
  (k = 0%nat /\ pad = "") \/ (k = 3%nat /\ pad = "=")
  \/ (k = 2%nat /\ pad = "==") ->
  (if (String.length (body ++ pad) mod 4 =? 0)%nat
   then match rev (body ++ pad) with
        | String "=" (String "=" r) => rev r
        | String "=" r => rev r
        | _ => body ++ pad
        end
   else body ++ pad) = body.
Proof.
  intros Hs Hn Hl Hp.
  pose proof (sextets_length _ _ Hs) as Hlen.
  assert (all_chars (fun c => negb (is_char "=" c)) (rev body) = true)
    as Hrev by (apply all_chars_rev_onto; [assumption|reflexivity]).
  rewrite length_append, Hlen, Hl.
  destruct Hp as [[-> ->]|[[-> ->]|[-> ->]]].
  - replace (body ++ "") with body
      by (clear; induction body; simpl; congruence).
    replace (4 * q + 0 + String.length "")%nat with (4 * q + 0)%nat
      by (simpl; lia).
    rewrite (mod4 q 0) by lia. cbn [Nat.eqb].
    destruct (rev body) as [|c r] eqn:E; [reflexivity|].
    simpl in Hrev. apply andb_prop in Hrev as [Hc _].
    apply negb_true_iff in Hc.
    rewrite <- (rev_rev body), E.
    apply not_pad_head; assumption.
  - replace (4 * q + 3 + String.length "=")%nat with (4 * (S q) + 0)%nat
      by (simpl; lia).
    rewrite (mod4 (S q) 0) by lia. cbn [Nat.eqb].
    unfold rev at 1. rewrite rev_onto_app. cbn [rev_onto].
    fold (rev body).
    destruct (rev body) as [|c r] eqn:E.
    + rewrite <- (rev_rev body), E. reflexivity.
    + simpl in Hrev. apply andb_prop in Hrev as [Hc _].
      apply negb_true_iff in Hc.
      rewrite <- (rev_rev body), E.
      destruct c as [[] [] [] [] [] [] [] []];
        try reflexivity; discriminate.
  - replace (4 * q + 2 + String.length "==")%nat with (4 * (S q) + 0)%nat
      by (simpl; lia).
    rewrite (mod4 (S q) 0) by lia. cbn [Nat.eqb].
    unfold rev at 1. rewrite rev_onto_app. cbn [rev_onto].
    fold (rev body). apply rev_rev.
Qed.

(** Decoding undoes encoding: [atob] returns the bytes that
    [Buffer.from(s).toString('base64')] was given, for every byte
    string. *)
Lemma atob_base64_encode (s : string) : atob (base64_encode s) = Some s.
Proof.
  destruct (base64_encode_shape s)
    as (body & pad & l & k & q & -> & Hs & Ho & Hn & Hl & Hp).
  unfold atob. rewrite (atob_strip body pad l k q Hs Hn Hl Hp).
  cbv zeta. rewrite (sextets_length _ _ Hs), Hl, Hs.
  assert (k < 4)%nat as Hk by (destruct Hp as [[-> _]|[[-> _]|[-> _]]]; lia).
  rewrite (mod4 q k Hk).
  destruct Hp as [[-> _]|[[-> _]|[-> _]]]; cbn [Nat.eqb option_map];
    rewrite Ho; reflexivity.
Qed.

Lemma base64_encode_chars s :
  all_chars PlainTextParser.base64_char (base64_encode s) = true.
Proof.
  induction s as [|a|a b|a b c r IH] using string_ind3.
  - reflexivity.
  - pose proof (code_bound a).
    destruct (b64_digit_spec (code a / 4)) as (c1 & E1 & _ & _ & B1);
      [div_lia|].
    destruct (b64_digit_spec (code a mod 4 * 16)) as (c2 & E2 & _ & _ & B2);
      [div_lia|].
    cbn [base64_encode]. cbv zeta. rewrite E1, E2.
    cbn [append all_chars]. rewrite B1, B2. reflexivity.
  - pose proof (code_bound a). pose proof (code_bound b).
    destruct (b64_digit_spec (code a / 4)) as (c1 & E1 & _ & _ & B1);
      [div_lia|].
    destruct (b64_digit_spec (code a mod 4 * 16 + code b / 16))
      as (c2 & E2 & _ & _ & B2); [div_lia|].
    destruct (b64_digit_spec (code b mod 16 * 4))
      as (c3 & E3 & _ & _ & B3); [div_lia|].
    cbn [base64_encode]. cbv zeta. rewrite E1, E2, E3.
    cbn [append all_chars]. rewrite B1, B2, B3. reflexivity.
  - pose proof (code_bound a). pose proof (code_bound b).
    pose proof (code_bound c).
    destruct (b64_digit_spec (code a / 4)) as (c1 & E1 & _ & _ & B1);
      [div_lia|].
    destruct (b64_digit_spec (code a mod 4 * 16 + code b / 16))
      as (c2 & E2 & _ & _ & B2); [div_lia|].
    destruct (b64_digit_spec (code b mod 16 * 4 + code c / 64))
      as (c3 & E3 & _ & _ & B3); [div_lia|].
    destruct (b64_digit_spec (code c mod 64)) as (c4 & E4 & _ & _ & B4);
      [div_lia|].
    cbn [base64_encode]. cbv zeta. rewrite E1, E2, E3, E4.
    cbn [append all_chars]. rewrite B1, B2, B3, B4, IH. reflexivity.
Qed.

Lemma prefix_all_chars q p : forall s,
  prefix p s = true -> all_chars q s = true -> all_chars q p = true.
Proof.
  induction p as [|a p IH]; intros s Hp Hs; [reflexivity|].
  destruct s as [|b s]; simpl in Hp; [discriminate|].
  destruct (ascii_dec a b) as [->|]; [|discriminate].
  simpl in *. apply andb_prop in Hs as [Hb Hs]. rewrite Hb.
  apply (IH s); assumption.
Qed.

Lemma includes_all_chars q sub : forall s,
  includes sub s = true -> all_chars q s = true -> all_chars q sub = true.
Proof.
  induction s as [|a s IH]; cbn [includes]; intros Hi Hs.
  - apply orb_prop in Hi as [Hi|Hi]; [|discriminate].
    apply (prefix_all_chars q sub ""); assumption.
  - apply orb_prop in Hi as [Hi|Hi].
    + apply (prefix_all_chars q sub (String a s)); assumption.
    + simpl in Hs. apply andb_prop in Hs as [_ Hs]. auto.
Qed.

(** A text of base64 characters contains no piece that has another
    character. *)
Lemma base64_text_excludes sub s :
  all_chars PlainTextParser.base64_char s = true ->
  all_chars PlainTextParser.base64_char sub = false ->
  includes sub s = false.
Proof.
  intros Hs Hsub. destruct (includes sub s) eqn:E; [|reflexivity].
  rewrite (includes_all_chars _ _ _ E Hs) in Hsub. discriminate.
Qed.

Lemma base64_text_no_url s :
  all_chars PlainTextParser.base64_char s = true ->
  has_protocol_url s = false.
Proof.
  induction s as [|a s IH]; intros Hs.
  - reflexivity.
  - cbn [has_protocol_url]. rewrite IH
      by (simpl in Hs; apply andb_prop in Hs as [_ Hs]; exact Hs).
    rewrite orb_false_r.
    apply not_true_is_false. intros H.
    apply existsb_exists in H as (scheme & Hin & H).
    apply andb_prop in H as [H _].
    pose proof (prefix_all_chars _ _ _ H Hs) as Hc.
    simpl in Hin.
    repeat (destruct Hin as [<-|Hin]; [discriminate Hc|]).
    contradiction.
Qed.

Lemma base64_char_plain a :
  PlainTextParser.base64_char a = true ->
  ascii_white a = false /\ (code a <? 128)%N = true.
Proof.
  destruct a as [[] [] [] [] [] [] [] []]; vm_compute;
    intuition discriminate.
Qed.

Lemma base64_text_no_white s : forall fuel,
  all_chars PlainTextParser.base64_char s = true ->
  remove_white fuel s = s.
Proof.
  induction s as [|a s IH]; intros fuel Hs.
  - destruct fuel; reflexivity.
  - simpl in Hs. apply andb_prop in Hs as [Ha Hs].
    destruct (base64_char_plain a Ha) as [Hw Hc].
    destruct fuel; [reflexivity|].
    cbn [remove_white]. rewrite (skip_white1_ascii a s Hw Hc).
    rewrite IH by assumption. reflexivity.
Qed.

Lemma json_rejects_letter c rest :
  c = "a"%char \/ c = "c"%char \/ c = "d"%char ->
  JSON_parses (String c rest) = false.
Proof.
  intros H. unfold JSON_parses.
  replace (2 * String.length (String c rest) + 2)%nat
    with (S (2 * String.length (String c rest) + 1))%nat by lia.
  destruct H as [->|[->| ->]]; reflexivity.
Qed.

(** X12. A payload that is the base64 encoding of a list whose first
    line is a share link of a known scheme is detected as [base64]:
    none of the earlier tests of [detectFormat] fires on it, and the
    decoded text shows the scheme. *)
Theorem base64_envelope_detected (scheme s : string) :
  In scheme schemes ->
  startsWith (scheme ++ "://") s = true ->
  detectFormat (base64_encode s) = base64.
Proof.
  intros Hin Hp.
  pose proof (base64_encode_chars s) as Hc.
  pose proof (atob_base64_encode s) as Hd.
  assert (exists c rest, base64_encode s = String c rest
                         /\ (c = "a"%char \/ c = "c"%char \/ c = "d"%char))
    as (c & rest & He & Hfirst).
  { simpl in Hin.
    repeat (destruct Hin as [<-|Hin];
            [apply prefix_app in Hp as (r & ->);
             cbn [append base64_encode]; cbv zeta;
             eexists _, _; split; [reflexivity|];
             vm_compute; auto|]).
    contradiction. }
  assert (includes (scheme ++ "://") s = true) as Hi.
  { destruct s; cbn [includes]; unfold startsWith in Hp; rewrite Hp;
      reflexivity. }
  assert (String.eqb s "" = false) as Hs.
  { destruct s; [|reflexivity]. simpl in Hin.
    repeat (destruct Hin as [<-|Hin]; [discriminate Hp|]).
    contradiction. }
  unfold detectFormat.
  rewrite (base64_text_excludes "proxies:" _ Hc eq_refl).
  rewrite (base64_text_excludes "port: " _ Hc eq_refl).
  rewrite (base64_text_excludes "- name:" _ Hc eq_refl).
  cbn [andb orb].
  rewrite He at 1. rewrite (json_rejects_letter c rest Hfirst).
  rewrite (base64_text_no_url _ Hc).
  cbv zeta. rewrite (base64_text_no_white _ _ Hc).
  rewrite Hc, Hd. rewrite He at 1. cbn [String.eqb negb andb].
  rewrite Hs. cbn [negb andb].
  assert (existsb (fun scheme0 => includes (scheme0 ++ "://") s) schemes
          = true) as ->.
  { apply existsb_exists. exists scheme. auto. }
  reflexivity.
Qed.

Lemma base64_envelope_detected_witness :
  detectFormat (base64_encode ParserExamples.vless_uri) = base64.
Proof.
  apply (base64_envelope_detected "vless" ParserExamples.vless_uri).
  - simpl; tauto.
  - reflexivity.
Defined.

End Base64Facts.

(* ================================================================= *)
(** * Further properties of the node analyzer *)

Section AnalyzerExtras.
Import NodeAnalyzer NodeAnalyzerExamples.

Lemma alternation_first keys : forall s m,
  alternation_here keys s = Some m ->
  exists pre k post,
    keys = (pre ++ k :: post)%list /\ match_here k s = Some m /\
    Forall (fun k' => match_here k' s = None) pre.
Proof.
  induction keys as [|k keys IH]; simpl; intros s m H; [discriminate|].
  destruct (match_here k s) as [m'|] eqn:E.
  - injection H as <-. exists [], k, keys. repeat split; auto.
  - destruct (IH s m H) as (pre & k' & post & -> & Hk & Hpre).
    exists (k :: pre), k', post. repeat split; auto.
Qed.

Lemma regex_match_somewhere keys : forall s m,
  regex_match keys s = Some m ->
  exists pre rest, s = pre ++ rest /\ alternation_here keys rest = Some m.
Proof.
  induction s as [|a s IH]; simpl; intros m H.
  - destruct (alternation_here keys "") eqn:E; [|discriminate].
    exists "", "". split; [reflexivity|]. congruence.
  - destruct (alternation_here keys (String a s)) eqn:E.
    + exists "", (String a s). split; [reflexivity|]. congruence.
    + destruct (IH m H) as (pre & rest & -> & Hr).
      exists (String a pre), rest. split; [reflexivity|assumption].
Qed.

Lemma match_here_prefix k k' : forall s m,
  match_here (k ++ k') s = Some m -> exists m', match_here k s = Some m'.
Proof.
  induction k as [|a k IH]; simpl; intros s m H; [eauto|].
  destruct s as [|b s]; [discriminate|].
  destruct (Ascii.eqb (upper a) (upper b)); [|discriminate].
  destruct (match_here (k ++ k') s) as [m1|] eqn:E; [|discriminate].
  destruct (IH s m1 E) as (m' & ->). simpl. eauto.
Qed.

(** The matched text is a piece of the subject. *)
Lemma match_here_text k : forall s m,
  match_here k s = Some m -> prefix m s = true.
Proof.
  induction k as [|a k IH]; simpl; intros s m H.
  - injection H as <-. destruct s; reflexivity.
  - destruct s as [|b s]; [discriminate|].
    destruct (Ascii.eqb (upper a) (upper b)); [|discriminate].
    destruct (match_here k s) as [m1|] eqn:E; [|discriminate].
    injection H as <-. simpl.
    destruct (ascii_dec b b); [|contradiction]. eauto.
Qed.

Lemma ascii_enumerated a : In a (map ascii_of_nat (seq 0 256)).
Proof.
  rewrite <- (ascii_nat_embedding a). apply in_map. apply in_seq.
  pose proof (nat_ascii_bounded a). lia.
Qed.

Lemma lower_of_match a b :
  Ascii.eqb (upper a) (upper b) = true -> lower a = a -> lower b = a.
Proof.
  assert (forallb
            (fun a =>
               forallb
                 (fun b =>
                    implb (Ascii.eqb (upper a) (upper b)
                           && Ascii.eqb (lower a) a)
                          (Ascii.eqb (lower b) a))
                 (map ascii_of_nat (seq 0 256)))
            (map ascii_of_nat (seq 0 256)) = true) as Hall
      by (vm_compute; reflexivity).
  rewrite forallb_forall in Hall.
  specialize (Hall a (ascii_enumerated a)).
  rewrite forallb_forall in Hall.
  specialize (Hall b (ascii_enumerated b)).
  intros H1 H2. rewrite H1, H2, Ascii.eqb_refl in Hall. simpl in Hall.
  apply Ascii.eqb_eq; assumption.
Qed.

Lemma match_here_lower k : forall s m,
  match_here k s = Some m -> toLowerCase k = k -> toLowerCase m = k.
Proof.
  induction k as [|a k IH]; simpl; intros s m H Hk.
  - injection H as <-. reflexivity.
  - destruct s as [|b s]; [discriminate|].
    destruct (Ascii.eqb (upper a) (upper b)) eqn:Eab; [|discriminate].
    destruct (match_here k s) as [m1|] eqn:E; [|discriminate].
    injection H as <-. injection Hk as Ha Hk'. simpl.
    rewrite (lower_of_match a b Eab Ha), (IH s m1 E Hk'). reflexivity.
Qed.

(** A key that extends an earlier key of the alternation never gets to
    match: the earlier key matches wherever it does. *)
Lemma shadowed k1 k2 pre s m :
  In k1 pre -> Forall (fun k' => match_here k' s = None) pre ->
  prefix k1 k2 = true -> match_here k2 s = Some m -> False.
Proof.
  intros Hin Hpre Hp Hm. apply prefix_app in Hp as (r & ->).
  destruct (match_here_prefix _ _ _ _ Hm) as (m' & Hm').
  rewrite Forall_forall in Hpre. rewrite (Hpre _ Hin) in Hm'. discriminate.
Qed.

(** What the protocol pattern can report. *)
Lemma protocol_of_name name m :
  regex_match protocolRegex name = Some m ->
  let p := lookup (toLowerCase m) protocolMap in
  p <> JStr "ShadowsocksR" /\ p <> JStr "HTTPS" /\ p <> JStr "SOCKS5".
Proof.
  intros H.
  destruct (regex_match_somewhere _ _ _ H) as (before & s & _ & Ha).
  destruct (alternation_first _ _ _ Ha) as (pre & k & post & Hkeys & Hk & Hpre).
  assert (toLowerCase k = k) as Hlow.
  { assert (Forall (fun k => toLowerCase k = k) protocolRegex) as Hall
        by (repeat constructor).
    rewrite Forall_forall in Hall. apply Hall. rewrite Hkeys.
    apply in_or_app; right; left; reflexivity. }
  rewrite (match_here_lower _ _ _ Hk Hlow). clear Hlow H Ha.
  cbv [protocolRegex protocolMap map fst] in Hkeys.
  repeat (destruct pre as [|? pre];
          [injection Hkeys as <- <-
          |injection Hkeys as <- Hkeys]);
    try (destruct pre; discriminate Hkeys);
    try (cbv zeta; repeat split; discriminate);
    exfalso.
  - refine (shadowed "ss" "ssr" _ _ _ _ Hpre eq_refl Hk); simpl; tauto.
  - refine (shadowed "shadowsocks" "shadowsocksr" _ _ _ _ Hpre eq_refl Hk);
      simpl; tauto.
  - refine (shadowed "http" "https" _ _ _ _ Hpre eq_refl Hk); simpl; tauto.
  - refine (shadowed "socks" "socks5" _ _ _ _ Hpre eq_refl Hk);
      simpl; tauto.
Qed.

(** X13. Whenever the display name of a node contains a protocol
    pattern, the analysis never reports ShadowsocksR, HTTPS or SOCKS5:
    the patterns [ssr], [shadowsocksr], [https] and [socks5] stand
    behind their own prefixes [ss], [shadowsocks], [http] and [socks]
    in the alternation, which match first; and the node's own
    [protocol] field is not consulted once the name matches. *)
Theorem name_never_yields_shadowed_protocols (node : jsval)
        (name : string) (r : analysis) :
  opt_member node "name" = JStr name ->
  regex_match protocolRegex name <> None ->
  analyze node = Ok r ->
  protocol r <> JStr "ShadowsocksR" /\ protocol r <> JStr "HTTPS"
  /\ protocol r <> JStr "SOCKS5".
Proof.
  intros Hname Hm Hr.
  destruct node as [| | | | | |ps]; cbn [opt_member] in Hname;
    try discriminate.
  unfold analyze in Hr; cbn [member bind] in Hr. rewrite Hname in Hr.
  destruct name as [|a name]; [exfalso; apply Hm; reflexivity|].
  change (or_else (JStr (String a name)) (JStr ""))
    with (JStr (String a name)) in Hr.
  destruct (regex_match protocolRegex (String a name)) as [m|] eqn:E;
    [|contradiction].
  cbn [bind] in Hr.
  destruct (regex_match countryRegex (String a name));
    cbv beta iota zeta in Hr; rewrite E in Hr; cbn [bind] in Hr;
    injection Hr as <-; cbn [protocol];
    apply (protocol_of_name _ _ E).
Qed.

Lemma name_never_yields_shadowed_protocols_witness :
  exists r,
    analyze (JObj [("name", JStr "SSR-HK-01");
                   ("protocol", JStr "shadowsocksr")]) = Ok r /\
    protocol r = JStr "Shadowsocks" /\
    protocol r <> JStr "ShadowsocksR".
Proof.
  destruct (analyze (JObj [("name", JStr "SSR-HK-01");
                           ("protocol", JStr "shadowsocksr")]))
    as [r|] eqn:E; [|vm_compute in E; discriminate].
  exists r. split; [reflexivity|]. split.
  - vm_compute in E. injection E as <-. reflexivity.
  - apply (name_never_yields_shadowed_protocols
             (JObj [("name", JStr "SSR-HK-01");
                    ("protocol", JStr "shadowsocksr")]) "SSR-HK-01" r);
      [reflexivity|discriminate|exact E].
Defined.

Lemma indonesia_matches post :
  regex_match countryRegex ("印度尼西亚" ++ post) = Some "印度".
Proof. reflexivity. Qed.

(** X14. The word 印度尼西亚 (Indonesia) is never read as such: the key
    印度 (India) stands before it in the country map and matches its
    first two characters.  A node whose name has 印度尼西亚 as its first
    country pattern is classified as India. *)
Theorem indonesia_read_as_india (node : jsval) (pre post p : string) :
  opt_member node "name" = JStr (pre ++ "印度尼西亚" ++ post) ->
  no_match_within countryRegex pre ("印度尼西亚" ++ post) = true ->
  opt_member node "protocol" = JStr p
    \/ truthy (opt_member node "protocol") = false ->
  exists r,
    analyze node = Ok r /\
    countryCode r = JStr "IN" /\ country r = JStr "印度".
Proof.
  intros Hname Hpre Hproto.
  destruct node as [| | | | | |ps]; cbn [opt_member] in Hname;
    try discriminate.
  unfold analyze; cbn [member bind]. rewrite Hname.
  assert (or_else (JStr (pre ++ "印度尼西亚" ++ post)) (JStr "")
          = JStr (pre ++ "印度尼西亚" ++ post)) as ->.
  { unfold or_else; simpl. destruct pre; reflexivity. }
  rewrite (regex_match_skip _ _ _ Hpre), indonesia_matches.
  destruct (regex_match protocolRegex (pre ++ "印度尼西亚" ++ post)).
  - eexists; split; [reflexivity|split; reflexivity].
  - destruct Hproto as [-> | ->].
    + simpl truthy. destruct (negb (p =? "")%string);
        eexists; (split; [reflexivity|split; reflexivity]).
    + eexists; split; [reflexivity|split; reflexivity].
Qed.

Lemma indonesia_read_as_india_witness :
  exists r, analyze (named "印度尼西亚 雅加达 01") = Ok r /\
            countryCode r = JStr "IN" /\ country r = JStr "印度".
Proof.
  apply (indonesia_read_as_india (named "印度尼西亚 雅加达 01")
                                 "" " 雅加达 01" "vmess").
  - reflexivity.
  - reflexivity.
  - left; reflexivity.
Defined.

Lemma lookup_In key table c :
  lookup key table = JStr c -> In (key, c) table.
Proof.
  induction table as [|[k v] table IH]; simpl; [discriminate|].
  destruct (String.eqb_spec key k) as [->|_].
  - intros [= ->]. left; reflexivity.
  - intros H. right; auto.
Qed.

Lemma country_label key c :
  In (key, c) countryMap ->
  exists label, lookup c countryNames = JStr label /\ label <> "".
Proof.
  assert (forallb
            (fun kc =>
               match lookup (snd kc) countryNames with
               | JStr l => negb (l =? "")%string
               | _ => false
               end) countryMap = true) as Hall
      by (vm_compute; reflexivity).
  rewrite forallb_forall in Hall. intros Hin.
  specialize (Hall _ Hin). cbn [snd] in Hall.
  destruct (lookup c countryNames) as [| | | | |l|]; try discriminate.
  exists l. split; [reflexivity|]. intros ->. discriminate.
Qed.

Lemma includes_prefix m s : prefix m s = true -> includes m s = true.
Proof. intros H. destruct s; cbn [includes]; rewrite H; reflexivity. Qed.

Lemma includes_after pre m : forall s,
  includes m s = true -> includes m (pre ++ s) = true.
Proof.
  induction pre as [|a pre IH]; simpl; intros s H; [assumption|].
  rewrite (IH s H). apply orb_true_r.
Qed.

Lemma regex_match_text keys name m :
  regex_match keys name = Some m -> includes m name = true.
Proof.
  intros H.
  destruct (regex_match_somewhere _ _ _ H) as (pre & rest & -> & Ha).
  destruct (alternation_first _ _ _ Ha) as (_ & k & _ & _ & Hk & _).
  apply includes_after, includes_prefix. eapply match_here_text; eassumption.
Qed.

(** X15. A country code is reported only on the strength of the name:
    when the analysis of a node carries a code, the name contains, in
    exactly the spelling of the map, a key that the country map sends
    to that code, and the country label is the one listed for the
    code. *)
Theorem country_code_backed_by_name (node : jsval) (name c : string)
        (r : analysis) :
  opt_member node "name" = JStr name ->
  analyze node = Ok r ->
  countryCode r = JStr c ->
  exists key label,
    In (key, c) countryMap /\ includes key name = true /\
    In (c, label) countryNames /\ country r = JStr label.
Proof.
  intros Hname Hr Hc.
  destruct node as [| | | | | |ps]; cbn [opt_member] in Hname;
    try discriminate.
  unfold analyze in Hr; cbn [member bind] in Hr. rewrite Hname in Hr.
  assert (or_else (JStr name) (JStr "") = JStr name) as E
      by (destruct name; reflexivity).
  rewrite E in Hr. clear E.
  destruct (regex_match countryRegex name) as [m|] eqn:Em;
    cbv beta iota zeta in Hr;
    match type of Hr with
    | bind ?x _ = _ => destruct x as [proto|]
    end; cbn [bind] in Hr; try discriminate;
    injection Hr as <-; [|discriminate].
  change (lookup m countryMap = JStr c) in Hc.
  pose proof (lookup_In _ _ _ Hc) as Hin.
  destruct (country_label _ _ Hin) as (label & Hl & Hne).
  exists m, label.
  change (In (m, c) countryMap /\ includes m name = true /\
          In (c, label) countryNames /\
          match lookup m countryMap with
          | JStr c => or_else (lookup c countryNames) (JStr m)
          | _ => JStr m
          end = JStr label).
  rewrite Hc, Hl.
  repeat split.
  - assumption.
  - eapply regex_match_text; eassumption.
  - apply lookup_In; assumption.
  - unfold or_else; simpl. destruct label; [contradiction|reflexivity].
Qed.

Lemma country_code_backed_by_name_witness :
  exists r key label,
    analyze (named "香港 → 🇺🇸 relay") = Ok r /\
    In (key, "HK") countryMap /\
    includes key "香港 → 🇺🇸 relay" = true /\
    country r = JStr label.
Proof.
  destruct (analyze (named "香港 → 🇺🇸 relay")) as [r|] eqn:E;
    [|vm_compute in E; discriminate].
  destruct (country_code_backed_by_name
              (named "香港 → 🇺🇸 relay") "香港 → 🇺🇸 relay" "HK" r)
    as (key & label & H1 & H2 & _ & H4).
  - reflexivity.
  - exact E.
  - vm_compute in E. injection E as <-. reflexivity.
  - exists r, key, label. auto.
Defined.

End AnalyzerExtras.

(* ================================================================= *)
(** * Properties of the group manager *)

Section GroupManagerFacts.
Import GroupManager NodeAnalyzer.

Local Abbreviation members := (fun kg : string * group => nodes (snd kg)).
Local Abbreviation labelled :=
  (fun kg : string * group => (fst kg, name (snd kg))).

Lemma push_labels key n t : map labelled (push key n t) = map labelled t.
Proof.
  induction t as [|[k g] t IH]; simpl; [reflexivity|].
  destruct (String.eqb k key); simpl; [reflexivity|].
  rewrite IH; reflexivity.
Qed.

Lemma has_key_labels key t t' :
  map labelled t = map labelled t' -> has_key key t = has_key key t'.
Proof.
  revert t'. induction t as [|[k g] t IH]; intros [|[k' g'] t'] H;
    try discriminate; [reflexivity|].
  simpl in *. injection H as -> _ H. rewrite (IH t' H). reflexivity.
Qed.

Lemma push_members key n t :
  has_key key t = true ->
  Permutation (List.concat (map members (push key n t)))
              (n :: List.concat (map members t)).
Proof.
  induction t as [|[k g] t IH]; simpl; intros H; [discriminate|].
  destruct (String.eqb k key); simpl.
  - rewrite <- app_assoc. simpl. symmetry. apply Permutation_middle.
  - etransitivity; [apply Permutation_app_head, IH, H|].
    symmetry. apply Permutation_middle.
Qed.

Lemma push_member_of key n t k g x :
  In (k, g) (push key n t) -> In x (nodes g) ->
  (exists g0, In (k, g0) t /\ In x (nodes g0)) \/ (k = key /\ x = n).
Proof.
  induction t as [|[k1 g1] t IH]; simpl; [contradiction|].
  destruct (String.eqb_spec k1 key) as [->|Hne]; simpl.
  - intros [[= <- <-]|Hin] Hx.
    + simpl in Hx. apply in_app_or in Hx as [Hx|[<-|[]]]; eauto.
    + eauto.
  - intros [[= <- <-]|Hin] Hx; [eauto|].
    destruct (IH Hin Hx) as [(g0 & H0 & Hx0)|?]; eauto.
Qed.

Lemma concat_nonempty t :
  List.concat (map nodes (nonempty t)) = List.concat (map members t).
Proof.
  unfold nonempty. induction t as [|[k g] t IH]; simpl; [reflexivity|].
  destruct (nodes g) eqn:E; simpl; rewrite IH; [reflexivity|].
  rewrite E. reflexivity.
Qed.

Lemma regionKey_known node k :
  regionKey node = Ok k -> has_key k regionMap = true.
Proof.
  unfold regionKey.
  destruct (member node "analysis") as [analysis|]; cbn [bind];
    [|discriminate].
  cbv zeta. destruct (truthy _).
  - destruct (and_then _ _); try discriminate.
    intros [= <-]. unfold region_of_label.
    repeat match goal with
           | |- context [if ?c then _ else _] => destruct c
           end; reflexivity.
  - destruct (upper_name node) as [name|]; cbn [bind]; [|discriminate].
    intros [= <-]. unfold region_of_name.
    repeat match goal with
           | |- context [if ?c then _ else _] => destruct c
           end; reflexivity.
Qed.

(** The state of the region table after some nodes. *)
Lemma categorize_loop l : forall r m r' m' done,
  foldM (fun maps node => categorizeNode node maps) l (r, m) = Ok (r', m') ->
  map labelled r = map labelled regionMap ->
  Permutation (List.concat (map members r)) done ->
  (forall k g x, In (k, g) r -> In x (nodes g) -> regionKey x = Ok k) ->
  map labelled r' = map labelled regionMap /\
  Permutation (List.concat (map members r')) (done ++ l) /\
  (forall k g x, In (k, g) r' -> In x (nodes g) -> regionKey x = Ok k).
Proof.
  induction l as [|n l IH]; intros r m r' m' done H Hlab Hperm Hkeys.
  - injection H as <- <-. rewrite app_nil_r. auto.
  - cbn [foldM] in H. unfold categorizeNode at 1 in H.
    destruct (regionKey n) as [k|] eqn:Ek; cbn [bind] in H; [|discriminate].
    destruct (upper_name n) as [name|]; cbn [bind] in H; [|discriminate].
    assert (has_key k r = true) as Hk.
    { rewrite (has_key_labels k r regionMap Hlab).
      eapply regionKey_known; eassumption. }
    rewrite Hk in H.
    apply IH with (done := (done ++ [n])%list) in H.
    + rewrite <- app_assoc in H. exact H.
    + rewrite push_labels; assumption.
    + etransitivity; [apply push_members, Hk|].
      etransitivity; [apply perm_skip, Hperm|].
      apply Permutation_cons_append.
    + intros k' g x Hin Hx.
      destruct (push_member_of _ _ _ _ _ _ Hin Hx)
        as [(g0 & H0 & Hx0)|[-> ->]]; eauto.
Qed.

(** X16. The region groups partition the nodes: grouping loses no node
    and duplicates none, no empty group is returned, and a node sits in
    the group of the region key that [_categorizeNode] computes for
    it. *)
Theorem region_groups_partition (l : list jsval)
        (region media : list group) :
  groupNodes l = Ok (Groups region media) ->
  Permutation (List.concat (map nodes region)) l /\
  (forall g, In g region -> nodes g <> []) /\
  (forall g x, In g region -> In x (nodes g) ->
     exists k g0,
       In (k, g0) regionMap /\ name g0 = name g /\ regionKey x = Ok k).
Proof.
  unfold groupNodes. destruct l as [|n l]; [discriminate|].
  destruct (foldM _ (n :: l) (regionMap, mediaMap)) as [[r m]|] eqn:E;
    cbn [bind]; [|discriminate].
  intros [= <- <-]. cbn [fst].
  destruct (categorize_loop _ _ _ _ _ [] E eq_refl) as (Hlab & Hperm & Hkeys).
  { reflexivity. }
  { intros k g x Hin.
    simpl in Hin.
    repeat (destruct Hin as [[= <- <-]|Hin]; [intros []|]).
    contradiction. }
  split; [|split].
  - rewrite concat_nonempty. exact Hperm.
  - intros g Hg E'. unfold nonempty in Hg.
    apply filter_In in Hg as [_ Hg]. rewrite E' in Hg. discriminate.
  - intros g x Hg Hx. unfold nonempty in Hg.
    apply filter_In in Hg as [Hg _].
    apply in_map_iff in Hg as ([k g'] & <- & Hin). cbn [snd] in *.
    assert (In (k, name g') (map labelled regionMap)) as Hl.
    { rewrite <- Hlab. change (k, name g') with (labelled (k, g')).
      apply in_map; assumption. }
    apply in_map_iff in Hl as ([k0 g0] & [= -> Hn] & H0).
    exists k, g0. repeat split; eauto.
Qed.

Lemma region_groups_partition_witness :
  exists region media,
    groupNodes [NodeAnalyzerExamples.named "HK 01";
                NodeAnalyzerExamples.named "Tokyo JP";
                NodeAnalyzerExamples.named "hk-02"]
    = Ok (Groups region media) /\
    Permutation (List.concat (map nodes region))
                [NodeAnalyzerExamples.named "HK 01";
                 NodeAnalyzerExamples.named "Tokyo JP";
                 NodeAnalyzerExamples.named "hk-02"].
Proof.
  destruct (groupNodes _) as [[|region media]|] eqn:E;
    [vm_compute in E; discriminate| |vm_compute in E; discriminate].
  exists region, media. split; [reflexivity|].
  apply (region_groups_partition _ _ _ E).
Defined.

Lemma lookup_shape key table :
  lookup key table = JUndef \/ exists v, lookup key table = JStr v.
Proof.
  induction table as [|[k v] table IH]; simpl; [auto|].
  destruct (String.eqb key k); eauto.
Qed.

(** The country fields of an analysis: no code comes with no country,
    a code of the map with its label. *)
Lemma analyze_country source r :
  analyze source = Ok r ->
  (countryCode r = JNull -> country r = JNull) /\
  (forall c, countryCode r = JStr c ->
     exists label, In (c, label) countryNames /\ label <> ""
                   /\ country r = JStr label).
Proof.
  unfold analyze.
  destruct (member source "name") as [nodeName|]; cbn [bind];
    [|discriminate].
  destruct (or_else nodeName (JStr "")) as [| | | | |name|];
    try discriminate.
  destruct (regex_match countryRegex name) as [m|];
    cbv beta iota zeta;
    [remember (lookup m countryMap) as code eqn:Hcode|];
    match goal with
    | |- bind ?x _ = _ -> _ => destruct x as [proto|]
    end; cbn [bind]; try discriminate;
    intros [= <-]; cbv beta iota delta [countryCode country].
  - split.
    + intros ->. destruct (lookup_shape m countryMap) as [E|[v E]];
        rewrite E in Hcode; discriminate.
    + intros c ->. symmetry in Hcode.
      pose proof (lookup_In _ _ _ Hcode) as Hin.
      destruct (country_label _ _ Hin) as (label & Hl & Hne).
      exists label.
      change (In (c, label) countryNames /\ label <> "" /\
              or_else (lookup c countryNames) (JStr m) = JStr label).
      rewrite Hl. repeat split.
      * apply lookup_In; assumption.
      * assumption.
      * unfold or_else; simpl. destruct label; [contradiction|reflexivity].
  - split; [reflexivity|discriminate].
Qed.

Lemma labels_are_other c label :
  In (c, label) countryNames -> region_of_label label = "OTHER".
Proof.
  assert (forallb (fun cl => String.eqb (region_of_label (snd cl)) "OTHER")
                  countryNames = true) as Hall
      by (vm_compute; reflexivity).
  rewrite forallb_forall in Hall. intros Hin.
  apply String.eqb_eq. apply (Hall _ Hin).
Qed.

Lemma analysed_regionKey node r :
  analysed node r -> coded r -> regionKey node = Ok "OTHER".
Proof.
  intros ((source & Ha) & Hreg) Hcode.
  destruct (analyze_country _ _ Ha) as (Hnone & Hsome).
  assert (exists x, NodeCategories.region r = JStr x /\ x <> ""
                    /\ region_of_label x = "OTHER") as (x & Hx & Hne & Ho).
  { unfold NodeCategories.region. destruct Hcode as [Hc|[c Hc]].
    - rewrite (Hnone Hc). exists "Unknown". repeat split. discriminate.
    - destruct (Hsome c Hc) as (label & Hin & Hne & ->).
      exists label. repeat split.
      + unfold or_else; simpl. destruct label; [contradiction|reflexivity].
      + assumption.
      + eapply labels_are_other; eassumption. }
  rewrite Hx in Hreg.
  destruct node as [| | | | | |ps]; try discriminate.
  cbn [opt_member] in Hreg. unfold regionKey. cbn [member bind].
  destruct (assoc "analysis" ps) as [| | | | | |fields]; try discriminate.
  cbn [opt_member] in Hreg. cbn [opt_member].
  destruct (assoc "categories" fields) as [| | | | | |cats];
    try discriminate.
  cbn [opt_member] in Hreg. cbn [opt_member and_then truthy].
  rewrite Hreg. cbn [truthy].
  destruct x; [contradiction|]. cbn [String.eqb negb]. rewrite Ho.
  reflexivity.
Qed.

Lemma only_other_loop l : forall received m r' m',
  Forall (fun n => exists r, analysed n r /\ coded r) l ->
  foldM (fun maps node => categorizeNode node maps) l
        (only_other received, m) = Ok (r', m') ->
  r' = only_other (received ++ l).
Proof.
  induction l as [|n l IH]; intros received m r' m' Hl H.
  - injection H as <- _. rewrite app_nil_r. reflexivity.
  - inversion Hl as [|? ? (r & Hn & Hc) Hl']; subst.
    cbn [foldM] in H. unfold categorizeNode at 1 in H.
    rewrite (analysed_regionKey n r Hn Hc) in H. cbn [bind] in H.
    destruct (upper_name n) as [name|]; cbn [bind] in H; [|discriminate].
    change (if has_key "OTHER" (only_other received)
            then push "OTHER" n (only_other received)
            else push "OTHER" n (only_other received))
      with (only_other (received ++ [n])) in H.
    rewrite (IH _ _ _ _ Hl' H), <- app_assoc. reflexivity.
Qed.

(** An analysis without a country code: the country pattern ignores
    letter case, the country map does not, so RUSSIA matches and finds
    no code; the matched text becomes the region label, and the group
    manager finds US in it. *)
Lemma uncoded_country_reaches_region :
  exists r,
    analyze (NodeAnalyzerExamples.named "RUSSIA 01") = Ok r /\
    countryCode r = JUndef /\
    analysed GroupExamples.analysed_russia r /\
    groupNodes [GroupExamples.analysed_russia]
    = Ok (Groups [mkGroup "美国" [GroupExamples.analysed_russia]] []).
Proof.
  eexists. split; [vm_compute; reflexivity|].
  split; [reflexivity|].
  split; [|vm_compute; reflexivity].
  split; [|reflexivity].
  exists (NodeAnalyzerExamples.named "RUSSIA 01"). vm_compute. reflexivity.
Qed.

(** X17. Nodes that carry an analysis of [NodeAnalyzer] which assigned a
    country code, or found no country at all, never reach a region of
    their own: such an analysis labels countries in Chinese (or as
    Unknown), the group manager looks for the English names and the
    two-letter codes in that label, and every such node ends in the
    last group, 其他 -- the one group for which no region file is
    written. *)
Theorem analysed_nodes_grouped_as_other (l : list jsval)
        (region media : list group) :
  Forall (fun n => exists r, analysed n r /\ coded r) l ->
  groupNodes l = Ok (Groups region media) ->
  region = [mkGroup "其他" l] /\
  (forall g, In g region ->
     GroupFiles.region_file (name g) (nodes g) = Ok None).
Proof.
  intros Hl. unfold groupNodes. destruct l as [|n l]; [discriminate|].
  destruct (foldM _ (n :: l) (regionMap, mediaMap)) as [[r m]|] eqn:E;
    cbn [bind]; [|discriminate].
  intros [= <- <-]. cbn [fst].
  change regionMap with (only_other []) in E.
  rewrite (only_other_loop _ _ _ _ _ Hl E).
  split; [reflexivity|].
  intros g [<-|[]]. reflexivity.
Qed.

Lemma analysed_nodes_grouped_as_other_witness :
  exists region media,
    groupNodes [GroupExamples.analysed_hk] = Ok (Groups region media) /\
    region = [mkGroup "其他" [GroupExamples.analysed_hk]].
Proof.
  destruct (groupNodes _) as [[|region media]|] eqn:E;
    [vm_compute in E; discriminate| |vm_compute in E; discriminate].
  exists region, media. split; [reflexivity|].
  apply (analysed_nodes_grouped_as_other _ _ _) in E; [apply E|].
  repeat constructor. eexists. split; [split|].
  - exists (NodeAnalyzerExamples.named "香港 01"). vm_compute. reflexivity.
  - reflexivity.
  - right; eexists; reflexivity.
Defined.

End GroupManagerFacts.

(* ================================================================= *)
(** * The trojan decoder of the base64-envelope parser *)

Section Base64TrojanFacts.
Import URL.

Lemma break_app_safe stop p : forall s,
  all_chars (fun a => negb (stop a)) p = true ->
  break stop (p ++ s) = (p ++ fst (break stop s), snd (break stop s)).
Proof.
  induction p as [|a p IH]; simpl; intros s H.
  - destruct (break stop s); reflexivity.
  - apply andb_prop in H as [Ha Hp]. apply negb_true_iff in Ha.
    rewrite Ha, (IH s Hp). reflexivity.
Qed.

(** The text up to the first occurrence of a character that the text
    contains. *)
Lemma break_at_first c : forall s,
  includes (String c "") s = true ->
  exists p q, break (is_char c) s = (p, String c q).
Proof.
  induction s as [|a s IH]; cbn [includes]; intros H.
  - discriminate.
  - cbn [break]. unfold is_char at 1.
    destruct (Ascii.eqb_spec a c) as [->|Hne].
    + eauto.
    + assert (includes (String c "") s = true) as Hs.
      { apply orb_prop in H as [H|H]; [|assumption].
        simpl in H. destruct (ascii_dec c a); [congruence|discriminate]. }
      destruct (IH Hs) as (p & q & ->). eauto.
Qed.

Lemma rev_app s t : rev (s ++ t) = rev t ++ rev s.
Proof.
  unfold rev. rewrite rev_onto_app.
  assert (forall u acc, rev_onto u acc = rev_onto u "" ++ acc) as H.
  { induction u as [|a u IH]; simpl; intros acc; [reflexivity|].
    rewrite IH, (IH (String a "")).
    clear. induction (rev_onto u ""); simpl; congruence. }
  apply H.
Qed.

Lemma drop_while_app p A : forall B,
  (exists b B', B = String b B' /\ p b = false) ->
  exists Y, drop_while p (A ++ B) = Y ++ B.
Proof.
  induction A as [|a A IH]; simpl; intros B HB.
  - destruct HB as (b & B' & -> & Hb). simpl. rewrite Hb.
    exists "". reflexivity.
  - destruct (p a).
    + apply IH; assumption.
    + exists (String a A). reflexivity.
Qed.

Lemma keep_app p s : forall t, keep p (s ++ t) = keep p s ++ keep p t.
Proof.
  induction s as [|a s IH]; simpl; intros t; [reflexivity|].
  destruct (p a); simpl; rewrite IH; reflexivity.
Qed.

Lemma keep_all p s : all_chars p s = true -> keep p s = s.
Proof.
  induction s as [|a s IH]; simpl; intros H; [reflexivity|].
  apply andb_prop in H as [Ha Hs]. rewrite Ha, (IH Hs). reflexivity.
Qed.

Lemma all_chars_weaken (p q : ascii -> bool) s :
  (forall a, p a = true -> q a = true) ->
  all_chars p s = true -> all_chars q s = true.
Proof.
  intros Hpq. induction s as [|a s IH]; simpl; intros H; [reflexivity|].
  apply andb_prop in H as [Ha Hs]. rewrite (Hpq a Ha), (IH Hs). reflexivity.
Qed.

Lemma all_chars_app p s : forall t,
  all_chars p (s ++ t) = all_chars p s && all_chars p t.
Proof.
  induction s as [|a s IH]; simpl; intros t; [reflexivity|].
  rewrite IH, andb_assoc. reflexivity.
Qed.

(** Cleaning leaves a text of visible characters at the head of the
    input in place. *)
Lemma clean_head a p q :
  all_chars (fun a => negb (c0_or_space a)) (String a p) = true ->
  exists q', clean (String a p ++ q) = String a p ++ q'.
Proof.
  intros H. unfold clean.
  pose proof H as H'. simpl in H'. apply andb_prop in H' as [Ha _].
  apply negb_true_iff in Ha.
  cbn [append drop_while]. rewrite Ha.
  change (String a (p ++ q)) with (String a p ++ q).
  rewrite rev_app.
  destruct (drop_while_app c0_or_space (rev q) (rev (String a p)))
    as (Y & ->).
  { assert (all_chars (fun a => negb (c0_or_space a)) (rev (String a p))
            = true) as Hr
        by (apply all_chars_rev_onto; [assumption|reflexivity]).
    destruct (rev (String a p)) as [|b B'] eqn:E.
    - apply (f_equal rev) in E. rewrite rev_rev in E. discriminate.
    - simpl in Hr. apply andb_prop in Hr as [Hb _].
      apply negb_true_iff in Hb. eauto. }
  rewrite rev_app, rev_rev, keep_app.
  rewrite (keep_all _ (String a p)).
  - eexists; reflexivity.
  - revert H. apply all_chars_weaken.
    intros c. unfold c0_or_space, tab_or_newline.
    destruct (N.leb_spec (code c) 32); [discriminate|]. intros _.
    destruct (N.eqb_spec (code c) 9); [lia|].
    destruct (N.eqb_spec (code c) 10); [lia|].
    destruct (N.eqb_spec (code c) 13); [lia|]. reflexivity.
Qed.

Lemma encoded_chars s :
  all_chars (fun a => uri_unreserved a || is_char "%" a)
            (encodeURIComponent s) = true.
Proof.
  unfold encodeURIComponent.
  induction s as [|a s IH]; [reflexivity|].
  cbn [percent_encode]. rewrite all_chars_app, IH, andb_true_r.
  destruct a as [[] [] [] [] [] [] [] []]; reflexivity.
Qed.

Lemma encoded_char_facts a :
  uri_unreserved a || is_char "%" a = true ->
  negb (c0_or_space a) = true /\ one_of "/?#" a = false
  /\ is_char ":" a = false /\ is_char "@" a = false
  /\ userinfo_set a = false.
Proof.
  destruct a as [[] [] [] [] [] [] [] []]; vm_compute;
    intuition discriminate.
Qed.

Lemma split_last_at_app p A :
  exists c' h, split_last_at (p ++ String "@" A) = Some (p ++ c', h).
Proof.
  induction p as [|a p (c' & h & IH)].
  - cbn [append split_last_at].
    destruct (split_last_at A) as [[x y]|]; [exists (String "@" x), y|exists "", A];
      reflexivity.
  - exists c', h. cbn [append split_last_at]. rewrite IH. reflexivity.
Qed.

(** The user name that the URL parser reads from the rebuilt line. *)
Lemma rebuilt_username enc q url :
  all_chars (fun a => uri_unreserved a || is_char "%" a) enc = true ->
  URL.parse ("trojan://%2F" ++ enc ++ String "@" q) = Some url ->
  exists U, username url = "%2F" ++ U.
Proof.
  intros Henc.
  assert (forall c, uri_unreserved c || is_char "%" c = true ->
                    negb (c0_or_space c) = true) as Hvis
      by (intros c Hc; apply (encoded_char_facts c Hc)).
  assert (all_chars (fun a => negb (c0_or_space a))
                    ("trojan://%2F" ++ enc ++ "@") = true) as Hhead.
  { cbn [append all_chars]. rewrite all_chars_app.
    rewrite (all_chars_weaken _ _ _ Hvis Henc). reflexivity. }
  replace ("trojan://%2F" ++ enc ++ String "@" q)
    with (("trojan://%2F" ++ enc ++ "@") ++ q).
  2:{ cbn [append]. do 12 f_equal.
      clear. induction enc; simpl; congruence. }
  destruct (clean_head "t" ("rojan://%2F" ++ enc ++ "@") q Hhead)
    as (q' & Hclean).
  unfold URL.parse.
  change (String "t" ("rojan://%2F" ++ enc ++ "@"))
    with ("trojan://%2F" ++ enc ++ "@") in Hclean.
  rewrite Hclean.
  change (parse_scheme (("trojan://%2F" ++ enc ++ "@") ++ q'))
    with (Some ("trojan", "//" ++ ("%2F" ++ enc ++ "@") ++ q')).
  cbv beta iota zeta.
  change (special "trojan") with false.
  cbv beta iota zeta. cbn [append]. cbv beta iota zeta.
  change (String "%" (String "2" (String "F" ((enc ++ "@") ++ q'))))
    with (("%2F" ++ enc ++ "@") ++ q').
  rewrite break_app_safe.
  2:{ cbn [append all_chars]. rewrite all_chars_app.
      rewrite (all_chars_weaken
                 (fun a => uri_unreserved a || is_char "%" a)
                 (fun a => negb (one_of "/?#" a
                                 || false && is_char "\" a))
                 enc); [reflexivity| |exact Henc].
      intros c Hc. destruct (encoded_char_facts c Hc) as (_ & -> & _).
      reflexivity. }
  destruct (break _ q') as [A tail]. cbn [fst snd].
  replace (("%2F" ++ enc ++ "@") ++ A)
    with (("%2F" ++ enc) ++ String "@" A).
  2:{ cbn [append]. do 3 f_equal.
      clear. induction enc; simpl; congruence. }
  destruct (split_last_at_app ("%2F" ++ enc) A) as (c' & h & ->).
  cbv beta iota zeta. cbn [andb].
  destruct (String.eqb h ""); [discriminate|].
  rewrite break_app_safe.
  2:{ rewrite all_chars_app. apply andb_true_intro. split; [reflexivity|].
      revert Henc. apply all_chars_weaken.
      intros c Hc. destruct (encoded_char_facts c Hc) as (_ & _ & -> & _).
      reflexivity. }
  destruct (break (is_char ":") c') as [u' pass]. cbn [fst snd].
  destruct (split_host_port false h) as [hh p0].
  match goal with
  | |- match ?x with _ => _ end = _ -> _ => destruct x; [|discriminate]
  end.
  match goal with
  | |- match ?x with _ => _ end = _ -> _ => destruct x; [|discriminate]
  end.
  destruct (query_and_fragment false tail).
  intros [= <-]. cbn [username]. unfold encode.
  cbn [append percent_encode]. eexists. reflexivity.
Qed.

Lemma decode_slash_head fuel s r :
  decodeURIComponent_fuel (S fuel) (String "/" s) = Ok r ->
  exists r', r = String "/" r'.
Proof.
  cbn [decodeURIComponent_fuel].
  destruct (decodeURIComponent_fuel fuel s) as [rest|]; cbn [bind];
    [|discriminate].
  intros [= <-]. eauto.
Qed.

Lemma decode_escaped_slash U r :
  decodeURIComponent ("%2F" ++ U) = Ok r -> exists r', r = String "/" r'.
Proof.
  unfold decodeURIComponent.
  change (decodeURIComponent_fuel (String.length ("%2F" ++ U))
                                  ("%2F" ++ U))
    with (rest <- decodeURIComponent_fuel (S (S (String.length U))) U ;;
          Ok (String "/" rest)).
  destruct (decodeURIComponent_fuel _ U) as [rest|]; cbn [bind];
    [|discriminate].
  intros [= <-]. eauto.
Qed.

(** X18. Every password that the trojan decoder of the base64-envelope
    parser returns begins with a slash: the decoder cuts the password
    out of the line from index 8, one character before the end of
    [trojan://], and carries the second slash of the scheme through the
    decoding, the re-encoding and the URL parser into
    [settings.password]. *)
Theorem base64_trojan_password_slashed (line : string) (n : jsval) :
  Base64Parser.parseTrojan line = Some n ->
  exists password,
    opt_member (opt_member n "settings") "password"
    = JStr (String "/" password).
Proof.
  unfold Base64Parser.parseTrojan.
  destruct (startsWith "trojan://" line) eqn:Hp; [|discriminate].
  destruct (includes "@" line) eqn:Hat; [|discriminate].
  cbn [negb orb].
  apply prefix_app in Hp as (rest & ->).
  assert (includes "@" rest = true) as Hrest.
  { cbn [append includes] in Hat.
    repeat match type of Hat with
           | (prefix _ _ || _) = true =>
               apply orb_prop in Hat as [Hat|Hat]; [discriminate Hat|];
               cbn [includes] in Hat
           end.
    exact Hat. }
  change (Base64Parser.drop 8 ("trojan://" ++ rest)) with (String "/" rest).
  destruct (break_at_first "@" rest Hrest) as (p & q & Hb).
  cbn [break]. change (is_char "@" "/") with false. cbv iota.
  rewrite Hb. cbv beta iota zeta.
  unfold Base64Parser.or_null, PlainTextParser.or_null.
  destruct (decodeURIComponent (String "/" p)) as [decoded|] eqn:Ed;
    cbn [bind]; [|discriminate].
  unfold decodeURIComponent in Ed. cbn [String.length] in Ed.
  destruct (decode_slash_head _ _ _ Ed) as (d' & ->).
  change (encodeURIComponent (String "/" d'))
    with ("%2F" ++ encodeURIComponent d').
  unfold new_URL.
  destruct (URL.parse _) as [url|] eqn:Eu; cbn [bind]; [|discriminate].
  destruct (rebuilt_username _ _ _ (encoded_chars d') Eu) as (U & HU).
  rewrite HU.
  destruct (decodeURIComponent ("%2F" ++ U)) as [password|] eqn:Epw;
    cbn [bind]; [|discriminate].
  destruct (decode_escaped_slash _ _ Epw) as (pw' & ->).
  destruct (decodeURIComponent (Base64Parser.str_or _ _)) as [name|];
    cbn [bind]; [|discriminate].
  intros [= <-]. exists pw'. reflexivity.
Qed.

Lemma base64_trojan_password_slashed_witness :
  exists n password,
    Base64Parser.parseTrojan "trojan://secret@host.example:443#n" = Some n
    /\ opt_member (opt_member n "settings") "password"
       = JStr (String "/" password).
Proof.
  destruct (Base64Parser.parseTrojan _) as [n|] eqn:E;
    [|vm_compute in E; discriminate].
  destruct (base64_trojan_password_slashed _ n E) as (password & H).
  exists n, password. auto.
Defined.



End Base64TrojanFacts.

(* ================================================================= *)
(** * Properties of the reader of the group files *)

Section ReaderFacts.
Import URL GroupFiles GroupFileReader.











Local Abbreviation hashless :=
  (all_chars (fun a => negb (URL.is_char "#" a))).





Lemma hashless_base64 s : hashless (base64_encode s) = true.
Proof.
  apply (all_chars_weaken PlainTextParser.base64_char);
    [|apply base64_encode_chars].
  intros a. destruct a as [[] [] [] [] [] [] [] []]; vm_compute;
    intuition discriminate.
Qed.

Lemma append_empty s : s ++ "" = s.
Proof. induction s as [|a s IH]; simpl; [|rewrite IH]; reflexivity. Qed.

(** A line without [#] has no name. *)
Lemma name_of_hashless line :
  hashless line = true -> getNodeNameFromURI line = JNull.
Proof.
  intros H. unfold getNodeNameFromURI.
  rewrite <- (append_empty line), (break_app_safe _ _ "" H).
  cbn [break fst snd]. destruct (line ++ ""); reflexivity.
Qed.


Lemma prefix_append p r : prefix p (p ++ r) = true.
Proof.
  induction p as [|a p IH]; simpl; [destruct r; reflexivity|].
  destruct (ascii_dec a a); [assumption|contradiction].
Qed.


Lemma is_str_eq v s : is_str v s = true -> v = JStr s.
Proof.
  destruct v; try discriminate. simpl. intros H.
  apply String.eqb_eq in H. congruence.
Qed.


(** The branches of [synthesize] that build no line return ['']. *)
Ltac built_nothing H Hline :=
  repeat match type of H with
         | context [to_string ?v] =>
             destruct (to_string v); cbn [bind] in H; try discriminate
         end;
  injection H as H; exfalso; apply Hline; symmetry; exact H.

(** X19. The names of vmess and ssr nodes do not survive the group
    files: the line that the writer builds for such a node carries the
    name inside its base64 text and has no [#], so the reader, which
    looks for the name after a [#], files the node as 未命名节点 (with
    the right type). *)
Theorem reader_loses_name (nodeName node : jsval) (line : string) :
  is_str (opt_member node "type") "vmess" = true
  \/ is_str (opt_member node "type") "ssr" = true ->
  synthesize nodeName node = Ok line ->
  line <> "" ->
  read_line line
  = JObj [("name", JStr "未命名节点");
          ("type", opt_member node "type");
          ("server", JStr "127.0.0.1");
          ("port", JNum 1080);
          ("extra", JObj [("raw", JStr line)])].
Proof.
  intros Hty H Hline.
  assert (exists scheme rest,
            line = scheme ++ rest
            /\ hashless (scheme ++ rest) = true
            /\ JStr (getNodeTypeFromURI (scheme ++ rest))
               = opt_member node "type") as (scheme & rest & E & Hh & Ht).
  { unfold synthesize in H. destruct Hty as [Hty|Hty];
      apply is_str_eq in Hty; rewrite Hty in *; cbn [is_str] in *.
    - change (String.eqb "vmess" "vmess") with true in *.
      change (String.eqb "vmess" "ss") with false in *.
      change (String.eqb "vmess" "trojan") with false in *.
      change (String.eqb "vmess" "ssr") with false in *.
      cbn [andb] in *.
      destruct (truthy _).
      + destruct (port_or_443 node) as [port|]; cbn [bind] in H;
          [|discriminate].
        destruct (parseInt _) as [aid|]; cbn [bind] in H;
          [|discriminate].
        destruct (json_stringify _) as [json|];
          [|injection H as <-; contradiction].
        injection H as <-.
        exists "vmess://", (base64_encode json). split; [reflexivity|].
        split.
        * rewrite all_chars_app, hashless_base64. reflexivity.
        * unfold getNodeTypeFromURI, startsWith.
          rewrite prefix_append. reflexivity.
      + built_nothing H Hline.
    - change (String.eqb "ssr" "vmess") with false in *.
      change (String.eqb "ssr" "ss") with false in *.
      change (String.eqb "ssr" "trojan") with false in *.
      change (String.eqb "ssr" "ssr") with true in *.
      cbn [andb] in *.
      destruct (truthy _); [|built_nothing H Hline].
      destruct (synthesize_ssr nodeName node) as [uri|] eqn:Hssr;
        [|injection H as <-; contradiction].
      injection H as <-. unfold synthesize_ssr in Hssr.
      repeat match type of Hssr with
             | context [bind ?x _] =>
                 destruct x; cbn [bind] in Hssr; try discriminate
             end.
      injection Hssr as <-.
      eexists "ssr://", _. split; [reflexivity|]. split.
      + rewrite !all_chars_app, !hashless_base64.
        cbn [all_chars]. rewrite hashless_base64. reflexivity.
      + unfold getNodeTypeFromURI, startsWith.
        rewrite (prefix_append "ssr://"). reflexivity. }
  rewrite E. unfold read_line.
  rewrite (name_of_hashless _ Hh), Ht. reflexivity.
Qed.

Lemma reader_loses_name_witness :
  exists line,
    synthesize (JStr "HK 01") GroupFilesExamples.vmess_settings = Ok line /\
    read_line line
    = JObj [("name", JStr "未命名节点");
            ("type", JStr "vmess");
            ("server", JStr "127.0.0.1");
            ("port", JNum 1080);
            ("extra", JObj [("raw", JStr line)])].
Proof.
  destruct (synthesize (JStr "HK 01") GroupFilesExamples.vmess_settings) as [line|] eqn:E;
    [|vm_compute in E; discriminate].
  exists line. split; [reflexivity|].
  apply (reader_loses_name (JStr "HK 01") GroupFilesExamples.vmess_settings line).
  - left. reflexivity.
  - exact E.
  - intros ->. vm_compute in E. discriminate.
Defined.




Local Abbreviation labelled :=
  (fun kg : string * GroupManager.group =>
     (fst kg, GroupManager.name (snd kg))).

Lemma media_rules_labels name n rules : forall m,
  map labelled
      (fold_left (fun mediaMap (rule : string * list string) =>
                    if GroupManager.any_of (snd rule) name
                    then GroupManager.push (fst rule) n mediaMap
                    else mediaMap)
                 rules m)
  = map labelled m.
Proof.
  induction rules as [|rule rules IH]; intros m; [reflexivity|].
  cbn [fold_left]. rewrite IH.
  destruct (GroupManager.any_of _ _); [apply push_labels|reflexivity].
Qed.

Lemma categorize_labels l : forall r m r' m',
  foldM (fun maps node => GroupManager.categorizeNode node maps) l (r, m)
  = Ok (r', m') ->
  map labelled r' = map labelled r /\ map labelled m' = map labelled m.
Proof.
  induction l as [|n l IH]; intros r m r' m' H.
  - injection H as <- <-. auto.
  - cbn [foldM] in H. unfold GroupManager.categorizeNode at 1 in H.
    destruct (GroupManager.regionKey n) as [k|]; cbn [bind] in H;
      [|discriminate].
    destruct (GroupManager.upper_name n) as [name|]; cbn [bind] in H;
      [|discriminate].
    apply IH in H as [Hr Hm]. rewrite Hr, Hm, media_rules_labels.
    split; [|reflexivity].
    destruct (GroupManager.has_key k r); apply push_labels.
Qed.

Lemma nonempty_label t g :
  In g (GroupManager.nonempty t) ->
  exists key, In (key, GroupManager.name g) (map labelled t).
Proof.
  unfold GroupManager.nonempty. intros H.
  apply filter_In in H as [H _].
  apply in_map_iff in H as ([k g'] & <- & Hin).
  exists k. apply in_map_iff. exists (k, g'). split; [reflexivity|assumption].
Qed.

(** X21. The file names of the writer against those of the reader:
    every region group is written under a name that the reader files
    under the key of that group; so is every application group except
    Disney+ and Amazon Prime, written as [Disney_.txt] and
    [Amazon_Prime.txt] where the reader expects [Disney+.txt] and
    [AmazonPrime.txt], and so left out. *)
Theorem group_files_read_back (l : list jsval)
        (region media : list GroupManager.group) :
  GroupManager.groupNodes l = Ok (GroupManager.Groups region media) ->
  (forall g, In g region ->
     exists key,
       In (key, GroupManager.name g) (map labelled GroupManager.regionMap)
       /\ group_of_file (region_filename (GroupManager.name g))
          = Some (true, key)) /\
  (forall g, In g media ->
     exists key,
       In (key, GroupManager.name g) (map labelled GroupManager.mediaMap)
       /\ (key = "Disney+" \/ key = "AmazonPrime" ->
           group_of_file (MediaFiles.media_filename (GroupManager.name g))
           = None)
       /\ (key <> "Disney+" -> key <> "AmazonPrime" ->
           group_of_file (MediaFiles.media_filename (GroupManager.name g))
           = Some (false, key))).
Proof.
  unfold GroupManager.groupNodes. destruct l as [|n l]; [discriminate|].
  destruct (foldM _ (n :: l) _) as [[r m]|] eqn:E; cbn [bind];
    [|discriminate].
  intros [= <- <-]. cbn [fst snd].
  apply categorize_labels in E as [Hr Hm]. split.
  - intros g Hg. apply nonempty_label in Hg as [key Hin].
    rewrite Hr in Hin. exists key. split; [assumption|].
    simpl in Hin.
    repeat (destruct Hin as [[= <- <-]|Hin]; [reflexivity|]).
    contradiction.
  - intros g Hg. apply nonempty_label in Hg as [key Hin].
    rewrite Hm in Hin. exists key. split; [assumption|].
    simpl in Hin.
    repeat (destruct Hin as [[= <- <-]|Hin];
            [split; [intros [|]; (reflexivity || discriminate)
                    |intros; (reflexivity || congruence)]|]).
    contradiction.
Qed.

Lemma group_files_read_back_witness :
  exists region media,
    GroupManager.groupNodes [NodeAnalyzerExamples.named "HK Disney+ 01";
                             NodeAnalyzerExamples.named "US Netflix"]
    = Ok (GroupManager.Groups region media) /\
    forall g, In g region ->
      exists key,
        group_of_file (region_filename (GroupManager.name g))
        = Some (true, key).
Proof.
  destruct (GroupManager.groupNodes _) as [[|region media]|] eqn:E;
    [vm_compute in E; discriminate| |vm_compute in E; discriminate].
  exists region, media. split; [reflexivity|].
  intros g Hg.
  destruct (proj1 (group_files_read_back _ _ _ E) g Hg) as (key & _ & H).
  exists key. exact H.
Defined.

End ReaderFacts.

